(** * SEEKR2: the analysis stage of an MMVT calculation

    A shallow embedding of [seekr2/modules/mmvt_analyze.py]: the dense
    rate-matrix kernels ([mmvt_Q_N_R], [make_new_Nij_alpha], the per-anchor
    rule of [make_mcmc_quantities]), the stationary anchor distribution
    ([calculate_pi_alpha]), the assembly of global statistics
    ([fill_out_data_quantities]), the OpenMM event-log reader
    ([openmm_read_output_file_list]) with its per-anchor wrapper, and the
    sampling loop of [monte_carlo_milestoning_error].

    Numbers.  The Python code computes in binary64 ([np.zeros], [float])
    and in numpy's [longdouble].  The dense kernels are written once over
    an interface of arithmetic operations and instantiated twice: with the
    canonical rationals [Qc], where the algebraic statements are proved,
    and with Rocq's primitive binary64 floats, where the kernels evaluate
    exactly as numpy evaluates them.  Everything else is modelled over
    [Qc].  numpy answers a division whose divisor is zero with inf or nan
    and a warning, and goes on: [calculate_pi_alpha], which returns such
    entries, computes with rationals extended by the infinities and nan
    ([xQc]); elsewhere such a division ends the exact model with
    [NonFinite]. *)

From Stdlib Require Import QArith Qcanon Floats ZArith Lia.
From Stdlib Require Qcabs.
From stdpp Require Import gmap list numbers strings sorting.

(** ** Outcomes of Python code *)

Module Py.

Inductive exn : Type :=
| AssertionError (msg : string)
| IndexError
| KeyError
| ValueError
| TypeError
| LinAlgError
| ZeroDivisionError
| Exception (msg : string)
| NonFinite.

Inductive result (A : Type) : Type :=
| Ok (a : A)
| Raise (e : exn).

Arguments Ok {A} a.
Arguments Raise {A} e.

Definition bind {A B} (m : result A) (f : A → result B) : result B :=
  match m with
  | Ok a => f a
  | Raise e => Raise e
  end.

Definition is_ok {A} (m : result A) : bool :=
  match m with Ok _ => true | Raise _ => false end.

(** [assert c, msg] *)
Definition assert (c : bool) (msg : string) : result unit :=
  if c then Ok tt else Raise (AssertionError msg).

(** [for a in l: b = f b a], stopping at the first exception. *)
Fixpoint foldlM {A B} (f : B → A → result B) (l : list A) (b : B) : result B :=
  match l with
  | [] => Ok b
  | a :: l => bind (f b a) (foldlM f l)
  end.

(** [[f a for a in l]], stopping at the first exception. *)
Fixpoint mapM {A B} (f : A → result B) (l : list A) : result (list B) :=
  match l with
  | [] => Ok []
  | a :: l => bind (f a) (λ b, bind (mapM f l) (λ bs, Ok (b :: bs)))
  end.

(** [l[i]] for [0 <= i]. *)
Definition index {A} (l : list A) (i : nat) : result A :=
  match l !! i with
  | Some a => Ok a
  | None => Raise IndexError
  end.

(** [l[i] = v] for [0 <= i]. *)
Definition setitem {A} (l : list A) (i : nat) (v : A) : result (list A) :=
  if decide (i < length l) then Ok (<[i := v]> l) else Raise IndexError.

End Py.

Import Py.

Notation "x <- m ;; k" := (bind m (λ x, k))
  (at level 100, m at next level, right associativity,
   format "'[v' x  <-  m  ;;  '/' k ']'").
Notation "m ;;; k" := (bind m (λ _ : unit, k))
  (at level 100, right associativity).

(** ** Arithmetic and dense arrays *)

Module Dense.

(** The operations the kernels use on array entries. *)
Class Arith (F : Type) := {
  fzero : F;
  fadd : F → F → F;
  fsub : F → F → F;
  fmul : F → F → F;
  fdiv : F → F → F;
  fopp : F → F;
  fgt0 : F → bool;   (* [x > 0.0] *)
}.

#[global] Instance Qc_arith : Arith Qc := {|
  fzero := 0%Qc;
  fadd := Qcplus;
  fsub := Qcminus;
  fmul := Qcmult;
  fdiv := Qcdiv;
  fopp := Qcopp;
  fgt0 := λ x, bool_decide (0 < x)%Qc;
|}.

#[global] Instance float_arith : Arith float := {|
  fzero := 0%float;
  fadd := PrimFloat.add;
  fsub := PrimFloat.sub;
  fmul := PrimFloat.mul;
  fdiv := PrimFloat.div;
  fopp := PrimFloat.opp;
  fgt0 := λ x, PrimFloat.ltb 0%float x;
|}.

(** A two-dimensional numpy array is the list of its rows; an (n,1) column
    is the list of its entries. *)
Abbreviation ndarray F := (list (list F)).

(** [np.zeros(n)] and [np.zeros((n, m))] *)
Definition zeros {F} `{Arith F} (n : nat) : list F := replicate n fzero.
Definition zeros2 {F} `{Arith F} (n m : nat) : ndarray F := replicate n (zeros m).

(** [M[i,j]] *)
Definition at2 {F} (M : ndarray F) (i j : nat) : result F :=
  row <- index M i ;; index row j.

(** [M[i,j] = v] *)
Definition set2 {F} (M : ndarray F) (i j : nat) (v : F) : result (ndarray F) :=
  row <- index M i ;;
  row' <- setitem row j v ;;
  setitem M i row'.

(** [np.sum(row)], accumulated from the left. *)
Definition fsum {F} `{Arith F} (l : list F) : F := foldl fadd fzero l.

Section Kernels.
Context {F : Type} `{Arith F}.

(** The per-anchor rate rule of [make_mcmc_quantities] (lines 1002 and
    1012-1019).  The body of the inner loop, on row [i] of
    [this_mmvt_Qij_alpha]:
<<
    if i == j: continue
    if this_mmvt_Ri_alpha[i,0] > 0.0:
        this_mmvt_Qij_alpha[i,j] = this_mmvt_Nij_alpha[i,j] / this_mmvt_Ri_alpha[i,0]
        this_mmvt_Qij_alpha[i,i] -= this_mmvt_Nij_alpha[i,j] / this_mmvt_Ri_alpha[i,0]
>> *)
Definition Qij_alpha_step (Nij : ndarray F) (Ri : list F) (i : nat)
    (row : list F) (j : nat) : result (list F) :=
  if decide (i = j) then Ok row else
  r <- index Ri i ;;
  if fgt0 r then
    nij <- at2 Nij i j ;;
    row1 <- setitem row j (fdiv nij r) ;;
    d <- index row1 i ;;
    setitem row1 i (fsub d (fdiv nij r))
  else Ok row.

(** Iteration [i] of the outer loop reads and writes row [i] only; the
    loop nest is the row-wise map of the inner loop on a row of zeros. *)
Definition Qij_alpha_row (n : nat) (Nij : ndarray F) (Ri : list F) (i : nat)
    : result (list F) :=
  foldlM (Qij_alpha_step Nij Ri i) (seq 0 n) (zeros n).

Definition Qij_alpha_rule (n : nat) (Nij : ndarray F) (Ri : list F)
    : result (ndarray F) :=
  mapM (Qij_alpha_row n Nij Ri) (seq 0 n).

(** [make_new_Nij_alpha] (lines 61-72). *)
Definition make_new_Nij_alpha_step (Qij : ndarray F) (Ri : list F) (i : nat)
    (row : list F) (j : nat) : result (list F) :=
  if decide (i = j) then Ok row else
  q <- at2 Qij i j ;;
  r <- index Ri i ;;
  setitem row j (fmul q r).

Definition make_new_Nij_alpha (mmvt_Qij_alpha : ndarray F)
    (mmvt_Ri_alpha : list F) : result (ndarray F) :=
  let n_milestones := length mmvt_Qij_alpha in
  mapM (λ i, foldlM (make_new_Nij_alpha_step mmvt_Qij_alpha mmvt_Ri_alpha i)
               (seq 0 n_milestones) (zeros n_milestones))
       (seq 0 n_milestones).

(** The rate matrix of [mmvt_Q_N_R] (lines 49-57) from the accumulated
    [mmvt_Nij] and [mmvt_Ri]: the off-diagonal loop on row [i], then
    [mmvt_Q[i,i] = -np.sum(mmvt_Q[i,:])]. *)
Definition mmvt_Q_step (mmvt_Nij : ndarray F) (mmvt_Ri : list F) (i : nat)
    (row : list F) (j : nat) : result (list F) :=
  if decide (i = j) then Ok row else
  r <- index mmvt_Ri i ;;
  if fgt0 r then
    nij <- at2 mmvt_Nij i j ;;
    setitem row j (fdiv nij r)
  else Ok row.

Definition mmvt_Q_row (n : nat) (mmvt_Nij : ndarray F) (mmvt_Ri : list F)
    (i : nat) : result (list F) :=
  row <- foldlM (mmvt_Q_step mmvt_Nij mmvt_Ri i) (seq 0 n) (zeros n) ;;
  setitem row i (fopp (fsum row)).

Definition mmvt_Q_of (n : nat) (mmvt_Nij : ndarray F) (mmvt_Ri : list F)
    : result (ndarray F) :=
  mapM (mmvt_Q_row n mmvt_Nij mmvt_Ri) (seq 0 n).

End Kernels.

(** *** Exact linear algebra on [Qc] *)

Local Open Scope Qc_scope.

(** A division numpy would answer with inf or nan leaves the exact model. *)
Definition qdiv (x y : Qc) : result Qc :=
  if decide (y = 0) then Raise NonFinite else Ok (x / y).

Definition qsum (l : list Qc) : Qc := foldl Qcplus 0 l.

Definition dot (u v : list Qc) : Qc := qsum (zip_with Qcmult u v).

(** [M.T] for an array of [m] columns *)
Definition transpose (m : nat) (M : ndarray Qc) : ndarray Qc :=
  map (λ j, map (λ row, default 0 (row !! j)) M) (seq 0 m).

(** [M @ v] *)
Definition matvec (M : ndarray Qc) (v : list Qc) : list Qc :=
  map (λ row, dot row v) M.

(** *** Numbers that are not finite

    An entry of an array in which numpy has divided by zero: a rational,
    an infinity or nan, with the arithmetic of IEEE 754 but for rounding
    and overflow.  A zero is kept without its sign; where the code divides,
    the sign of a zero divisor is given with the division. *)
Inductive xQc : Type :=
| Fin (q : Qc)
| PInf
| NInf
| NaN.

#[global] Instance xQc_eq_dec : EqDecision xQc.
Proof. solve_decision. Defined.

(** The infinity of a sign. *)
Definition inf_of (positive : bool) : xQc := if positive then PInf else NInf.

(** [-x] *)
Definition xopp (x : xQc) : xQc :=
  match x with
  | Fin q => Fin (- q)
  | PInf => NInf
  | NInf => PInf
  | NaN => NaN
  end.

(** [x + y]: inf + -inf is nan. *)
Definition xadd (x y : xQc) : xQc :=
  match x, y with
  | Fin a, Fin b => Fin (a + b)
  | NaN, _ => NaN
  | _, NaN => NaN
  | PInf, NInf => NaN
  | NInf, PInf => NaN
  | PInf, _ => PInf
  | _, PInf => PInf
  | NInf, _ => NInf
  | _, NInf => NInf
  end.

(** [x * y]: 0 * inf is nan. *)
Definition xmul (x y : xQc) : xQc :=
  match x, y with
  | Fin a, Fin b => Fin (a * b)
  | NaN, _ => NaN
  | _, NaN => NaN
  | Fin a, PInf => if decide (a = 0) then NaN else inf_of (bool_decide (0 < a))
  | PInf, Fin a => if decide (a = 0) then NaN else inf_of (bool_decide (0 < a))
  | Fin a, NInf => if decide (a = 0) then NaN else inf_of (bool_decide (a < 0))
  | NInf, Fin a => if decide (a = 0) then NaN else inf_of (bool_decide (a < 0))
  | PInf, PInf => PInf
  | NInf, NInf => PInf
  | PInf, NInf => NInf
  | NInf, PInf => NInf
  end.

(** [x / y], where a zero [y] is [-0.0] if [negative_zero] and [0.0]
    otherwise: 0/0 and inf/inf are nan, any other x/0 is an infinity, and
    a finite x over an infinity is 0. *)
Definition xdiv (negative_zero : bool) (x y : xQc) : xQc :=
  match y with
  | NaN => NaN
  | PInf | NInf =>
      match x with
      | Fin _ => Fin 0
      | _ => NaN
      end
  | Fin d =>
      if decide (d = 0) then
        match x with
        | Fin q =>
            if decide (q = 0) then NaN
            else inf_of (xorb (bool_decide (0 < q)) negative_zero)
        | PInf => inf_of (negb negative_zero)
        | NInf => inf_of negative_zero
        | NaN => NaN
        end
      else
        match x with
        | Fin q => Fin (q / d)
        | PInf => inf_of (bool_decide (0 < d))
        | NInf => inf_of (bool_decide (d < 0))
        | NaN => NaN
        end
  end.

(** [x >= 0.0]: false for nan. *)
Definition xge0 (x : xQc) : bool :=
  match x with
  | Fin q => bool_decide (0 ≤ q)
  | PInf => true
  | NInf => false
  | NaN => false
  end.

(** [np.sum(l)] *)
Definition xsum (l : list xQc) : xQc := foldl xadd (Fin 0) l.

Definition xdot (u v : list xQc) : xQc := xsum (zip_with xmul u v).

(** [M.T], [M @ v] and [A @ B] *)
Definition xtranspose (m : nat) (M : ndarray xQc) : ndarray xQc :=
  map (λ j, map (λ row, default (Fin 0) (row !! j)) M) (seq 0 m).

Definition xmatvec (M : ndarray xQc) (v : list xQc) : list xQc :=
  map (λ row, xdot row v) M.

Definition xmatmul (m : nat) (A B : ndarray xQc) : ndarray xQc :=
  map (λ row, xmatvec (xtranspose m B) row) A.

Definition xidentity (n : nat) : ndarray xQc :=
  map (λ i, map (λ j, if decide (i = j) then Fin 1 else Fin 0) (seq 0 n))
      (seq 0 n).

(** The loop of [np.linalg.matrix_power] on the binary digits of the
    exponent, the lowest first: [z] is squared at every digit and
    multiplied into [result] at every digit 1.
<<
    z = result = None
    while n > 0:
        z = a if z is None else fmatmul(z, z)
        n, bit = divmod(n, 2)
        if bit:
            result = z if result is None else fmatmul(result, z)
>> *)
Fixpoint matrix_power_loop (m : nat) (a : ndarray xQc)
    (z result : option (ndarray xQc)) (n : positive) : ndarray xQc :=
  let z := match z with None => a | Some z => xmatmul m z z end in
  let multiplied :=
    match result with None => z | Some result => xmatmul m result z end in
  match n with
  | xH => multiplied
  | xO n => matrix_power_loop m a (Some z) result n
  | xI n => matrix_power_loop m a (Some z) (Some multiplied) n
  end.

(** [np.linalg.matrix_power(a, n)] for a square [a] and [0 <= n]: the
    powers up to 3 are multiplied out, the others computed by squaring.
    Products of entries that are not finite do not associate, so the order
    is numpy's. *)
Definition matrix_power (a : ndarray xQc) (n : N) : ndarray xQc :=
  let m := length a in
  match n with
  | 0%N => xidentity m
  | 1%N => a
  | 2%N => xmatmul m a a
  | 3%N => xmatmul m (xmatmul m a a) a
  | Npos p => matrix_power_loop m a None None p
  end.

(** The entries of an array all of which are finite; an entry that is not
    leaves the exact model. *)
Definition finite (l : list xQc) : result (list Qc) :=
  mapM (λ x, match x with Fin q => Ok q | _ => Raise NonFinite end) l.

End Dense.

Import Dense.

(** ** The model: anchors and their milestones *)

Module Model.

Record Milestone := {
  milestone_index : Z;
  neighbor_anchor_index : nat;
  alias_index : Z;
}.

Record Anchor := {
  anchor_index : nat;
  bulkstate : bool;
  milestones : list Milestone;
}.

Record t := {
  anchors : list Anchor;
  num_anchors : nat;
  num_milestones : nat;
}.

(** The third dictionary of [_make_milestone_collection]: a later milestone
    towards the same neighbour overwrites an earlier one. *)
Definition neighbor_id_key_alias_value_dict (a : Anchor) : gmap nat Z :=
  foldl (λ d m, <[neighbor_anchor_index m := alias_index m]> d) ∅ (milestones a).

Definition alias_from_neighbor_id (a : Anchor) (neighbor_id : nat) : option Z :=
  neighbor_id_key_alias_value_dict a !! neighbor_id.

End Model.

(** ** The data sample *)

Module Sample.

Import Model.
Local Open Scope Qc_scope.

Definition FLUX_MATRIX_K_EXPONENT : N := 1000.

(** [flux_matrix_to_K] (lines 19-32).  [M] is the flux matrix of
    [calculate_pi_alpha], the one caller: a zero on its diagonal is the
    negated [column_sum] of line 878, a sum that started from [0.0], and so
    is [-0.0].  The division does not raise; a quotient that is nan or
    negative fails the assertion, [inf] passes it. *)
Definition K_entry (M : ndarray Qc) (i j : nat) : result xQc :=
  if decide (i = j) then Ok (Fin 0) else
  mij <- at2 M i j ;;
  mii <- at2 M i i ;;
  let v := xdiv true (Fin (- mij)) (Fin mii) in
  assert (xge0 v) "Negative values for K matrix not allowed." ;;;
  Ok v.

Definition flux_matrix_to_K (M : ndarray Qc) : result (ndarray xQc) :=
  match length M with
  | O => Raise ValueError
  | S n1 => mapM (λ i, mapM (K_entry M i) (seq 0 n1)) (seq 0 n1)
  end.

(** The statistics of [MMVT_data_sample] the analysis reads and writes.
    [k_alpha_beta], [N_ij] and [R_i] are [defaultdict]s: a missing key reads
    as zero. *)
Record MMVT_data_sample := {
  model : Model.t;
  N_alpha_beta : option (gmap (nat * nat) Qc);
  k_alpha_beta : option (gmap (nat * nat) Qc);
  N_i_j_alpha : option (list (gmap (Z * Z) Qc));
  R_i_alpha : option (list (gmap Z Qc));
  T_alpha : option (list Qc);
  pi_alpha : list Qc;
  N_ij : gmap (Z * Z) Qc;
  R_i : gmap Z Qc;
  T : Qc;
}.

(** [[p for a, p in zip(anchors, pi_alpha) if not a.bulkstate]] *)
Definition non_bulk_entries (m : Model.t) (pi_alpha : list Qc) : list Qc :=
  concat (zip_with (λ a p, if bulkstate a then [] else [p]) (anchors m) pi_alpha).

Definition getitem_default {K} `{Countable K} (d : gmap K Qc) (k : K) : Qc :=
  default 0 (d !! k).

Section PiAlpha.

(** [scipy.linalg.solve(A, b)] for a column [b]: the solution of
    [A x = b], or [LinAlgError]. *)
Variable solve : ndarray Qc → list Qc → result (list Qc).

(** The body of the loop over [beta] (lines 846-876). *)
Definition flux_beta_step (k : gmap (nat * nat) Qc) (anchors : list Anchor)
    (alpha : nat) (anchor1 : Anchor) (dead_end_anchor : bool)
    (st : ndarray Qc * list Qc) (beta : nat)
    : result (ndarray Qc * list Qc) :=
  let '(flux_matrix, column_sum) := st in
  anchor2 <- index anchors beta ;;
  if bulkstate anchor2 then
    flux_matrix <- set2 flux_matrix alpha beta 1 ;;
    match alias_from_neighbor_id anchor1 (anchor_index anchor2) with
    | None =>
        flux_matrix <- set2 flux_matrix beta alpha 0 ;;
        Ok (flux_matrix, column_sum)
    | Some _ =>
        flux_matrix <- set2 flux_matrix beta alpha (Qc_of_Z (10 ^ 30)) ;;
        Ok (flux_matrix, column_sum)
    end
  else if decide (alpha = beta) then Ok st
  else
    match alias_from_neighbor_id anchor1 (anchor_index anchor2) with
    | None =>
        flux_matrix <- set2 flux_matrix alpha beta 0 ;;
        Ok (flux_matrix, column_sum)
    | Some _ =>
        let kab := getitem_default k (alpha, beta) in
        flux_matrix <- set2 flux_matrix alpha beta
                         (if dead_end_anchor then 1 * kab else kab) ;;
        v <- at2 flux_matrix alpha beta ;;
        c <- index column_sum alpha ;;
        column_sum <- setitem column_sum alpha (c + v) ;;
        Ok (flux_matrix, column_sum)
    end.

(** The body of the loop over [alpha] (lines 834-878). *)
Definition flux_alpha_step (k : gmap (nat * nat) Qc) (anchors : list Anchor)
    (n : nat) (st : ndarray Qc * list Qc * option nat) (alpha : nat)
    : result (ndarray Qc * list Qc * option nat) :=
  let '(flux_matrix, column_sum, bulk_index) := st in
  anchor1 <- index anchors alpha ;;
  if bulkstate anchor1 then
    assert (bool_decide (bulk_index = None))
      "Only one bulk state is allowed in model" ;;;
    flux_matrix <- set2 flux_matrix alpha alpha 1 ;;
    Ok (flux_matrix, column_sum, Some alpha)
  else
    let dead_end_anchor := bool_decide (length (milestones anchor1) = 1%nat) in
    st <- foldlM (flux_beta_step k anchors alpha anchor1 dead_end_anchor)
                 (seq 0 n) (flux_matrix, column_sum) ;;
    let '(flux_matrix, column_sum) := st in
    c <- index column_sum alpha ;;
    flux_matrix <- set2 flux_matrix alpha alpha (- c) ;;
    Ok (flux_matrix, column_sum, bulk_index).

Definition build_flux_matrix (m : Model.t) (k : gmap (nat * nat) Qc)
    : result (ndarray Qc * nat) :=
  let n := num_anchors m in
  st <- foldlM (flux_alpha_step k (anchors m) n) (seq 0 n)
               (zeros2 n n, zeros n, None) ;;
  let '(flux_matrix, _, bulk_index) := st in
  match bulk_index with
  | None => Raise (AssertionError
              "A bulk state has not been defined, but is required.")
  | Some b => Ok (flux_matrix, b)
  end.

(** The refinement and normalisation (lines 886-898), on the flux matrix
    and the first-pass solution [pi_alpha].  Neither division raises.  A
    zero [flux_matrix[i,i]] is [-0.0], as in [flux_matrix_to_K]; a zero
    [np.sum(self.pi_alpha)] is [0.0], the last entry summed being the
    [0.0] of line 897. *)
Definition refine_pi_alpha (n : nat) (flux_matrix : ndarray Qc)
    (pi_alpha : list Qc) : result (list xQc) :=
  pi_alpha_slice <-
    mapM (λ i, p <- index pi_alpha i ;; f <- at2 flux_matrix i i ;;
               Ok (Fin (- p * f))) (seq 0 (n - 1)) ;;
  K <- flux_matrix_to_K flux_matrix ;;
  let K_inf := matrix_power K FLUX_MATRIX_K_EXPONENT in
  let stationary_dist := xmatvec (xtranspose (n - 1) K_inf) pi_alpha_slice in
  pi_alpha <-
    foldlM (λ pi_alpha i,
              s <- index stationary_dist i ;;
              f <- at2 flux_matrix i i ;;
              setitem pi_alpha i (xdiv true (xopp s) (Fin f)))
           (seq 0 (n - 1)) (map Fin pi_alpha) ;;
  pi_alpha <- setitem pi_alpha (length pi_alpha - 1) (Fin 0) ;;
  Ok (map (λ p, xdiv false p (xsum pi_alpha)) pi_alpha).

(** [MMVT_data_sample.calculate_pi_alpha] (lines 819-899): the new value
    of [self.pi_alpha].  The solver returns finite numbers or raises. *)
Definition calculate_pi_alpha (self : MMVT_data_sample) : result (list xQc) :=
  match k_alpha_beta self with
  | None => Raise (Exception
      "Unable to call calculate_pi_alpha(): No statistics present in Data Sample.")
  | Some k =>
      let flux_matrix_dimension := num_anchors (model self) in
      fb <- build_flux_matrix (model self) k ;;
      let '(flux_matrix, bulk_index) := fb in
      prob_equil <- setitem (zeros flux_matrix_dimension) bulk_index 1 ;;
      x <- solve (transpose flux_matrix_dimension flux_matrix) prob_equil ;;
      refine_pi_alpha flux_matrix_dimension flux_matrix (map Qcabs.Qcabs x)
  end.

End PiAlpha.

(** [enumerate(l)] *)
Fixpoint enumerate_from {A} (a : nat) (l : list A) : list (nat * A) :=
  match l with
  | [] => []
  | x :: l => (a, x) :: enumerate_from (S a) l
  end.
Definition enumerate {A} (l : list A) : list (nat * A) := enumerate_from 0 l.

(** [[alpha for alpha, anchor in enumerate(anchors) if not anchor.bulkstate]] *)
Fixpoint non_bulk_from (a : nat) (l : list Anchor) : list nat :=
  match l with
  | [] => []
  | x :: l =>
      if bulkstate x then non_bulk_from (S a) l else a :: non_bulk_from (S a) l
  end.
Definition non_bulk_indices (m : Model.t) : list nat := non_bulk_from 0 (anchors m).

(** [pi_alpha[alpha] / T_alpha[alpha]] *)
Definition anchor_weight (pi_alpha T_alpha : list Qc) (alpha : nat) : Qc :=
  default 0 (pi_alpha !! alpha) / default 0 (T_alpha !! alpha).

(** One turn of [for key in d: ... acc[key] += time_fraction *
    this_anchor_pi_alpha * d[key]] with its three assertions (lines 935-945
    and 949-960); [acc] is a [defaultdict]. *)
Definition accumulate_key {K} `{Countable K} (time_fraction this_anchor_pi_alpha : Qc)
    (msg : string) (key : K) (v : Qc) (acc : result (gmap K Qc))
    : result (gmap K Qc) :=
  acc <- acc ;;
  assert (bool_decide (0 < time_fraction)) "time_fraction should be positive" ;;;
  assert (bool_decide (0 ≤ this_anchor_pi_alpha))
    "this_anchor_pi_alpha should be positive" ;;;
  assert (bool_decide (0 < v)) msg ;;;
  Ok (<[key := getitem_default acc key + time_fraction * this_anchor_pi_alpha * v]> acc).

Definition accumulate {K} `{Countable K} (time_fraction this_anchor_pi_alpha : Qc)
    (msg : string) (d : gmap K Qc) (acc : gmap K Qc) : result (gmap K Qc) :=
  map_fold (accumulate_key time_fraction this_anchor_pi_alpha msg) (Ok acc) d.

(** The first loop of [fill_out_data_quantities] (lines 916-921). *)
Definition sum_pi_alpha_over_T_alpha_step (pi_alpha T_alpha : list Qc)
    (acc : Qc) (p : nat * Anchor) : result Qc :=
  let '(alpha, anchor) := p in
  if bulkstate anchor then Ok acc
  else
    this_anchor_pi_alpha <- index pi_alpha alpha ;;
    T_a <- index T_alpha alpha ;;
    q <- qdiv this_anchor_pi_alpha T_a ;;
    Ok (acc + q).

(** The second loop (lines 925-963), on [(N_ij, R_i)]. *)
Definition fill_out_step (pi_alpha T_alpha : list Qc)
    (N_i_j_alpha : list (gmap (Z * Z) Qc)) (R_i_alpha : list (gmap Z Qc))
    (T : Qc) (acc : gmap (Z * Z) Qc * gmap Z Qc) (p : nat * Anchor)
    : result (gmap (Z * Z) Qc * gmap Z Qc) :=
  let '(alpha, anchor) := p in
  if bulkstate anchor then Ok acc
  else
    this_anchor_pi_alpha <- index pi_alpha alpha ;;
    T_a <- index T_alpha alpha ;;
    assert (bool_decide (0 ≤ T_a)) "T_alpha should be positive" ;;;
    time_fraction <- qdiv T T_a ;;
    N_a <- index N_i_j_alpha alpha ;;
    N_ij <- accumulate time_fraction this_anchor_pi_alpha
              "N_i_j_alpha[key] should be positive" N_a acc.1 ;;
    R_a <- index R_i_alpha alpha ;;
    if decide (size R_a = 0%nat) then
      Raise (Exception "R_i_alpha should always be set.")
    else
      R_i <- accumulate time_fraction this_anchor_pi_alpha
               "R_i_alpha[key] should be positive" R_a acc.2 ;;
      Ok (N_ij, R_i).

(** [MMVT_data_sample.fill_out_data_quantities] (lines 901-965) *)
Definition fill_out_data_quantities (self : MMVT_data_sample)
    : result MMVT_data_sample :=
  match N_alpha_beta self, k_alpha_beta self, N_i_j_alpha self,
        R_i_alpha self, T_alpha self with
  | Some _, Some _, Some N_i_j_alpha, Some R_i_alpha, Some T_alpha =>
      let anchors := enumerate (anchors (model self)) in
      sum_pi_alpha_over_T_alpha <-
        foldlM (sum_pi_alpha_over_T_alpha_step (pi_alpha self) T_alpha) anchors 0 ;;
      T <- qdiv 1 sum_pi_alpha_over_T_alpha ;;
      assert (bool_decide (0 ≤ T)) "self.T should be positive" ;;;
      NR <- foldlM (fill_out_step (pi_alpha self) T_alpha N_i_j_alpha R_i_alpha T)
                   anchors (∅, ∅) ;;
      Ok {| model := model self;
            N_alpha_beta := N_alpha_beta self;
            k_alpha_beta := k_alpha_beta self;
            N_i_j_alpha := Some N_i_j_alpha;
            R_i_alpha := Some R_i_alpha;
            T_alpha := Some T_alpha;
            pi_alpha := pi_alpha self;
            N_ij := NR.1;
            R_i := NR.2;
            T := T |}
  | _, _, _, _, _ =>
      Raise (Exception
        "Unable to call fill_out_data_quantities(): No statistics present in Data Sample.")
  end.

(** The accumulation of [mmvt_Q_N_R] (lines 39-47), on
    [(mmvt_Nij, mmvt_Ri)]. *)
Definition mmvt_N_R_cell (N_i_j_alpha : list (ndarray Qc))
    (T_alpha_total : list Qc) (T : Qc) (pi_alpha : list Qc) (alpha i : nat)
    (mmvt_Nij : ndarray Qc) (j : nat) : result (ndarray Qc) :=
  p <- index pi_alpha alpha ;;
  N_a <- index N_i_j_alpha alpha ;;
  nij <- at2 N_a i j ;;
  T_a <- index T_alpha_total alpha ;;
  v <- qdiv (T * p * nij) T_a ;;
  old <- at2 mmvt_Nij i j ;;
  set2 mmvt_Nij i j (old + v).

Definition mmvt_N_R_row (n_milestones : nat) (N_i_j_alpha : list (ndarray Qc))
    (R_i_alpha_total : list (list Qc)) (T_alpha_total : list Qc) (T : Qc)
    (pi_alpha : list Qc) (alpha : nat) (st : ndarray Qc * list Qc) (i : nat)
    : result (ndarray Qc * list Qc) :=
  mmvt_Nij <- foldlM (mmvt_N_R_cell N_i_j_alpha T_alpha_total T pi_alpha alpha i)
                     (seq 0 n_milestones) st.1 ;;
  p <- index pi_alpha alpha ;;
  R_a <- index R_i_alpha_total alpha ;;
  ri <- index R_a i ;;
  T_a <- index T_alpha_total alpha ;;
  v <- qdiv (T * p * ri) T_a ;;
  old <- index st.2 i ;;
  mmvt_Ri <- setitem st.2 i (old + v) ;;
  Ok (mmvt_Nij, mmvt_Ri).

(** [mmvt_Q_N_R] (lines 34-59) *)
Definition mmvt_Q_N_R (n_milestones n_anchors : nat)
    (N_i_j_alpha : list (ndarray Qc)) (R_i_alpha_total : list (list Qc))
    (T_alpha_total : list Qc) (T : Qc) (pi_alpha : list Qc)
    : result (ndarray Qc * list Qc * ndarray Qc) :=
  st <- foldlM (λ st alpha,
                  foldlM (mmvt_N_R_row n_milestones N_i_j_alpha R_i_alpha_total
                            T_alpha_total T pi_alpha alpha)
                         (seq 0 n_milestones) st)
               (seq 0 n_anchors) (zeros2 n_milestones n_milestones, zeros n_milestones) ;;
  mmvt_Q <- mmvt_Q_of n_milestones st.1 st.2 ;;
  Ok (st.1, st.2, mmvt_Q).

(** The dense per-anchor statistics of [make_mcmc_quantities]
    (lines 1000-1010). *)
Definition dense_Nij_alpha (n_milestones : nat) (N_a : gmap (Z * Z) Qc) : ndarray Qc :=
  map (λ i, map (λ j, getitem_default N_a (Z.of_nat i, Z.of_nat j))
                (seq 0 n_milestones)) (seq 0 n_milestones).

Definition dense_Ri_alpha (n_milestones : nat) (R_a : gmap Z Qc) : list Qc :=
  map (λ i, getitem_default R_a (Z.of_nat i)) (seq 0 n_milestones).

(** The second loop of [make_mcmc_quantities] (lines 992-1025), on
    [(invT, mmvt_Nij_alpha, mmvt_Ri_alpha, mmvt_Qij_alpha)]. *)
Definition mcmc_anchor_step (self : MMVT_data_sample)
    (N_i_j_alpha : list (gmap (Z * Z) Qc)) (R_i_alpha : list (gmap Z Qc))
    (T_alpha : list Qc)
    (st : Qc * list (ndarray Qc) * list (list Qc) * list (ndarray Qc))
    (alpha : nat)
    : result (Qc * list (ndarray Qc) * list (list Qc) * list (ndarray Qc)) :=
  let '(invT, mmvt_Nij_alpha, mmvt_Ri_alpha, mmvt_Qij_alpha) := st in
  let n_milestones := num_milestones (model self) in
  anchor <- index (anchors (model self)) alpha ;;
  if bulkstate anchor then Ok st
  else
    p <- index (pi_alpha self) alpha ;;
    T_a <- index T_alpha alpha ;;
    q <- qdiv p T_a ;;
    N_a <- index N_i_j_alpha alpha ;;
    R_a <- index R_i_alpha alpha ;;
    let this_mmvt_Nij_alpha := dense_Nij_alpha n_milestones N_a in
    let this_mmvt_Ri_alpha := dense_Ri_alpha n_milestones R_a in
    this_mmvt_Qij_alpha <-
      Qij_alpha_rule n_milestones this_mmvt_Nij_alpha this_mmvt_Ri_alpha ;;
    Ok (invT + q, mmvt_Nij_alpha ++ [this_mmvt_Nij_alpha],
        mmvt_Ri_alpha ++ [this_mmvt_Ri_alpha],
        mmvt_Qij_alpha ++ [this_mmvt_Qij_alpha]).

(** The first loop of [make_mcmc_quantities] (lines 977-990): row [alpha]
    of [k_alpha_beta_matrix] and of [N_alpha_beta_matrix], and
    [T_alpha_matrix[alpha,0]]. *)
Definition mcmc_k_step (k N : gmap (nat * nat) Qc) (alpha : nat)
    (rows : list Qc * list Qc) (beta : nat) : result (list Qc * list Qc) :=
  if decide (alpha = beta) then Ok rows
  else
    match k !! (alpha, beta) with
    | None => Ok rows
    | Some kab =>
        krow <- setitem rows.1 beta kab ;;
        d <- index krow alpha ;;
        krow <- setitem krow alpha (d - kab) ;;
        nab <- match N !! (alpha, beta) with
               | Some nab => Ok nab
               | None => Raise KeyError
               end ;;
        nrow <- setitem rows.2 beta nab ;;
        Ok (krow, nrow)
    end.

Definition mcmc_k_row (self : MMVT_data_sample) (k N : gmap (nat * nat) Qc)
    (T_alpha : list Qc) (alpha : nat) : result (list Qc * list Qc * Qc) :=
  let n_anchors := num_anchors (model self) in
  anchor <- index (anchors (model self)) alpha ;;
  if bulkstate anchor then Ok (zeros n_anchors, zeros n_anchors, 0)
  else
    rows <- foldlM (mcmc_k_step k N alpha) (seq 0 n_anchors)
                   (zeros n_anchors, zeros n_anchors) ;;
    T_a <- index T_alpha alpha ;;
    Ok (rows, T_a).

(** What [make_mcmc_quantities] returns. *)
Record mcmc_quantities := {
  k_alpha_beta_matrix : ndarray Qc;
  N_alpha_beta_matrix : ndarray Qc;
  T_alpha_matrix : list Qc;
  mmvt_Nij_alpha : list (ndarray Qc);
  mmvt_Ri_alpha : list (list Qc);
  mmvt_Qij_alpha : list (ndarray Qc);
  mcmc_T : Qc;
}.

(** [MMVT_data_sample.make_mcmc_quantities] (lines 967-1027) *)
Definition make_mcmc_quantities (self : MMVT_data_sample)
    : result mcmc_quantities :=
  match N_alpha_beta self, k_alpha_beta self, N_i_j_alpha self,
        R_i_alpha self, T_alpha self with
  | Some N, Some k, Some N_i_j_alpha, Some R_i_alpha, Some T_alpha =>
      rows <- mapM (mcmc_k_row self k N T_alpha)
                   (seq 0 (num_anchors (model self))) ;;
      st <- foldlM (mcmc_anchor_step self N_i_j_alpha R_i_alpha T_alpha)
                   (seq 0 (num_anchors (model self))) (0, [], [], []) ;;
      let '(invT, Nij_alpha, Ri_alpha, Qij_alpha) := st in
      T <- qdiv 1 invT ;;
      Ok {| k_alpha_beta_matrix := map (λ r, r.1.1) rows;
            N_alpha_beta_matrix := map (λ r, r.1.2) rows;
            T_alpha_matrix := map (λ r, r.2) rows;
            mmvt_Nij_alpha := Nij_alpha;
            mmvt_Ri_alpha := Ri_alpha;
            mmvt_Qij_alpha := Qij_alpha;
            mcmc_T := T |}
  | _, _, _, _, _ => Raise TypeError
  end.

End Sample.

(** ** A solver for the exact model

    [scipy.linalg.solve] is outside the repository.  Where a closed example
    needs its value, the solution is computed by Gauss-Jordan elimination
    over [Qc]: for a non-singular system it is the one solution there is. *)

Module Scipy.

Local Open Scope Qc_scope.

Definition axpy (a : Qc) (x y : list Qc) : list Qc :=
  zip_with (λ xi yi, yi - a * xi) x y.

(** Clear column [c] of the augmented rows with the first usable pivot. *)
Definition eliminate_column (rows : ndarray Qc) (c : nat) : result (ndarray Qc) :=
  match list_find (λ row, default 0 (row !! c) ≠ 0) (drop c rows) with
  | None => Raise LinAlgError
  | Some (p, prow) =>
      crow <- index rows c ;;
      let piv := default 0 (prow !! c) in
      let prow' := map (λ x, x / piv) prow in
      let rows1 := <[c := prow']> (<[(c + p)%nat := crow]> rows) in
      Ok (imap (λ i row, if decide (i = c) then row
                         else axpy (default 0 (row !! c)) prow' row) rows1)
  end.

Definition solve (A : ndarray Qc) (b : list Qc) : result (list Qc) :=
  rows <- foldlM eliminate_column (seq 0 (length A))
                 (zip_with (λ row bi, row ++ [bi]) A b) ;;
  Ok (map (λ row, default 0 (last row)) rows).

End Scipy.

(** ** The OpenMM event-log reader

    A log line is [boundary,bounce index,time].  The reader keeps each line
    as the list of its fields and converts them with [int] and [float]
    where it needs them; here a file is the list of its records, comment
    and blank lines dropped, together with what the reader takes from its
    name: the swarm index of a [*swarm*] file.  Times are exact rationals:
    on finite floats the comparisons and the signs of differences, which
    are all the control flow reads, are the same. *)

Module Reader.

Local Open Scope Qc_scope.

Record event := {
  dest_boundary : Z;
  bounce_index : Z;
  dest_time : Qc;
}.

Inductive line :=
| NEW_SWARM
| Record_line (e : event).

#[global] Instance event_eq_dec : EqDecision event.
Proof. solve_decision. Defined.
#[global] Instance line_eq_dec : EqDecision line.
Proof. solve_decision. Defined.

Record output_file := {
  swarm : option Z;
  records : list event;
}.

Definition MAX_ITER : Z := 1000000000.
(** [1e99] *)
Definition FAR_FUTURE : Qc := Qc_of_Z (10 ^ 99).

(** One turn of the loop over [output_file_list] (lines 88-119), on
    [(swarm_index, files_lines, start_times)]. *)
Definition read_file (st : Z * list (list line) * list Qc) (f : output_file)
    : Z * list (list line) * list Qc :=
  let '(swarm_index, files_lines, start_times) := st in
  let '(swarm_index, file_lines) :=
    match swarm f with
    | Some k => (k, if decide (k ≠ swarm_index) then [NEW_SWARM] else [])
    | None => (swarm_index, [])
    end in
  let file_lines := file_lines ++ map Record_line (records f) in
  let start_time := dest_time <$> head (records f) in
  if decide (file_lines = []) then (swarm_index, files_lines, start_times)
  else (swarm_index, files_lines ++ [file_lines],
        start_times ++ [default 0 start_time]).

Definition read_files (output_file_list : list output_file)
    : list (list line) * list Qc :=
  let '(_, files_lines, start_times) :=
    foldl read_file (0%Z, [], []) output_file_list in
  (files_lines, start_times).

(** Lines 127-135. *)
Definition next_start_time (files_lines : list (list line))
    (start_times : list Qc) (i : nat) : result Qc :=
  if decide (S i < length files_lines)%nat then
    nxt <- index files_lines (S i) ;;
    first <- index nxt 0 ;;
    if decide (first = NEW_SWARM) then Ok FAR_FUTURE
    else index start_times (S i)
  else Ok FAR_FUTURE.

(** The [while] loop of lines 144-152 on the lines of one file, last line
    first: [file_lines.pop()] removes the head. *)
Fixpoint pop_trailing (rev_lines : list line) (next_start : Qc) (counter : Z)
    : result (list line) :=
  match rev_lines with
  | [] => Raise IndexError
  | NEW_SWARM :: _ => Raise ValueError
  | Record_line e :: rest =>
      if decide (next_start < dest_time e) then
        match rest with
        | [] => Raise IndexError
        | NEW_SWARM :: rest' =>
            if decide ((MAX_ITER < counter)%Z ∨ rest' = []) then Ok rest'
            else pop_trailing rest' next_start (counter + 1)
        | Record_line _ :: _ =>
            if decide (MAX_ITER < counter)%Z then Ok rest
            else pop_trailing rest next_start (counter + 1)
        end
      else Ok rev_lines
  end.

(** Lines 136-152: what is left of [file_lines]. *)
Definition trim_file (file_lines : list line) (next_start : Qc)
    : result (list line) :=
  let file_lines :=
    if decide (last file_lines = Some NEW_SWARM) then removelast file_lines
    else file_lines in
  if decide (file_lines = []) then Ok []
  else
    kept <- pop_trailing (reverse file_lines) next_start 0 ;;
    Ok (reverse kept).

(** Lines 121-154. *)
Definition merge_step (skip_restart_check : bool)
    (files_lines : list (list line)) (start_times : list Qc)
    (lines : list line) (i : nat) : result (list line) :=
  file_lines <- index files_lines i ;;
  if negb skip_restart_check && negb (bool_decide (file_lines = [])) then
    nst <- next_start_time files_lines start_times i ;;
    file_lines <- trim_file file_lines nst ;;
    Ok (lines ++ file_lines)
  else Ok (lines ++ file_lines).

Definition merge_files (skip_restart_check : bool)
    (output_file_list : list output_file) : result (list line) :=
  let '(files_lines, start_times) := read_files output_file_list in
  foldlM (merge_step skip_restart_check files_lines start_times)
         (seq 0 (length files_lines)) [].

(** The running state of the loop over [lines] (lines 163-226);
    [src_boundary] and [src_time] are set and reset together. *)
Record scan := {
  N_i_j_alpha : gmap (Z * Z) Z;
  R_i_alpha_list : gmap (option Z) (list Qc);
  N_alpha_beta : gmap Z Z;
  T_alpha_list : list Qc;
  last_bounce_time : Qc;
  src : option (Z * Qc);
}.

Definition scan0 : scan :=
  {| N_i_j_alpha := ∅; R_i_alpha_list := ∅; N_alpha_beta := ∅;
     T_alpha_list := []; last_bounce_time := - 1; src := None |}.

Definition incubation_msg : string :=
  "incubation times cannot be negative. Has an output file been concatenated incorrectly?".
Definition bounce_msg : string :=
  "times between bounces cannot be negative.".

(** Lines 202-212. *)
Definition transition (skip_restart_check : bool) (st : scan) (e : event)
    (src_boundary : Z) (src_time : Qc) : result scan :=
  if decide (src_boundary ≠ dest_boundary e) then
    let time_diff := dest_time e - src_time in
    (if skip_restart_check then Ok tt
     else assert (bool_decide (0 ≤ time_diff)) incubation_msg) ;;;
    let key := (src_boundary, dest_boundary e) in
    Ok {| N_i_j_alpha :=
            <[key := (default 0 (N_i_j_alpha st !! key) + 1)%Z]> (N_i_j_alpha st);
          R_i_alpha_list :=
            <[Some src_boundary :=
                default [] (R_i_alpha_list st !! Some src_boundary) ++ [time_diff]]>
              (R_i_alpha_list st);
          N_alpha_beta := N_alpha_beta st;
          T_alpha_list := T_alpha_list st;
          last_bounce_time := last_bounce_time st;
          src := Some (dest_boundary e, dest_time e) |}
  else Ok st.

(** Lines 214-226. *)
Definition bounce (st : scan) (e : event) : result scan :=
  let beta := dest_boundary e in
  let N_alpha_beta' :=
    <[beta := (default 0 (N_alpha_beta st !! beta) + 1)%Z]> (N_alpha_beta st) in
  assert (bool_decide (0 ≤ dest_time e - last_bounce_time st)) bounce_msg ;;;
  Ok {| N_i_j_alpha := N_i_j_alpha st;
        R_i_alpha_list := R_i_alpha_list st;
        N_alpha_beta := N_alpha_beta';
        T_alpha_list := T_alpha_list st ++ [dest_time e - last_bounce_time st];
        last_bounce_time := dest_time e;
        src := src st |}.

(** [min_time is not None and dest_time < min_time], and its mirror. *)
Definition too_early (min_time : option Qc) (t : Qc) : bool :=
  match min_time with Some m => bool_decide (t < m) | None => false end.
Definition too_late (max_time : option Qc) (t : Qc) : bool :=
  match max_time with Some m => bool_decide (m < t) | None => false end.

(** One turn of the loop; the flag says [break]. *)
Definition scan_line (skip_restart_check : bool) (min_time max_time : option Qc)
    (st : scan) (l : line) : result (scan * bool) :=
  match l with
  | NEW_SWARM =>
      Ok ({| N_i_j_alpha := N_i_j_alpha st;
             R_i_alpha_list := R_i_alpha_list st;
             N_alpha_beta := N_alpha_beta st;
             T_alpha_list := T_alpha_list st;
             last_bounce_time := - 1;
             src := None |}, false)
  | Record_line e =>
      if too_early min_time (dest_time e) then Ok (st, false)
      else if too_late max_time (dest_time e) then Ok (st, true)
      else
        match src st with
        | None =>
            Ok ({| N_i_j_alpha := N_i_j_alpha st;
                   R_i_alpha_list := R_i_alpha_list st;
                   N_alpha_beta := N_alpha_beta st;
                   T_alpha_list := T_alpha_list st;
                   last_bounce_time := dest_time e;
                   src := Some (dest_boundary e, dest_time e) |}, false)
        | Some (src_boundary, src_time) =>
            st <- transition skip_restart_check st e src_boundary src_time ;;
            st <- bounce st e ;;
            Ok (st, false)
        end
  end.

Fixpoint scan_lines (skip_restart_check : bool) (min_time max_time : option Qc)
    (lines : list line) (st : scan) : result (scan * bool) :=
  match lines with
  | [] => Ok (st, false)
  | l :: lines =>
      r <- scan_line skip_restart_check min_time max_time st l ;;
      if r.2 then Ok r
      else scan_lines skip_restart_check min_time max_time lines r.1
  end.

(** What the reader returns.  The averages and standard deviations
    ([np.mean], [np.std]) are left out. *)
Record statistics := {
  st_N_i_j_alpha : gmap (Z * Z) Z;
  st_R_i_alpha_list : gmap (option Z) (list Qc);
  st_R_i_alpha_total : gmap (option Z) Qc;
  st_N_alpha_beta : gmap Z Z;
  st_T_alpha_list : list Qc;
  st_T_alpha_total : Qc;
  st_lines : list line;
}.

(** Lines 228-249. *)
Definition summarize (st : scan) (lines : list line) : statistics :=
  let R_i_alpha_total := qsum <$> R_i_alpha_list st in
  let T_alpha_total := qsum (T_alpha_list st) in
  let src_boundary := fst <$> src st in
  let fallback := bool_decide (size (R_i_alpha_list st) = 0%nat) in
  {| st_N_i_j_alpha := N_i_j_alpha st;
     st_R_i_alpha_list :=
       if fallback then <[src_boundary := T_alpha_list st]> (R_i_alpha_list st)
       else R_i_alpha_list st;
     st_R_i_alpha_total :=
       if fallback then <[src_boundary := T_alpha_total]> R_i_alpha_total
       else R_i_alpha_total;
     st_N_alpha_beta := N_alpha_beta st;
     st_T_alpha_list := T_alpha_list st;
     st_T_alpha_total := T_alpha_total;
     st_lines := lines |}.

(** Lines 84-157: the files are read when no lines are handed in. *)
Definition reader_lines (output_file_list : list output_file)
    (existing_lines : option (list line)) (skip_restart_check : bool)
    : result (list line) :=
  match existing_lines with
  | None => merge_files skip_restart_check output_file_list
  | Some lines => Ok lines
  end.

(** [openmm_read_output_file_list] (lines 74-249) *)
Definition openmm_read_output_file_list (output_file_list : list output_file)
    (min_time max_time : option Qc) (existing_lines : option (list line))
    (skip_restart_check : bool) : result statistics :=
  lines <- reader_lines output_file_list existing_lines skip_restart_check ;;
  r <- scan_lines skip_restart_check min_time max_time lines scan0 ;;
  Ok (summarize r.1 lines).

(** *** What the restart check leaves

    The vocabulary of the statements about [merge_files]: the files that
    hold a record, the first time of a file, and what it means that a file
    lost exactly its trailing records later than a given time. *)

Definition start_time_of (f : output_file) : Qc :=
  default 0 (dest_time <$> head (records f)).

Definition non_empty_files (l : list output_file) : list output_file :=
  filter (λ f, records f ≠ []) l.

(** The first time of the next file, [1e99] after the last file. *)
Definition next_start_of (later : list output_file) : Qc :=
  match later with
  | f :: _ => start_time_of f
  | [] => FAR_FUTURE
  end.

(** [kept] is [evs] without its trailing records later than [next]: the
    last record kept is not later than [next], every record dropped is. *)
Definition trimmed_at (next : Qc) (evs kept : list event) : Prop :=
  ∃ k e dropped,
    evs = k ++ e :: dropped ∧ kept = k ++ [e] ∧
    Forall (λ d, next < dest_time d) dropped ∧ dest_time e ≤ next.

Inductive restart_trimmed : list output_file → list (list event) → Prop :=
| restart_trimmed_nil : restart_trimmed [] []
| restart_trimmed_cons f later kept kepts :
    trimmed_at (next_start_of later) (records f) kept →
    restart_trimmed later kepts →
    restart_trimmed (f :: later) (kept :: kepts).

Definition nondecreasing (l : list event) : Prop :=
  StronglySorted (λ a b, dest_time a ≤ dest_time b) l.

(** The source time never runs ahead of the last bounce time. *)
Definition src_behind (st : scan) : Prop :=
  ∀ b t0, src st = Some (b, t0) → t0 ≤ last_bounce_time st.

(** *** What the loop over the lines counts

    The lines the loop does not pass over: a record before [min_time] is
    skipped ([continue]), the first record after [max_time] ends the loop
    ([break]). *)
Fixpoint in_window (min_time max_time : option Qc) (lines : list line)
    : list line :=
  match lines with
  | [] => []
  | NEW_SWARM :: lines => NEW_SWARM :: in_window min_time max_time lines
  | Record_line e :: lines =>
      if too_early min_time (dest_time e) then in_window min_time max_time lines
      else if too_late max_time (dest_time e) then []
      else Record_line e :: in_window min_time max_time lines
  end.

Definition events_of (lines : list line) : list event :=
  omap (λ l, match l with Record_line e => Some e | NEW_SWARM => None end) lines.

(** [sum(d.values())] for a dictionary of counts. *)
Definition total {K} `{Countable K} (d : gmap K Z) : Z :=
  map_fold (λ _ v acc, (v + acc)%Z) 0%Z d.

(** The statistics of a read, without the lines it hands back. *)
Definition counts (s : statistics) :=
  (st_N_i_j_alpha s, st_R_i_alpha_list s, st_R_i_alpha_total s,
   st_N_alpha_beta s, st_T_alpha_list s, st_T_alpha_total s).

(** A file ends before the next file that holds a record starts, the last
    one before [1e99]. *)
Fixpoint in_order (files : list output_file) : Prop :=
  match files with
  | [] => True
  | f :: later =>
      (∀ e, last (records f) = Some e →
            dest_time e ≤ next_start_of (non_empty_files later)) ∧
      in_order later
  end.

End Reader.

(** ** Per-anchor statistics *)

Module Anchor_statistics.

Import Reader.
Local Open Scope Qc_scope.

(** A rate [N / T_alpha_total]; numpy answers a zero total time with
    inf or nan and goes on. *)
Inductive rate :=
| Finite (q : Qc)
| Over_zero (n : Z).

Definition rate_of (n : Z) (T_alpha_total : Qc) : rate :=
  if decide (T_alpha_total = 0) then Over_zero n
  else Finite (Qc_of_Z n / T_alpha_total).

Record MMVT_anchor_statistics := {
  N_i_j_alpha : option (gmap (Z * Z) Z);
  R_i_alpha_list : option (gmap (option Z) (list Qc));
  R_i_alpha_total : option (gmap (option Z) Qc);
  T_alpha_list : list Qc;
  T_alpha_total : option Qc;
  N_alpha_beta : option (gmap Z Z);
  k_alpha_beta : gmap Z rate;
  alpha : nat;
  existing_lines : option (list line);
}.

(** [MMVT_anchor_statistics.__init__] *)
Definition init (alpha : nat) : MMVT_anchor_statistics :=
  {| N_i_j_alpha := None; R_i_alpha_list := None; R_i_alpha_total := None;
     T_alpha_list := []; T_alpha_total := None; N_alpha_beta := None;
     k_alpha_beta := ∅; alpha := alpha; existing_lines := None |}.

Inductive engine :=
| openmm
| namd
| browndye2
| other (name : string).

(** The assignment of the reader's results to the fields of [self]. *)
Definition store (self : MMVT_anchor_statistics) (s : statistics)
    : MMVT_anchor_statistics :=
  {| N_i_j_alpha := Some (st_N_i_j_alpha s);
     R_i_alpha_list := Some (st_R_i_alpha_list s);
     R_i_alpha_total := Some (st_R_i_alpha_total s);
     T_alpha_list := st_T_alpha_list s;
     T_alpha_total := Some (st_T_alpha_total s);
     N_alpha_beta := Some (st_N_alpha_beta s);
     k_alpha_beta := k_alpha_beta self;
     alpha := alpha self;
     existing_lines := Some (st_lines s) |}.

Section Read.

(** [namd_read_output_file_list], with its [anchor] and [timestep]. *)
Variable namd_read_output_file_list :
  list output_file → option Qc → option Qc → option (list line) →
  result statistics.

(** [MMVT_anchor_statistics.read_output_file_list] (lines 629-662).
    [for key in self.N_alpha_beta: self.k_alpha_beta[key] = ...] writes
    the new rates over the old entries of [k_alpha_beta]. *)
Definition read_output_file_list (self : MMVT_anchor_statistics)
    (eng : engine) (output_file_list : list output_file)
    (min_time max_time : option Qc) : result MMVT_anchor_statistics :=
  self <- match eng with
          | openmm =>
              s <- openmm_read_output_file_list output_file_list min_time
                     max_time (existing_lines self) false ;;
              Ok (store self s)
          | namd =>
              s <- namd_read_output_file_list output_file_list min_time
                     max_time (existing_lines self) ;;
              Ok (store self s)
          | browndye2 => Ok self
          | other _ =>
              Raise (Exception
                "Engine not allowed: {}. Must be 'openmm', 'namd', or 'browndye'.")
          end ;;
  match N_alpha_beta self, T_alpha_total self with
  | Some N, Some T =>
      let k := ((λ n, rate_of n T) <$> N) ∪ k_alpha_beta self in
      assert (bool_decide (0 ≤ T)) "" ;;;
      Ok {| N_i_j_alpha := N_i_j_alpha self;
            R_i_alpha_list := R_i_alpha_list self;
            R_i_alpha_total := R_i_alpha_total self;
            T_alpha_list := T_alpha_list self;
            T_alpha_total := T_alpha_total self;
            N_alpha_beta := N_alpha_beta self;
            k_alpha_beta := k;
            alpha := alpha self;
            existing_lines := existing_lines self |}
  | _, _ => Raise TypeError
  end.

End Read.

End Anchor_statistics.

(** ** The sampling loop of [monte_carlo_milestoning_error] *)

Module Monte_carlo.

Import Model Sample.
Local Open Scope Qc_scope.

(** *** The loop and what it retains (lines 1094-1097, 1114-1168) *)

Section Loop.

(** [C]: what one turn hands to the next ([k_alpha_beta_matrix],
    [mmvt_Qij_alpha], the state of the random generator); [L]: what a turn
    computes before the retention test; [S]: a data sample. *)
Context {C L S : Type}.
(** Lines 1116-1136 with the hand-over of lines 1143-1144. *)
Variable move : C → result (C * L).
(** [new_data_sample] as a turn that is not retained leaves it. *)
Variable plain : L → S.
(** Lines 1139-1141 and 1147-1155. *)
Variable retain : L → result S.

Record loop_state := {
  chain : C;
  new_data_sample : option S;
  data_sample_list : list S;
}.

(** [counter > skip and counter % stride == 0] *)
Definition retained (skip stride : Z) (counter : nat) : result bool :=
  if decide (skip < Z.of_nat counter)%Z then
    if decide (stride = 0)%Z then Raise ZeroDivisionError
    else Ok (bool_decide (Z.of_nat counter mod stride = 0)%Z)
  else Ok false.

Definition loop_step (skip stride : Z) (st : loop_state) (counter : nat)
    : result loop_state :=
  mv <- move (chain st) ;;
  keep <- retained skip stride counter ;;
  if keep : bool then
    s <- retain mv.2 ;;
    Ok {| chain := mv.1; new_data_sample := Some s;
          data_sample_list := data_sample_list st ++ [s] |}
  else
    Ok {| chain := mv.1; new_data_sample := Some (plain mv.2);
          data_sample_list := data_sample_list st |}.

Definition nothing_sampled_msg : string :=
  "Nothing sampled in Monte Carlo milestoning procedure. Please choose different arrangement of num, skip, and stride.".

(** The loop, the assertion after it, and [data_sample_list]; the
    standard deviations computed from the retained samples are left
    out. *)
Definition sampling_loop (n_milestones : nat) (num : Z)
    (skip stride : option Z) (init : C) : result (list S) :=
  let skip := default (10 * Z.of_nat n_milestones ^ 2)%Z skip in
  let stride := default (Z.of_nat n_milestones ^ 2)%Z stride in
  st <- foldlM (loop_step skip stride)
               (seq 0 (Z.to_nat (num * stride + skip)))
               {| chain := init; new_data_sample := None;
                  data_sample_list := [] |} ;;
  assert (bool_decide (is_Some (new_data_sample st))) nothing_sampled_msg ;;;
  Ok (data_sample_list st).

End Loop.

(** *** One turn of the loop *)

(** [MMVT_data_sample.fill_k_from_matrices] (lines 1029-1043): the new
    [self.k_alpha_beta]. *)
Definition fill_k_step (k_alpha_beta_matrix : ndarray Qc) (alpha : nat)
    (k : gmap (nat * nat) Qc) (beta : nat) : result (gmap (nat * nat) Qc) :=
  if decide (alpha = beta) then Ok k
  else
    kab <- at2 k_alpha_beta_matrix alpha beta ;;
    if decide (0 < kab) then Ok (<[(alpha, beta) := kab]> k) else Ok k.

Definition fill_k_from_matrices (m : Model.t) (k_alpha_beta_matrix : ndarray Qc)
    : result (gmap (nat * nat) Qc) :=
  let n_anchors := num_anchors m in
  foldlM (λ k alpha,
            anchor <- index (anchors m) alpha ;;
            if bulkstate anchor then Ok k
            else foldlM (fill_k_step k_alpha_beta_matrix alpha) (seq 0 n_anchors) k)
         (seq 0 n_anchors) ∅.

Section Turn.

(** Outside the files at hand: the solver of [calculate_pi_alpha], the
    sampler [irreversible_stochastic_matrix_algorithm_sample] of
    [markov_chain_monte_carlo] with the state [G] of its random generator,
    and the kinetics and thermodynamics of [common_analyze], which give
    the observables [O] of a retained sample from its rate matrix. *)
Context {G O : Type}.
Variable solve : ndarray Qc → list Qc → result (list Qc).
Variable irreversible_stochastic_matrix_algorithm_sample :
  G → ndarray Qc → ndarray Qc → list Qc → ndarray Qc * G.
Variable observe : MMVT_data_sample → ndarray Qc → result O.

Variable main_data_sample : MMVT_data_sample.
Variable q : mcmc_quantities.
Variable n_milestones : nat.

(** [MMVT_data_sample(model)] with the two fields of lines 1117-1118. *)
Definition fresh_sample : MMVT_data_sample :=
  {| model := model main_data_sample;
     N_alpha_beta := N_alpha_beta main_data_sample;
     k_alpha_beta := None;
     N_i_j_alpha := None;
     R_i_alpha := None;
     T_alpha := T_alpha main_data_sample;
     pi_alpha := [];
     N_ij := ∅;
     R_i := ∅;
     T := 0 |}.

Definition with_k_pi (s : MMVT_data_sample) (k : gmap (nat * nat) Qc)
    (pi : list Qc) : MMVT_data_sample :=
  {| model := model s; N_alpha_beta := N_alpha_beta s;
     k_alpha_beta := Some k; N_i_j_alpha := N_i_j_alpha s;
     R_i_alpha := R_i_alpha s; T_alpha := T_alpha s; pi_alpha := pi;
     N_ij := N_ij s; R_i := R_i s; T := T s |}.

(** Lines 1128-1136, on [(rng, mmvt_Qnew_list, mmvt_Nij_list)]. *)
Definition anchor_move (Qij_alpha : list (ndarray Qc))
    (st : G * list (ndarray Qc) * list (ndarray Qc)) (alpha : nat)
    : result (G * list (ndarray Qc) * list (ndarray Qc)) :=
  let '(g, mmvt_Qnew_list, mmvt_Nij_list) := st in
  Q_a <- index Qij_alpha alpha ;;
  N_a <- index (mmvt_Nij_alpha q) alpha ;;
  R_a <- index (mmvt_Ri_alpha q) alpha ;;
  let '(mmvt_Qnew_alpha, g) :=
    irreversible_stochastic_matrix_algorithm_sample g Q_a N_a R_a in
  new_mmvt_Nij_alpha <- make_new_Nij_alpha Q_a R_a ;;
  Ok (g, mmvt_Qnew_list ++ [mmvt_Qnew_alpha],
      mmvt_Nij_list ++ [new_mmvt_Nij_alpha]).

(** Lines 1116-1136, 1143-1144.  A [pi_alpha] with an entry that is not
    finite would make the statistics of the sample [nan]: it leaves the
    exact model. *)
Definition move (c : G * ndarray Qc * list (ndarray Qc))
    : result (G * ndarray Qc * list (ndarray Qc)
              * (MMVT_data_sample * list (ndarray Qc))) :=
  let '(g, k_matrix, Qij_alpha) := c in
  let '(k_alpha_beta_matrix_new, g) :=
    irreversible_stochastic_matrix_algorithm_sample g k_matrix
      (N_alpha_beta_matrix q) (T_alpha_matrix q) in
  k <- fill_k_from_matrices (model main_data_sample) k_alpha_beta_matrix_new ;;
  pi <- calculate_pi_alpha solve (with_k_pi fresh_sample k []) ;;
  pi <- finite pi ;;
  st <- foldlM (anchor_move Qij_alpha)
               (seq 0 (num_anchors (model main_data_sample) - 1)) (g, [], []) ;;
  let '(g, mmvt_Qnew_list, mmvt_Nij_list) := st in
  Ok (g, k_alpha_beta_matrix_new, mmvt_Qnew_list,
      (with_k_pi fresh_sample k pi, mmvt_Nij_list)).

(** A retained sample: the data sample, its rate matrix [Q], and what
    [Q_to_K], [calculate_thermodynamics] and [calculate_kinetics] make of
    it. *)
Definition plain (l : MMVT_data_sample * list (ndarray Qc))
    : MMVT_data_sample * option (ndarray Qc * O) :=
  (l.1, None).

(** Lines 1139-1141, 1147-1155. *)
Definition retain (l : MMVT_data_sample * list (ndarray Qc))
    : result (MMVT_data_sample * option (ndarray Qc * O)) :=
  T_alpha <- match T_alpha main_data_sample with
             | Some T_alpha => Ok T_alpha
             | None => Raise TypeError
             end ;;
  NRQ <- mmvt_Q_N_R n_milestones (num_anchors (model main_data_sample) - 1)
           l.2 (mmvt_Ri_alpha q) T_alpha (mcmc_T q) (pi_alpha l.1) ;;
  let s := {| model := model l.1; N_alpha_beta := N_alpha_beta l.1;
              k_alpha_beta := k_alpha_beta l.1;
              N_i_j_alpha := N_i_j_alpha l.1; R_i_alpha := R_i_alpha l.1;
              T_alpha := Sample.T_alpha l.1; pi_alpha := pi_alpha l.1;
              N_ij := N_ij main_data_sample; R_i := R_i main_data_sample;
              T := T l.1 |} in
  o <- observe s NRQ.2 ;;
  Ok (s, Some (NRQ.2, o)).

End Turn.

(** [monte_carlo_milestoning_error] (lines 1045-1191): the list of retained
    data samples.  [Q] is [main_data_sample.Q]. *)
Definition monte_carlo_milestoning_error {G O : Type}
    (solve : ndarray Qc → list Qc → result (list Qc))
    (sampler : G → ndarray Qc → ndarray Qc → list Qc → ndarray Qc * G)
    (observe : MMVT_data_sample → ndarray Qc → result O)
    (g : G) (main_data_sample : MMVT_data_sample) (Q : ndarray Qc)
    (num : Z) (skip stride : option Z)
    : result (list (MMVT_data_sample * option (ndarray Qc * O))) :=
  let n_milestones := length Q in
  q <- make_mcmc_quantities main_data_sample ;;
  sampling_loop (move solve sampler main_data_sample q) plain
    (retain observe main_data_sample q n_milestones)
    n_milestones num skip stride
    (g, k_alpha_beta_matrix q, mmvt_Qij_alpha q).

End Monte_carlo.

(** ** The milestones of an anchor

    [Elber_anchor] of [seekr2/modules/elber_cvs/elber_cv_base.py] looks its
    milestones up by index, by alias and by neighbouring anchor, through
    three dictionaries it builds at every call. *)

Module Elber_anchor.

Import Model.

(** [_make_milestone_collection] (lines 236-254): [id_key_alias_value_dict],
    [alias_key_id_value_dict] and [neighbor_id_key_alias_value_dict].  An
    assignment overwrites what an earlier milestone left under the key. *)
Definition _make_milestone_collection (self : Anchor)
    : gmap Z Z * gmap Z Z * gmap nat Z :=
  foldl (λ d milestone,
           (<[milestone_index milestone := alias_index milestone]> d.1.1,
            <[alias_index milestone := milestone_index milestone]> d.1.2,
            <[neighbor_anchor_index milestone := alias_index milestone]> d.2))
        (∅, ∅, ∅) (milestones self).

(** [id_from_alias] (lines 256-266); Python's [None] is [None]. *)
Definition id_from_alias (self : Anchor) (alias_id : Z) : option Z :=
  (_make_milestone_collection self).1.2 !! alias_id.

(** [alias_from_id] (lines 268-278) *)
Definition alias_from_id (self : Anchor) (my_id : Z) : option Z :=
  (_make_milestone_collection self).1.1 !! my_id.

(** [alias_from_neighbor_id] (lines 280-290) *)
Definition alias_from_neighbor_id (self : Anchor) (neighbor_id : nat) : option Z :=
  (_make_milestone_collection self).2 !! neighbor_id.

(** [get_ids] (lines 292-298): the keys of [id_key_alias_value_dict], as a
    set. *)
Definition get_ids (self : Anchor) : gset Z :=
  dom (_make_milestone_collection self).1.1.

End Elber_anchor.

(** ** The milestones of one-dimensional collective variables

    [seekr2/modules/mmvt_cv.py] makes the milestones of an anchor from the
    list of input anchors of a collective variable;
    [seekr2/modules/mmvt_cvs/mmvt_planar_cv.py] tests a value against
    one.  A [base.Milestone] is kept with the attributes these functions
    set. *)

Module Milestoning.

Local Open Scope Qc_scope.

Record Milestone := {
  milestone_index : Z;
  neighbor_anchor_index : Z;
  alias_index : Z;
  cv_index : Z;
  variables : gmap string Qc;
}.

(** What the functions read of an input anchor of a spherical and of a
    planar collective variable. *)
Record Spherical_cv_anchor := {
  radius : Qc;
  lower_milestone_radius : option Qc;
  upper_milestone_radius : option Qc;
}.

Record Planar_cv_anchor := {
  value : Qc;
  lower_milestone_value : option Qc;
  upper_milestone_value : option Qc;
}.

(** [0.5] *)
Definition half : Qc := Q2Qc (Qmake 1 2).

(** [d[key]] *)
Definition getitem {K A} `{Countable K} (d : gmap K A) (key : K) : result A :=
  match d !! key with
  | Some v => Ok v
  | None => Raise KeyError
  end.

(** [make_mmvt_milestoning_objects_spherical] (lines 22-66);
    [spherical_cv_input] is read for its [index] only, and
    [input_anchor_index] is an index from the front of [input_anchors]. *)
Definition make_mmvt_milestoning_objects_spherical (spherical_cv_input_index : Z)
    (milestone_alias milestone_index : Z) (input_anchor_index : nat)
    (anchor_index : Z) (input_anchors : list Spherical_cv_anchor)
    : result (list Milestone * Z * Z) :=
  let num_anchors := length input_anchors in
  st <- (if decide (0 < input_anchor_index)%nat then
           let neighbor_index := (anchor_index - 1)%Z in
           let neighbor_index_input := (input_anchor_index - 1)%nat in
           me <- index input_anchors input_anchor_index ;;
           radius <- match lower_milestone_radius me with
                     | None =>
                         neighbor <- index input_anchors neighbor_index_input ;;
                         Ok (half * (radius me + radius neighbor))
                     | Some r => Ok r
                     end ;;
           let milestone1 :=
             {| milestone_index := milestone_index;
                neighbor_anchor_index := neighbor_index;
                alias_index := milestone_alias;
                cv_index := spherical_cv_input_index;
                variables := {[ "k"%string := - 1; "radius"%string := radius ]} |} in
           Ok ([milestone1], (milestone_alias + 1)%Z, (milestone_index + 1)%Z)
         else Ok ([], milestone_alias, milestone_index)) ;;
  let '(milestones, milestone_alias, milestone_index) := st in
  if decide (Z.of_nat input_anchor_index < Z.of_nat num_anchors - 1)%Z then
    let neighbor_index := (anchor_index + 1)%Z in
    let neighbor_index_input := (input_anchor_index + 1)%nat in
    me <- index input_anchors input_anchor_index ;;
    radius <- match upper_milestone_radius me with
              | None =>
                  neighbor <- index input_anchors neighbor_index_input ;;
                  Ok (half * (radius me + radius neighbor))
              | Some r => Ok r
              end ;;
    let milestone2 :=
      {| milestone_index := milestone_index;
         neighbor_anchor_index := neighbor_index;
         alias_index := milestone_alias;
         cv_index := spherical_cv_input_index;
         variables := {[ "k"%string := 1; "radius"%string := radius ]} |} in
    Ok (milestones ++ [milestone2], milestone_alias, milestone_index)
  else Ok (milestones, milestone_alias, milestone_index).

(** [make_mmvt_milestoning_objects_planar] (lines 146-190) *)
Definition make_mmvt_milestoning_objects_planar (planar_cv_input_index : Z)
    (milestone_alias milestone_index : Z) (input_anchor_index : nat)
    (anchor_index : Z) (input_anchors : list Planar_cv_anchor)
    : result (list Milestone * Z * Z) :=
  let num_anchors := length input_anchors in
  st <- (if decide (0 < input_anchor_index)%nat then
           let neighbor_index := (anchor_index - 1)%Z in
           let neighbor_index_input := (input_anchor_index - 1)%nat in
           me <- index input_anchors input_anchor_index ;;
           v <- match lower_milestone_value me with
                | None =>
                    neighbor <- index input_anchors neighbor_index_input ;;
                    Ok (half * (value me + value neighbor))
                | Some v => Ok v
                end ;;
           let milestone1 :=
             {| milestone_index := milestone_index;
                neighbor_anchor_index := neighbor_index;
                alias_index := milestone_alias;
                cv_index := planar_cv_input_index;
                variables := {[ "k"%string := - 1; "value"%string := v ]} |} in
           Ok ([milestone1], (milestone_alias + 1)%Z, (milestone_index + 1)%Z)
         else Ok ([], milestone_alias, milestone_index)) ;;
  let '(milestones, milestone_alias, milestone_index) := st in
  if decide (Z.of_nat input_anchor_index < Z.of_nat num_anchors - 1)%Z then
    let neighbor_index := (anchor_index + 1)%Z in
    let neighbor_index_input := (input_anchor_index + 1)%nat in
    me <- index input_anchors input_anchor_index ;;
    v <- match upper_milestone_value me with
         | None =>
             neighbor <- index input_anchors neighbor_index_input ;;
             Ok (half * (value me + value neighbor))
         | Some v => Ok v
         end ;;
    let milestone2 :=
      {| milestone_index := milestone_index;
         neighbor_anchor_index := neighbor_index;
         alias_index := milestone_alias;
         cv_index := planar_cv_input_index;
         variables := {[ "k"%string := 1; "value"%string := v ]} |} in
    Ok (milestones ++ [milestone2], milestone_alias, milestone_index)
  else Ok (milestones, milestone_alias, milestone_index).

(** [MMVT_planar_CV.check_value_within_boundary] (lines 294-305), without
    the warning it prints when [verbose]; [tolerance] defaults to [0.0]. *)
Definition check_value_within_boundary (value : Qc)
    (milestone_variables : gmap string Qc) (tolerance : Qc) : result bool :=
  milestone_k <- getitem milestone_variables "k"%string ;;
  milestone_value <- getitem milestone_variables "value"%string ;;
  if decide (tolerance < milestone_k * (value - milestone_value)) then Ok false
  else Ok true.

End Milestoning.

(** ** The counts a data sample is created with *)

Module Data_sample_init.

Import Model Sample.
Local Open Scope Qc_scope.

(** [self.N_alpha[alpha] += self.N_i_j_alpha[alpha][key]] *)
Definition N_alpha_step (alpha : nat) (key : Z * Z) (v : Qc)
    (N_alpha : result (list Qc)) : result (list Qc) :=
  N_alpha <- N_alpha ;;
  old <- index N_alpha alpha ;;
  setitem N_alpha alpha (old + v).

(** The loop over [beta] (lines 810-814). *)
Definition k_alpha_of (k_alpha_beta : gmap (nat * nat) Qc) (anchors : list Anchor)
    (alpha : nat) : Qc :=
  foldl (λ k_alpha beta,
           match k_alpha_beta !! (alpha, beta) with
           | Some v => k_alpha + v
           | None => k_alpha
           end) 0 (seq 0 (length anchors)).

(** One turn of the loop over the anchors (lines 802-815), on
    [(self.N_alpha, self.k_alpha)]. *)
Definition init_step (N_i_j_alpha : list (gmap (Z * Z) Qc))
    (k_alpha_beta : gmap (nat * nat) Qc) (anchors : list Anchor)
    (st : list Qc * list Qc) (p : nat * Anchor) : result (list Qc * list Qc) :=
  let '(alpha, anchor) := p in
  if bulkstate anchor then Ok st
  else
    let N_alpha := st.1 ++ [0] in
    N_a <- index N_i_j_alpha alpha ;;
    N_alpha <- map_fold (N_alpha_step alpha) (Ok N_alpha) N_a ;;
    Ok (N_alpha, st.2 ++ [k_alpha_of k_alpha_beta anchors alpha]).

(** [MMVT_data_sample.__init__] (lines 765-817): the lists [N_alpha] and
    [k_alpha]; the other attributes are the arguments and constants. *)
Definition init (model : Model.t)
    (N_alpha_beta k_alpha_beta : option (gmap (nat * nat) Qc))
    (N_i_j_alpha : option (list (gmap (Z * Z) Qc)))
    (R_i_alpha : option (list (gmap Z Qc))) (T_alpha : option (list Qc))
    : result (list Qc * list Qc) :=
  match N_alpha_beta, k_alpha_beta, N_i_j_alpha, R_i_alpha, T_alpha with
  | Some _, Some k, Some N_i_j_alpha, Some _, Some _ =>
      foldlM (init_step N_i_j_alpha k (anchors model))
             (enumerate (anchors model)) ([], [])
  | _, _, _, _, _ => Ok ([], [])
  end.

(** [sum(d.values())] *)
Definition values_sum {K} `{Countable K} (d : gmap K Qc) : Qc :=
  map_fold (λ _ v acc, acc + v) 0 d.

End Data_sample_init.

(** ** Concrete inputs *)

Module Examples.

Import Dense Model Sample.
Local Open Scope Qc_scope.

Definition milestone (id : Z) (neighbor : nat) (alias : Z) : Milestone :=
  {| milestone_index := id; neighbor_anchor_index := neighbor; alias_index := alias |}.

(** Two cells and the bulk, in a row: anchor 0 | milestone 0 | anchor 1 |
    milestone 1 | bulk. *)
Definition chain_model : Model.t :=
  {| anchors :=
       [ {| anchor_index := 0; bulkstate := false;
            milestones := [milestone 0 1 1] |};
         {| anchor_index := 1; bulkstate := false;
            milestones := [milestone 0 0 1; milestone 1 2 2] |};
         {| anchor_index := 2; bulkstate := true;
            milestones := [milestone 1 1 1] |} ];
     num_anchors := 3;
     num_milestones := 2 |}.

Definition chain_k : gmap (nat * nat) Qc :=
  <[(0%nat, 1%nat) := 1]> (<[(1%nat, 0%nat) := Qc_of_Z 2]>
    (<[(1%nat, 2%nat) := Qc_of_Z 3]> ∅)).

Definition chain_N : gmap (nat * nat) Qc :=
  <[(0%nat, 1%nat) := Qc_of_Z 10]> (<[(1%nat, 0%nat) := Qc_of_Z 20]>
    (<[(1%nat, 2%nat) := Qc_of_Z 30]> ∅)).

Definition chain_Ns : list (gmap (Z * Z) Qc) :=
  [ ∅; <[(0%Z, 1%Z) := Qc_of_Z 4]> (<[(1%Z, 0%Z) := Qc_of_Z 4]> ∅) ].

Definition chain_Rs : list (gmap Z Qc) :=
  [ <[0%Z := Qc_of_Z 10]> ∅;
    <[0%Z := Qc_of_Z 5]> (<[1%Z := Qc_of_Z 5]> ∅) ].

Definition chain_Ta : list Qc := [Qc_of_Z 10; Qc_of_Z 10].

Definition chain_sample : MMVT_data_sample :=
  {| model := chain_model;
     N_alpha_beta := Some chain_N;
     k_alpha_beta := Some chain_k;
     N_i_j_alpha := Some chain_Ns;
     R_i_alpha := Some chain_Rs;
     T_alpha := Some chain_Ta;
     pi_alpha := [Q2Qc (Qmake 2 3); Q2Qc (Qmake 1 3); 0];
     N_ij := ∅;
     R_i := ∅;
     T := 0 |}.

(** The value of a computation that returned. *)
Definition value {A} (d : A) (r : result A) : A :=
  match r with Ok a => a | Raise _ => d end.

Definition chain_quantities : mcmc_quantities :=
  value {| k_alpha_beta_matrix := []; N_alpha_beta_matrix := [];
           T_alpha_matrix := []; mmvt_Nij_alpha := []; mmvt_Ri_alpha := [];
           mmvt_Qij_alpha := []; mcmc_T := 0 |}
        (make_mcmc_quantities chain_sample).

Definition chain_Q_anchor_1 : ndarray Qc :=
  default [] (mmvt_Qij_alpha chain_quantities !! 1%nat).

Definition chain_Q_global : ndarray Qc :=
  (value ([], [], [])
     (mmvt_Q_N_R 2 2 (mmvt_Nij_alpha chain_quantities)
        (mmvt_Ri_alpha chain_quantities) [Qc_of_Z 10; Qc_of_Z 10]
        (Qc_of_Z 10) (pi_alpha chain_sample))).2.

Definition chain_filled : MMVT_data_sample :=
  value chain_sample (fill_out_data_quantities chain_sample).

Definition chain_pi : list xQc :=
  value [] (calculate_pi_alpha Scipy.solve chain_sample).

(** The bulk anchor first: bulk | anchor 3 | anchor 2 | anchor 1, listed as
    anchors 0, 1, 2, 3. *)
Definition bulk_first_model : Model.t :=
  {| anchors :=
       [ {| anchor_index := 0; bulkstate := true;
            milestones := [milestone 2 3 1] |};
         {| anchor_index := 1; bulkstate := false;
            milestones := [milestone 0 2 1] |};
         {| anchor_index := 2; bulkstate := false;
            milestones := [milestone 0 1 1; milestone 1 3 2] |};
         {| anchor_index := 3; bulkstate := false;
            milestones := [milestone 1 2 1; milestone 2 0 2] |} ];
     num_anchors := 4;
     num_milestones := 3 |}.

Definition bulk_first_k : gmap (nat * nat) Qc :=
  <[(1%nat, 2%nat) := 1]> (<[(2%nat, 1%nat) := 1]>
    (<[(2%nat, 3%nat) := 1]> (<[(3%nat, 2%nat) := 1]> ∅))).

Definition with_k (m : Model.t) (k : gmap (nat * nat) Qc) : MMVT_data_sample :=
  {| model := m; N_alpha_beta := None; k_alpha_beta := Some k;
     N_i_j_alpha := None; R_i_alpha := None; T_alpha := None;
     pi_alpha := []; N_ij := ∅; R_i := ∅; T := 0 |}.

(** One cell next to the bulk, and no rate between cells. *)
Definition one_cell_model : Model.t :=
  {| anchors :=
       [ {| anchor_index := 0; bulkstate := false;
            milestones := [milestone 0 1 1] |};
         {| anchor_index := 1; bulkstate := true;
            milestones := [milestone 0 0 1] |} ];
     num_anchors := 2;
     num_milestones := 1 |}.

(** Binary64: one count over an incubation time of 49. *)
Definition float_Nij : ndarray float := [[0; 1]; [0; 0]]%float.
Definition float_Ri : list float := [49; 1]%float.

(** Two log files of one anchor; the second starts at time 3, where the
    run was restarted, and the first goes on to time 5. *)
Definition event_at (boundary bounce : Z) (time : Z) : Reader.event :=
  {| Reader.dest_boundary := boundary; Reader.bounce_index := bounce;
     Reader.dest_time := Qc_of_Z time |}.

Definition first_run : Reader.output_file :=
  {| Reader.swarm := None;
     Reader.records := [event_at 1 0 1; event_at 2 1 3; event_at 1 2 5] |}.

Definition restarted_run : Reader.output_file :=
  {| Reader.swarm := None;
     Reader.records := [event_at 2 0 3; event_at 1 1 4] |}.

(** A first file all of whose records are later than the restart. *)
Definition late_run : Reader.output_file :=
  {| Reader.swarm := None;
     Reader.records := [event_at 1 0 5; event_at 2 1 6] |}.

(** One file in which time runs backwards. *)
Definition backwards_run : Reader.output_file :=
  {| Reader.swarm := None;
     Reader.records := [event_at 1 0 5; event_at 1 1 3] |}.

(** The first run as it was on disk when it held two records only. *)
Definition first_run_early : Reader.output_file :=
  {| Reader.swarm := None;
     Reader.records := [event_at 1 0 1; event_at 2 1 3] |}.

(** No NAMD log is read in the examples. *)
Definition no_namd (_ : list Reader.output_file) (_ _ : option Qc)
    (_ : option (list Reader.line)) : result Reader.statistics :=
  Raise (Exception "namd").

(** The statistics of anchor 0 after one read of the two runs, and after
    one read of the early state of the first run. *)
Definition once_read : Anchor_statistics.MMVT_anchor_statistics :=
  value (Anchor_statistics.init 0)
    (Anchor_statistics.read_output_file_list no_namd (Anchor_statistics.init 0)
       Anchor_statistics.openmm [first_run; restarted_run] None None).

Definition early_read : Anchor_statistics.MMVT_anchor_statistics :=
  value (Anchor_statistics.init 0)
    (Anchor_statistics.read_output_file_list no_namd (Anchor_statistics.init 0)
       Anchor_statistics.openmm [first_run_early] None None).

(** A turn of the sampling loop that hands its own number on. *)
Definition count_move (c : nat) : result (nat * nat) := Ok (S c, c).

(** One read of the two runs, and one read, from time 2 on, of a run that
    bounces off one milestone only. *)
Definition no_statistics : Reader.statistics :=
  {| Reader.st_N_i_j_alpha := ∅; Reader.st_R_i_alpha_list := ∅;
     Reader.st_R_i_alpha_total := ∅; Reader.st_N_alpha_beta := ∅;
     Reader.st_T_alpha_list := []; Reader.st_T_alpha_total := 0;
     Reader.st_lines := [] |}.

Definition two_runs_read : Reader.statistics :=
  value no_statistics
    (Reader.openmm_read_output_file_list [first_run; restarted_run]
       None None None false).

Definition one_milestone_run : Reader.output_file :=
  {| Reader.swarm := None;
     Reader.records := [event_at 1 0 1; event_at 1 1 2; event_at 1 2 4] |}.

Definition one_milestone_read : Reader.statistics :=
  value no_statistics
    (Reader.openmm_read_output_file_list [one_milestone_run]
       (Some (Qc_of_Z 2)) None None false).

(** An anchor between the milestones 6 and 7, and one whose two
    milestones were given the same alias. *)
Definition two_milestone_anchor : Anchor :=
  {| anchor_index := 3; bulkstate := false;
     milestones := [milestone 6 2 1; milestone 7 4 2] |}.

Definition shared_alias_anchor : Anchor :=
  {| anchor_index := 3; bulkstate := false;
     milestones := [milestone 6 2 1; milestone 8 4 1] |}.

(** Three input anchors of a collective variable of one dimension, at 1,
    2 and 4; the last one gives the place of its lower milestone. *)
Definition spherical_anchors : list Milestoning.Spherical_cv_anchor :=
  [ {| Milestoning.radius := 1;
       Milestoning.lower_milestone_radius := None;
       Milestoning.upper_milestone_radius := None |};
    {| Milestoning.radius := Qc_of_Z 2;
       Milestoning.lower_milestone_radius := None;
       Milestoning.upper_milestone_radius := None |};
    {| Milestoning.radius := Qc_of_Z 4;
       Milestoning.lower_milestone_radius := Some (Qc_of_Z 3);
       Milestoning.upper_milestone_radius := None |} ].

Definition planar_anchors : list Milestoning.Planar_cv_anchor :=
  [ {| Milestoning.value := 1;
       Milestoning.lower_milestone_value := None;
       Milestoning.upper_milestone_value := None |};
    {| Milestoning.value := Qc_of_Z 2;
       Milestoning.lower_milestone_value := None;
       Milestoning.upper_milestone_value := None |};
    {| Milestoning.value := Qc_of_Z 4;
       Milestoning.lower_milestone_value := Some (Qc_of_Z 3);
       Milestoning.upper_milestone_value := None |} ].

(** Transitions counted in anchor 1 of the model that lists its bulk
    anchor first. *)
Definition bulk_first_Ns : list (gmap (Z * Z) Qc) :=
  [ ∅; {[ (0%Z, 1%Z) := 1 ]}; ∅; ∅ ].

(** The statistics of two anchors as arrays over two milestones. *)
Definition dense_Ns : list (ndarray Qc) :=
  [ [[0; 1]; [Qc_of_Z 2; 0]]; [[0; Qc_of_Z 3]; [0; 0]] ].

Definition dense_Rs : list (list Qc) :=
  [ [Qc_of_Z 5; Qc_of_Z 5]; [Qc_of_Z 10; 0] ].

End Examples.

(** * Facts *)

(** ** The exception monad and its loops *)

Section Monad_facts.

Lemma bind_Ok {A B} (m : result A) (f : A → result B) (b : B) :
  bind m f = Ok b ↔ ∃ a, m = Ok a ∧ f a = Ok b.
Proof.
  destruct m as [a|e]; simpl; split.
  - eauto.
  - by intros (? & [= ->] & ?).
  - discriminate.
  - by intros (? & ? & ?).
Qed.

Lemma index_Ok {A} (l : list A) (i : nat) (a : A) :
  index l i = Ok a ↔ l !! i = Some a.
Proof. unfold index. destruct (l !! i); split; congruence. Qed.

Lemma setitem_Ok {A} (l l' : list A) (i : nat) (v : A) :
  setitem l i v = Ok l' ↔ (i < length l)%nat ∧ l' = <[i := v]> l.
Proof.
  unfold setitem. case_decide; split; try discriminate.
  - by intros [= <-].
  - by intros [_ ->].
  - by intros [].
Qed.

Lemma setitem_lt {A} (l : list A) (i : nat) (v : A) :
  (i < length l)%nat → setitem l i v = Ok (<[i := v]> l).
Proof. intros. unfold setitem. by rewrite decide_True. Qed.

Lemma index_lookup {A} (l : list A) (i : nat) (a : A) :
  l !! i = Some a → index l i = Ok a.
Proof. apply index_Ok. Qed.

Lemma assert_Ok (c : bool) (msg : string) (u : unit) :
  assert c msg = Ok u ↔ c = true.
Proof. destruct c, u; simpl; split; congruence. Qed.

(** A loop invariant indexed by the number of turns done. *)
Lemma foldlM_seq_inv {B} (f : B → nat → result B) (P : nat → B → Prop)
    (a n : nat) (b b' : B) :
  P a b →
  (∀ k s s', (a ≤ k < a + n)%nat → P k s → f s k = Ok s' → P (S k) s') →
  foldlM f (seq a n) b = Ok b' →
  P (a + n)%nat b'.
Proof.
  revert a b. induction n as [|n IH]; intros a b Hb Hstep; simpl.
  - intros [= <-]. by rewrite Nat.add_0_r.
  - intros (s & Hs & Hrest)%bind_Ok.
    replace (a + S n)%nat with (S a + n)%nat by lia.
    apply (IH (S a) s); [|intros; apply (Hstep k s0)|]; try done; try lia.
    apply (Hstep a b); [lia|done..].
Qed.

(** The same for a loop no turn of which raises. *)
Lemma foldlM_seq_total {B} (f : B → nat → result B) (P : nat → B → Prop)
    (a n : nat) (b : B) :
  P a b →
  (∀ k s, (a ≤ k < a + n)%nat → P k s → ∃ s', f s k = Ok s' ∧ P (S k) s') →
  ∃ b', foldlM f (seq a n) b = Ok b' ∧ P (a + n)%nat b'.
Proof.
  revert a b. induction n as [|n IH]; intros a b Hb Hstep; simpl.
  - exists b. by rewrite Nat.add_0_r.
  - destruct (Hstep a b) as (s & Hs & HP); [lia|done|].
    rewrite Hs. simpl.
    replace (a + S n)%nat with (S a + n)%nat by lia.
    apply IH; [done|]. intros k s0 ? ?. apply Hstep; [lia|done].
Qed.

Lemma foldlM_inv {A B} (f : B → A → result B) (P : B → Prop)
    (l : list A) (b b' : B) :
  P b → (∀ s a s', P s → f s a = Ok s' → P s') →
  foldlM f l b = Ok b' → P b'.
Proof.
  intros Hb Hstep. revert b Hb. induction l as [|a l IH]; intros b Hb; simpl.
  - by intros [= <-].
  - intros (s & Hs & Hrest)%bind_Ok. eauto.
Qed.

Lemma mapM_seq_inv {B} (f : nat → result B) (a n : nat) (l : list B) :
  mapM f (seq a n) = Ok l →
  length l = n ∧ ∀ k r, l !! k = Some r → f (a + k)%nat = Ok r.
Proof.
  revert a l. induction n as [|n IH]; intros a l; simpl.
  - intros [= <-]. split; [done|]. intros k r. by rewrite lookup_nil.
  - intros (r & Hr & (l' & Hl' & [= <-])%bind_Ok)%bind_Ok.
    destruct (IH _ _ Hl') as [Hlen Hl]. split; [simpl; lia|].
    intros [|k] r'; simpl.
    + intros [= <-]. by rewrite Nat.add_0_r.
    + intros Hk. replace (a + S k)%nat with (S a + k)%nat by lia. by apply Hl.
Qed.

Lemma mapM_seq_total {B} (f : nat → result B) (a n : nat) :
  (∀ k, (a ≤ k < a + n)%nat → ∃ r, f k = Ok r) →
  ∃ l, mapM f (seq a n) = Ok l.
Proof.
  revert a. induction n as [|n IH]; intros a Hf; simpl; [by eexists|].
  destruct (Hf a) as [r ->]; [lia|]. simpl.
  destruct (IH (S a)) as [l ->]; [intros; apply Hf; lia|]. simpl. by eexists.
Qed.

Lemma mapM_seq_intro {B} (f : nat → result B) (a n : nat) (l : list B) :
  length l = n → (∀ k r, l !! k = Some r → f (a + k)%nat = Ok r) →
  mapM f (seq a n) = Ok l.
Proof.
  revert a l. induction n as [|n IH]; intros a [|x l] Hlen Hl; simpl in *;
    try done.
  rewrite <- (Nat.add_0_r a) at 1. rewrite (Hl 0%nat x) by done. simpl.
  rewrite (IH (S a) l); [done|lia|].
  intros k r Hk. replace (S a + k)%nat with (a + S k)%nat by lia. by apply Hl.
Qed.

End Monad_facts.

(** Take apart a hypothesis saying that a sequence of steps returned. *)
Ltac inv_ok H :=
  repeat match type of H with
  | bind _ _ = Ok _ =>
      let a := fresh "a" in let Ha := fresh "Ha" in
      apply bind_Ok in H as (a & Ha & H)
  end.

(** Settle a closed decidable statement by evaluating its decision. *)
Ltac by_compute :=
  match goal with
  | |- ?P => apply (@bool_decide_unpack P _); vm_compute; exact I
  end.

(** ** Exact sums *)

Section Sum_facts.
Import Dense.
Local Open Scope Qc_scope.

Lemma foldl_Qcplus (a : Qc) (l : list Qc) : foldl Qcplus a l = a + qsum l.
Proof.
  unfold qsum. revert a. induction l as [|x l IH]; intros a; simpl.
  - ring.
  - rewrite IH, (IH (0 + x)). ring.
Qed.

Lemma qsum_nil : qsum [] = 0.
Proof. done. Qed.

Lemma qsum_cons (x : Qc) (l : list Qc) : qsum (x :: l) = x + qsum l.
Proof. unfold qsum at 1. simpl. rewrite foldl_Qcplus. ring. Qed.

Lemma qsum_app (l k : list Qc) : qsum (l ++ k) = qsum l + qsum k.
Proof.
  induction l as [|x l IH]; simpl.
  - rewrite qsum_nil. ring.
  - rewrite !qsum_cons, IH. ring.
Qed.

Lemma qsum_zeros (n : nat) : qsum (zeros n) = 0.
Proof.
  unfold zeros. induction n as [|n IH]; [done|].
  cbn [replicate]. rewrite qsum_cons, IH. cbn. ring.
Qed.

(** Writing one entry moves the sum by the difference. *)
Lemma qsum_insert (l : list Qc) (i : nat) (old v : Qc) :
  l !! i = Some old → qsum (<[i := v]> l) = qsum l - old + v.
Proof.
  revert i. induction l as [|x l IH]; intros [|i]; simpl; try done.
  - intros [= ->]. rewrite !qsum_cons. ring.
  - intros Hi. rewrite !qsum_cons, (IH _ Hi). ring.
Qed.

Lemma qsum_map_div (l : list Qc) (d : Qc) :
  qsum (map (λ p, p / d) l) = qsum l / d.
Proof.
  induction l as [|x l IH]; simpl.
  - rewrite qsum_nil. unfold Qcdiv. ring.
  - rewrite !qsum_cons, IH. unfold Qcdiv. ring.
Qed.

Lemma lookup_zeros (n j : nat) : (j < n)%nat → zeros n !! j = Some 0.
Proof. intros. unfold zeros. by apply lookup_replicate_2. Qed.

Lemma length_zeros {F} `{Arith F} (n : nat) : length (zeros (F:=F) n) = n.
Proof. apply length_replicate. Qed.

End Sum_facts.

(** ** The dense kernels over exact rationals *)

Section Kernel_facts.
Import Dense.
Local Open Scope Qc_scope.

Lemma fgt0_Qc (x : Qc) : fgt0 x = true ↔ 0 < x.
Proof. cbn. apply bool_decide_eq_true. Qed.

Lemma at2_Ok {F} (M : ndarray F) (i j : nat) (x : F) :
  at2 M i j = Ok x ↔ ∃ row, M !! i = Some row ∧ row !! j = Some x.
Proof.
  unfold at2. rewrite bind_Ok. setoid_rewrite index_Ok. done.
Qed.

(** A row of [mmvt_Q_of]: the off-diagonal loop never writes the
    diagonal, which then takes the negated sum of the row. *)
Lemma mmvt_Q_row_sum (n : nat) (Nij : ndarray Qc) (Ri row : list Qc) (i : nat) :
  mmvt_Q_row n Nij Ri i = Ok row → length row = n ∧ (i < n)%nat ∧ qsum row = 0.
Proof.
  unfold mmvt_Q_row. intros H. inv_ok H.
  apply setitem_Ok in H as [Hlt ->].
  assert (length a = n ∧ ((i < n)%nat → a !! i = Some 0)) as [Hlen Hd].
  { apply (foldlM_seq_inv (mmvt_Q_step Nij Ri i)
             (λ _ r, length r = n ∧ ((i < n)%nat → r !! i = Some 0))
             0 n (zeros n) a); [| |done].
    - split; [apply length_zeros|apply lookup_zeros].
    - intros k s s' _ [Hl Hz] Hs. unfold mmvt_Q_step in Hs.
      case_decide; [by injection Hs as <-|].
      inv_ok Hs. revert Hs. destruct (fgt0 _); intros Hs;
        [|by injection Hs as <-].
      inv_ok Hs. apply setitem_Ok in Hs as [? ->].
      rewrite length_insert. split; [done|]. intros Hi.
      rewrite list_lookup_insert_ne by done. auto. }
  rewrite length_insert. split; [done|]. split; [lia|].
  rewrite (qsum_insert _ _ 0) by (apply Hd; lia).
  change (fopp (fsum a)) with (- qsum a). ring.
Qed.

(** A row of the per-anchor rule: every write of an off-diagonal entry is
    taken off the diagonal in the same turn. *)
Lemma Qij_alpha_row_sum (n : nat) (Nij : ndarray Qc) (Ri row : list Qc) (i : nat) :
  Qij_alpha_row n Nij Ri i = Ok row → length row = n ∧ qsum row = 0.
Proof.
  unfold Qij_alpha_row. intros H.
  pose (P := λ (k : nat) (r : list Qc),
          length r = n ∧ qsum r = 0 ∧
          ∀ j, (k ≤ j)%nat → (j < n)%nat → j ≠ i → r !! j = Some 0).
  assert (P (0 + n)%nat row) as (? & ? & _); [|done].
  apply (foldlM_seq_inv (Qij_alpha_step Nij Ri i) P 0 n (zeros n) row); [| |done].
  - unfold P. split; [apply length_zeros|]. split; [apply qsum_zeros|].
    intros. by apply lookup_zeros.
  - unfold P. intros k s s' [_ Hk] (Hl & Hs & Hz) Hstep.
    unfold Qij_alpha_step in Hstep.
    case_decide as Hik.
    { injection Hstep as <-. split; [done|]. split; [done|].
      intros. apply Hz; lia. }
    inv_ok Hstep. revert Hstep. destruct (fgt0 _); intros Hstep.
    2:{ injection Hstep as <-. split; [done|]. split; [done|].
        intros. apply Hz; lia. }
    apply bind_Ok in Hstep as (nij & _ & Hstep).
    apply bind_Ok in Hstep as (row1 & [Hk1 ->]%setitem_Ok & Hstep).
    apply bind_Ok in Hstep as (a2 & Ha2%index_Ok & [Hi1 ->]%setitem_Ok).
    rewrite !length_insert. split; [done|]. split.
    + rewrite (qsum_insert _ _ a2) by done.
      rewrite (qsum_insert _ _ 0) by (apply Hz; lia).
      rewrite Hs. cbn. ring.
    + intros j Hj Hjn Hji.
      rewrite !list_lookup_insert_ne by lia. apply Hz; [lia|done..].
Qed.

Lemma mmvt_Q_of_rows (n : nat) (Nij Q : ndarray Qc) (Ri : list Qc) :
  mmvt_Q_of n Nij Ri = Ok Q →
  length Q = n ∧ ∀ i row, Q !! i = Some row → length row = n ∧ qsum row = 0.
Proof.
  intros [Hlen Hrows]%mapM_seq_inv. split; [done|].
  intros i row Hrow. apply Hrows in Hrow.
  apply mmvt_Q_row_sum in Hrow. tauto.
Qed.

Lemma Qij_alpha_rule_rows (n : nat) (Nij Q : ndarray Qc) (Ri : list Qc) :
  Qij_alpha_rule n Nij Ri = Ok Q →
  length Q = n ∧ ∀ i row, Q !! i = Some row → length row = n ∧ qsum row = 0.
Proof.
  intros [Hlen Hrows]%mapM_seq_inv. split; [done|].
  intros i row Hrow. apply Hrows in Hrow.
  by apply Qij_alpha_row_sum in Hrow.
Qed.

Lemma lookup_zeros_gen {F} `{Arith F} (n j : nat) :
  (j < n)%nat → zeros (F:=F) n !! j = Some fzero.
Proof. intros. unfold zeros. by rewrite lookup_replicate_2. Qed.

(** Where the incubation time is positive, the rule does not raise and
    leaves the quotient in every off-diagonal entry, in any arithmetic. *)
Lemma Qij_alpha_row_entries {F} `{Arith F} (n : nat) (Nij : ndarray F)
    (Ri Nrow : list F) (i : nat) (r : F) :
  (i < n)%nat → Nij !! i = Some Nrow → length Nrow = n →
  Ri !! i = Some r → fgt0 r = true →
  ∃ row, Qij_alpha_row n Nij Ri i = Ok row ∧ length row = n ∧
         ∀ j x, j ≠ i → Nrow !! j = Some x → row !! j = Some (fdiv x r).
Proof.
  intros Hi HN HlN HR Hr. unfold Qij_alpha_row.
  pose (P := λ (k : nat) (row : list F),
          length row = n ∧
          ∀ j x, (j < k)%nat → j ≠ i → Nrow !! j = Some x →
                 row !! j = Some (fdiv x r)).
  destruct (foldlM_seq_total (Qij_alpha_step Nij Ri i) P 0 n (zeros n))
    as (row & Hrow & Hl & Hent).
  - split; [apply length_zeros|]. intros; lia.
  - unfold P. intros k s [_ Hk] [Hl Hent]. unfold Qij_alpha_step.
    case_decide as Hik.
    { eexists. split; [done|]. split; [done|].
      intros j x ? ? ?. apply Hent; [lia|done..]. }
    rewrite (index_lookup _ _ _ HR). cbn [bind]. rewrite Hr.
    destruct (lookup_lt_is_Some_2 Nrow k) as [nk Hnk]; [lia|].
    assert (at2 Nij i k = Ok nk) as -> by (apply at2_Ok; eauto).
    cbn [bind]. rewrite setitem_lt by lia. cbn [bind].
    destruct (lookup_lt_is_Some_2 (<[k := fdiv nk r]> s) i) as [d Hd];
      [rewrite length_insert; lia|].
    rewrite (index_lookup _ _ _ Hd). cbn [bind].
    rewrite setitem_lt by (rewrite length_insert; lia).
    eexists. split; [done|]. rewrite !length_insert. split; [done|].
    intros j x Hj Hji Hx. rewrite list_lookup_insert_ne by done.
    destruct (decide (j = k)) as [->|Hjk].
    + rewrite list_lookup_insert_eq by lia. rewrite Hnk in Hx. by injection Hx as ->.
    + rewrite list_lookup_insert_ne by done. apply Hent; [lia|done..].
  - exists row. split; [done|]. split; [done|].
    intros j x Hji Hx. apply Hent; [|done..].
    apply lookup_lt_Some in Hx. lia.
Qed.

(** A row of [make_new_Nij_alpha]: zero on the diagonal and, elsewhere,
    the product of the rate with the incubation time. *)
Lemma make_new_Nij_alpha_row {F} `{Arith F} (n : nat) (Qij : ndarray F)
    (Ri Qrow : list F) (i : nat) (r : F) :
  (i < n)%nat → Qij !! i = Some Qrow → length Qrow = n → Ri !! i = Some r →
  ∃ row, foldlM (make_new_Nij_alpha_step Qij Ri i) (seq 0 n) (zeros n) = Ok row ∧
    length row = n ∧
    ∀ j q, Qrow !! j = Some q →
      row !! j = Some (if decide (i = j) then fzero else fmul q r).
Proof.
  intros Hi HQ HlQ HR.
  pose (P := λ (k : nat) (row : list F),
          length row = n ∧
          (∀ j q, (j < k)%nat → Qrow !! j = Some q →
             row !! j = Some (if decide (i = j) then fzero else fmul q r)) ∧
          (∀ j, (k ≤ j)%nat → (j < n)%nat → row !! j = Some fzero)).
  destruct (foldlM_seq_total (make_new_Nij_alpha_step Qij Ri i) P 0 n (zeros n))
    as (row & Hrow & Hl & Hlow & _).
  - split; [apply length_zeros|]. split; [intros; lia|].
    intros. by apply lookup_zeros_gen.
  - unfold P. intros k s [_ Hk] (Hl & Hlow & Hhigh). unfold make_new_Nij_alpha_step.
    case_decide as Hik.
    { subst k. eexists. split; [done|]. split; [done|]. split.
      - intros j q Hj Hq. destruct (decide (j = i)) as [->|].
        + rewrite decide_True by done. apply Hhigh; lia.
        + apply Hlow; [lia|done].
      - intros. apply Hhigh; lia. }
    destruct (lookup_lt_is_Some_2 Qrow k) as [q Hq]; [lia|].
    assert (at2 Qij i k = Ok q) as -> by (apply at2_Ok; eauto).
    cbn [bind]. rewrite (index_lookup _ _ _ HR). cbn [bind].
    rewrite setitem_lt by lia.
    eexists. split; [done|]. rewrite length_insert. split; [done|]. split.
    + intros j q' Hj Hq'. destruct (decide (j = k)) as [->|].
      * rewrite list_lookup_insert_eq by lia. rewrite Hq in Hq'.
        injection Hq' as <-. by rewrite decide_False.
      * rewrite list_lookup_insert_ne by done. apply Hlow; [lia|done].
    + intros j ? ?. rewrite list_lookup_insert_ne by lia. apply Hhigh; lia.
  - exists row. split; [done|]. split; [done|]. intros j q Hq.
    apply Hlow; [|done]. apply lookup_lt_Some in Hq. lia.
Qed.

End Kernel_facts.

(** ** Rate matrices *)

Section Rate_matrix_facts.
Import Dense Model Sample.
Local Open Scope Qc_scope.

Lemma make_mcmc_quantities_Qij (self : MMVT_data_sample) (q : mcmc_quantities)
    (Q : ndarray Qc) :
  make_mcmc_quantities self = Ok q → Q ∈ mmvt_Qij_alpha q →
  ∃ Nij Ri, Qij_alpha_rule (num_milestones (model self)) Nij Ri = Ok Q.
Proof.
  unfold make_mcmc_quantities.
  destruct (N_alpha_beta self), (k_alpha_beta self), (N_i_j_alpha self),
    (R_i_alpha self), (T_alpha self); try discriminate.
  intros H. inv_ok H. destruct a0 as [[[invT Ns] Rs] Qs]. inv_ok H.
  injection H as <-. cbn [mmvt_Qij_alpha].
  revert Q.
  change (∀ Q, Q ∈ (invT, Ns, Rs, Qs).2 →
          ∃ Nij Ri, Qij_alpha_rule (num_milestones (model self)) Nij Ri = Ok Q).
  apply (foldlM_seq_inv (mcmc_anchor_step self l l0 l1)
           (λ _ st, ∀ Q, Q ∈ st.2 →
              ∃ Nij Ri, Qij_alpha_rule (num_milestones (model self)) Nij Ri = Ok Q)
           0 (num_anchors (model self)) (0, [], [], [])); [| |done].
  - intros Q HQ. cbn in HQ. by apply elem_of_nil in HQ.
  - intros k [[[invT' Ns'] Rs'] Qs'] s' _ IH Hstep. unfold mcmc_anchor_step in Hstep.
    inv_ok Hstep. revert Hstep. destruct (bulkstate _); intros Hstep;
      [by injection Hstep as <-|].
    inv_ok Hstep. injection Hstep as <-. cbn [snd].
    intros Q [HQ|HQ%list_elem_of_singleton]%elem_of_app; [by apply IH|].
    subst Q. eauto.
Qed.

(** C2.  Every computed rate matrix, the global one of [mmvt_Q_N_R] and
    each per-anchor [mmvt_Qij_alpha] of [make_mcmc_quantities], is square
    over the milestones and each of its rows sums to zero: the diagonal
    entry is the negated sum of the off-diagonal entries of its row. *)
Theorem rate_matrix_rows_sum_to_zero (n_milestones : nat) (Q : ndarray Qc) :
  (∃ n_anchors N_i_j_alpha R_i_alpha_total T_alpha_total T pi_alpha Nij Ri,
     mmvt_Q_N_R n_milestones n_anchors N_i_j_alpha R_i_alpha_total
       T_alpha_total T pi_alpha = Ok (Nij, Ri, Q)) ∨
  (∃ self q, make_mcmc_quantities self = Ok q ∧
     n_milestones = num_milestones (model self) ∧ Q ∈ mmvt_Qij_alpha q) →
  length Q = n_milestones ∧
  ∀ i row, Q !! i = Some row →
    length row = n_milestones ∧ qsum row = 0 ∧
    ∃ d, row !! i = Some d ∧ d = - qsum (<[i := 0]> row).
Proof.
  assert (∀ i (row : list Qc), (i < length row)%nat → qsum row = 0 →
            ∃ d, row !! i = Some d ∧ d = - qsum (<[i := 0]> row)) as Hdiag.
  { intros i row Hi Hsum. destruct (lookup_lt_is_Some_2 row i) as [d Hd]; [done|].
    exists d. split; [done|]. rewrite (qsum_insert _ _ d) by done.
    rewrite Hsum. ring. }
  intros [(n_anchors & N & R & Ta & T & pi & Nij & Ri & H)|(self & q & H & -> & HQ)].
  - unfold mmvt_Q_N_R in H.
    apply bind_Ok in H as (st & _ & H).
    apply bind_Ok in H as (Q' & HQ' & H). injection H as _ _ <-.
    destruct (mmvt_Q_of_rows _ _ _ _ HQ') as [Hlen Hrows]. split; [done|].
    intros i row Hrow. destruct (Hrows _ _ Hrow) as [Hl Hs].
    repeat split; [done..|]. apply Hdiag; [|done].
    apply lookup_lt_Some in Hrow. lia.
  - destruct (make_mcmc_quantities_Qij _ _ _ H HQ) as (Nij & Ri & HQij).
    destruct (Qij_alpha_rule_rows _ _ _ _ HQij) as [Hlen Hrows]. split; [done|].
    intros i row Hrow. destruct (Hrows _ _ Hrow) as [Hl Hs].
    repeat split; [done..|]. apply Hdiag; [|done].
    apply lookup_lt_Some in Hrow. lia.
Qed.

(** In any arithmetic, for an [Ri] of entries [> 0.0] and an n-by-n
    [Nij], the per-anchor rule gives a [Qij], and [make_new_Nij_alpha]
    returns on it the array of the products of the quotients with the
    incubation times, with zeros on the diagonal. *)
Lemma make_new_Nij_alpha_products {F} `{Arith F} (n : nat) (Nij : ndarray F)
    (Ri : list F) :
  length Nij = n →
  (∀ i row, Nij !! i = Some row → length row = n) →
  length Ri = n →
  (∀ i r, Ri !! i = Some r → fgt0 r = true) →
  ∃ Qij out,
    Qij_alpha_rule n Nij Ri = Ok Qij ∧ make_new_Nij_alpha Qij Ri = Ok out ∧
    length out = n ∧ (∀ i row, out !! i = Some row → length row = n) ∧
    ∀ i j Nrow x r,
      Nij !! i = Some Nrow → Nrow !! j = Some x → Ri !! i = Some r →
      out !! i ≫= (.!! j)
      = Some (if decide (i = j) then fzero else fmul (fdiv x r) r).
Proof.
  intros HlN HN HlR HR.
  assert (∀ i, (i < n)%nat → ∃ Nrow r row,
            Nij !! i = Some Nrow ∧ Ri !! i = Some r ∧
            Qij_alpha_row n Nij Ri i = Ok row ∧ length row = n ∧
            ∀ j x, j ≠ i → Nrow !! j = Some x → row !! j = Some (fdiv x r))
    as Hrow.
  { intros i Hi.
    destruct (lookup_lt_is_Some_2 Nij i) as [Nrow HNrow]; [lia|].
    destruct (lookup_lt_is_Some_2 Ri i) as [r Hr]; [lia|].
    destruct (Qij_alpha_row_entries n Nij Ri Nrow i r) as (row & ? & ? & ?);
      eauto.
    by exists Nrow, r, row. }
  destruct (mapM_seq_total (Qij_alpha_row n Nij Ri) 0 n) as [Qij HQij].
  { intros k [_ Hk]. destruct (Hrow k Hk) as (? & ? & row & ? & ? & ? & ?).
    by exists row. }
  pose proof HQij as [HlQ HQrows]%mapM_seq_inv.
  assert (∀ i, (i < n)%nat → ∃ Qrow r orow,
            Qij !! i = Some Qrow ∧ Ri !! i = Some r ∧ length orow = n ∧
            foldlM (make_new_Nij_alpha_step Qij Ri i) (seq 0 n) (zeros n)
            = Ok orow ∧
            ∀ j q, Qrow !! j = Some q →
              orow !! j = Some (if decide (i = j) then fzero else fmul q r))
    as Hout.
  { intros i Hi.
    destruct (lookup_lt_is_Some_2 Qij i) as [Qrow HQrow]; [lia|].
    destruct (Hrow i Hi) as (Nrow & r & row & _ & Hr & Hq & Hl & _).
    pose proof (HQrows _ _ HQrow) as Hq'. simpl in Hq'.
    rewrite Hq in Hq'. injection Hq' as <-.
    destruct (make_new_Nij_alpha_row n Qij Ri row i r) as (orow & ? & ? & ?);
      try done.
    by exists row, r, orow. }
  destruct (mapM_seq_total
              (λ i, foldlM (make_new_Nij_alpha_step Qij Ri i) (seq 0 n) (zeros n))
              0 n) as [out Hmk].
  { intros k [_ Hk]. destruct (Hout k Hk) as (? & ? & orow & ? & ? & ? & ? & ?).
    by exists orow. }
  exists Qij, out. split; [done|].
  unfold make_new_Nij_alpha. rewrite HlQ. split; [done|].
  apply mapM_seq_inv in Hmk as [HlO HOrows]. split; [done|]. split.
  - intros i orow Horow.
    assert (i < n)%nat as Hi by (apply lookup_lt_Some in Horow; lia).
    destruct (Hout i Hi) as (_ & _ & orow' & _ & _ & Hl & Hm & _).
    pose proof (HOrows _ _ Horow) as Hm'. simpl in Hm'.
    rewrite Hm in Hm'. by injection Hm' as <-.
  - intros i j Nrow x r HNrow Hx Hr.
    assert (i < n)%nat as Hi by (apply lookup_lt_Some in HNrow; lia).
    destruct (lookup_lt_is_Some_2 out i) as [orow Horow]; [lia|].
    rewrite Horow. cbn.
    destruct (Hout i Hi) as (Qrow & r' & orow' & HQrow & Hr' & _ & Hm & Hent).
    pose proof (HOrows _ _ Horow) as Hm'. simpl in Hm'.
    rewrite Hm in Hm'. injection Hm' as <-.
    rewrite Hr in Hr'. injection Hr' as <-.
    destruct (Hrow i Hi) as (Nrow' & r' & row & HNrow' & Hr' & Hq & Hl & Hq_ent).
    rewrite HNrow in HNrow'. injection HNrow' as <-.
    rewrite Hr in Hr'. injection Hr' as <-.
    pose proof (HQrows _ _ HQrow) as Hq'. simpl in Hq'.
    rewrite Hq in Hq'. injection Hq' as <-.
    destruct (decide (i = j)) as [<-|Hij].
    + destruct (lookup_lt_is_Some_2 row i) as [q Hqi]; [lia|].
      rewrite (Hent _ _ Hqi). by rewrite decide_True.
    + rewrite (Hent j (fdiv x r)); [by rewrite decide_False|].
      apply Hq_ent; [done|done].
Qed.

(** C10.  In the arithmetic the arrays are in, binary64 or exact, for an
    [Ri] of entries [> 0.0] and an n-by-n [Nij],
    [make_new_Nij_alpha(Qij, Ri)] returns zeros on the diagonal and, off
    it, the product [(Nij[i,j] / Ri[i]) * Ri[i]] as that arithmetic
    computes it.  Over exact rationals, and for [Nij] of zero diagonal,
    this is [Nij]. *)
Theorem make_new_Nij_alpha_round_trip :
  (∀ (F : Type) (A : Arith F) (n : nat) (Nij : ndarray F) (Ri : list F),
     length Nij = n →
     (∀ i row, Nij !! i = Some row → length row = n) →
     length Ri = n →
     (∀ i r, Ri !! i = Some r → fgt0 r = true) →
     ∃ Qij out,
       Qij_alpha_rule n Nij Ri = Ok Qij ∧ make_new_Nij_alpha Qij Ri = Ok out ∧
       length out = n ∧ (∀ i row, out !! i = Some row → length row = n) ∧
       ∀ i j Nrow x r,
         Nij !! i = Some Nrow → Nrow !! j = Some x → Ri !! i = Some r →
         out !! i ≫= (.!! j)
         = Some (if decide (i = j) then fzero else fmul (fdiv x r) r)) ∧
  (∀ (n : nat) (Nij : ndarray Qc) (Ri : list Qc),
     length Nij = n →
     (∀ i row, Nij !! i = Some row → length row = n ∧ row !! i = Some 0) →
     length Ri = n →
     (∀ i r, Ri !! i = Some r → 0 < r) →
     ∃ Qij, Qij_alpha_rule n Nij Ri = Ok Qij ∧ make_new_Nij_alpha Qij Ri = Ok Nij).
Proof.
  split; [intros F A; apply make_new_Nij_alpha_products|].
  intros n Nij Ri HlN HN HlR HR.
  destruct (make_new_Nij_alpha_products n Nij Ri)
    as (Qij & out & HQ & Hout & Hl & Hrows & Hent); try done.
  { intros i row Hrow. by destruct (HN _ _ Hrow). }
  { intros i r Hr. apply fgt0_Qc. by apply (HR i). }
  exists Qij. split; [done|]. rewrite Hout. f_equal.
  apply list_eq. intros i.
  destruct (decide (i < n)%nat) as [Hi|Hi];
    [|rewrite !lookup_ge_None_2; [done|lia..]].
  destruct (lookup_lt_is_Some_2 out i) as [orow Horow]; [lia|].
  destruct (lookup_lt_is_Some_2 Nij i) as [Nrow HNrow]; [lia|].
  destruct (lookup_lt_is_Some_2 Ri i) as [r Hr]; [lia|].
  rewrite Horow, HNrow. f_equal.
  destruct (HN _ _ HNrow) as [HlNrow Hdiag].
  pose proof (Hrows _ _ Horow) as Hlorow.
  apply list_eq. intros j.
  destruct (decide (j < n)%nat) as [Hj|Hj];
    [|rewrite !lookup_ge_None_2; [done|lia..]].
  destruct (lookup_lt_is_Some_2 Nrow j) as [x Hx]; [lia|].
  pose proof (Hent i j Nrow x r HNrow Hx Hr) as He.
  rewrite Horow in He. cbn in He. rewrite He, Hx. f_equal.
  destruct (decide (i = j)) as [<-|Hij].
  - rewrite Hdiag in Hx. by injection Hx as <-.
  - pose proof (HR _ _ Hr) as Hpos. cbn. field.
    intros ->. by apply Qclt_not_eq in Hpos.
Qed.

End Rate_matrix_facts.

Section Rate_matrix_examples.
Import Dense Model Sample Examples.
Local Open Scope Qc_scope.

Lemma rate_matrix_rows_witness :
  (length chain_Q_global = 2%nat ∧
   ∀ i row, chain_Q_global !! i = Some row →
     length row = 2%nat ∧ qsum row = 0 ∧
     ∃ d, row !! i = Some d ∧ d = - qsum (<[i := 0]> row)) ∧
  (length chain_Q_anchor_1 = 2%nat ∧
   ∀ i row, chain_Q_anchor_1 !! i = Some row →
     length row = 2%nat ∧ qsum row = 0 ∧
     ∃ d, row !! i = Some d ∧ d = - qsum (<[i := 0]> row)).
Proof.
  split; apply rate_matrix_rows_sum_to_zero.
  - left. exists 2%nat, (mmvt_Nij_alpha chain_quantities),
      (mmvt_Ri_alpha chain_quantities), [Qc_of_Z 10; Qc_of_Z 10],
      (Qc_of_Z 10), (pi_alpha chain_sample).
    eexists _, _. vm_compute. reflexivity.
  - right. exists chain_sample, chain_quantities.
    split; [vm_compute; reflexivity|]. split; [reflexivity|].
    apply list_elem_of_lookup. exists 1%nat. vm_compute. reflexivity.
Defined.

Lemma make_new_Nij_alpha_round_trip_witness :
  (∃ Qij out,
     Qij_alpha_rule 2 float_Nij float_Ri = Ok Qij ∧
     make_new_Nij_alpha Qij float_Ri = Ok out ∧
     out !! 0%nat ≫= (.!! 1%nat) = Some (PrimFloat.mul (PrimFloat.div 1 49) 49)) ∧
  (∃ Qij, Qij_alpha_rule 2 [[0; Qc_of_Z 4]; [Qc_of_Z 4; 0]] [Qc_of_Z 5; Qc_of_Z 5]
            = Ok Qij ∧
          make_new_Nij_alpha Qij [Qc_of_Z 5; Qc_of_Z 5]
            = Ok [[0; Qc_of_Z 4]; [Qc_of_Z 4; 0]]).
Proof.
  split.
  - destruct (proj1 make_new_Nij_alpha_round_trip float _ 2%nat float_Nij float_Ri)
      as (Qij & out & HQ & Hout & _ & _ & Hent).
    + reflexivity.
    + intros [|[|i]] row [= <-]; reflexivity.
    + reflexivity.
    + intros [|[|i]] r [= <-]; reflexivity.
    + exists Qij, out. split; [done|]. split; [done|].
      apply (Hent 0%nat 1%nat [0; 1]%float 1%float 49%float); reflexivity.
  - apply (proj2 make_new_Nij_alpha_round_trip).
    + reflexivity.
    + intros [|[|i]] row [= <-]; by split.
    + reflexivity.
    + intros [|[|i]] r [= <-]; reflexivity.
Defined.

(** C10 as stated fails in the arithmetic the code runs in: with one count
    over an incubation time of 49, binary64 gives 1/49*49 < 1. *)
Lemma make_new_Nij_alpha_rounds :
  ∃ Qij out,
    Qij_alpha_rule 2 float_Nij float_Ri = Ok Qij ∧
    make_new_Nij_alpha Qij float_Ri = Ok out ∧
    out = [[0; 0x1.fffffffffffffp-1]; [0; 0]]%float ∧
    out ≠ float_Nij.
Proof.
  eexists _, _. split; [vm_compute; reflexivity|].
  split; [vm_compute; reflexivity|]. split; [reflexivity|].
  intros H. apply (f_equal (λ M, match M with
                                 | [_; x] :: _ => PrimFloat.eqb x 1
                                 | _ => true
                                 end)) in H.
  vm_compute in H. discriminate.
Qed.

(** The quotient can overflow as well: 1e300 over an incubation time of
    1e-10 is infinity in binary64, and so is the product.  The two numbers
    are written as the binary64 values Python reads them as. *)
Example make_new_Nij_alpha_overflows :
  ∃ Qij out,
    Qij_alpha_rule 2 [[0; 0x1.7e43c8800759cp+996]; [0; 0]]%float
      [0x1.b7cdfd9d7bdbbp-34; 1]%float = Ok Qij ∧
    make_new_Nij_alpha Qij [0x1.b7cdfd9d7bdbbp-34; 1]%float = Ok out ∧
    out = [[0; infinity]; [0; 0]]%float.
Proof.
  eexists _, _. split; [vm_compute; reflexivity|].
  split; [vm_compute; reflexivity|]. reflexivity.
Qed.

End Rate_matrix_examples.

(** ** The stationary anchor distribution *)

Section Pi_alpha_facts.
Import Dense Model Sample.
Local Open Scope Qc_scope.

(** The entries of [pi_alpha] at anchors that are not the bulk, when the
    bulk is the last anchor, are all but the last entry. *)
Lemma non_bulk_entries_bulk_last (m : Model.t) (init : list Anchor)
    (b : Anchor) (ps : list Qc) (p : Qc) :
  anchors m = init ++ [b] → bulkstate b = true →
  Forall (λ a, bulkstate a = false) init → length ps = length init →
  non_bulk_entries m (ps ++ [p]) = ps.
Proof.
  intros Hm Hb Hinit Hlen. unfold non_bulk_entries. rewrite Hm.
  rewrite zip_with_app by done. rewrite concat_app. simpl. rewrite Hb. simpl.
  rewrite app_nil_r. clear Hb Hm.
  revert ps Hlen. induction Hinit as [|a init Ha _ IH]; intros [|q ps] Hlen;
    simpl in *; try done.
  rewrite Ha. simpl. f_equal. apply IH. lia.
Qed.

(** A sum that is finite has finite terms only; a sum that is an infinity
    has this infinity among its terms. *)
Lemma foldl_xadd_Fin (l : list xQc) (a : xQc) (s : Qc) :
  foldl xadd a l = Fin s →
  ∃ a' qs, a = Fin a' ∧ l = Fin <$> qs ∧ s = a' + qsum qs.
Proof.
  revert a. induction l as [|x l IH]; intros a; cbn.
  - intros ->. exists s, []. rewrite qsum_nil. repeat split. ring.
  - intros (a' & qs & Ha & -> & ->)%IH.
    destruct a as [qa| | |], x as [qx| | |]; try done.
    injection Ha as <-. exists qa, (qx :: qs).
    rewrite qsum_cons. repeat split. ring.
Qed.

Lemma xsum_Fin (l : list xQc) (s : Qc) :
  xsum l = Fin s → ∃ qs, l = Fin <$> qs ∧ qsum qs = s.
Proof.
  intros (a' & qs & [= <-] & -> & ->)%foldl_xadd_Fin.
  exists qs. split; [done|]. ring.
Qed.

Lemma foldl_xadd_PInf (l : list xQc) (a : xQc) :
  foldl xadd a l = PInf → a = PInf ∨ PInf ∈ l.
Proof.
  revert a. induction l as [|x l IH]; intros a; cbn; [by left|].
  intros [Ha|Hin]%IH; [|right; by right].
  destruct a as [qa| | |], x as [qx| | |]; try done;
    (by left) || (right; by left).
Qed.

Lemma foldl_xadd_NInf (l : list xQc) (a : xQc) :
  foldl xadd a l = NInf → a = NInf ∨ NInf ∈ l.
Proof.
  revert a. induction l as [|x l IH]; intros a; cbn; [by left|].
  intros [Ha|Hin]%IH; [|right; by right].
  destruct a as [qa| | |], x as [qx| | |]; try done;
    (by left) || (right; by left).
Qed.

(** The normalisation: every entry divided by the sum, the last entry
    being zero.  Either the sum is a number other than zero, or the
    quotients hold a nan. *)
Lemma normalised (front : list xQc) :
  let pi_alpha := front ++ [Fin 0] in
  let pi := map (λ p, xdiv false p (xsum pi_alpha)) pi_alpha in
  NaN ∈ pi ∨ ∃ ps, pi = Fin <$> (ps ++ [0]) ∧ qsum ps = 1.
Proof.
  intros pi_alpha pi. unfold pi.
  assert (Fin 0 ∈ pi_alpha) as Hlast by (apply elem_of_app; right; by left).
  destruct (xsum pi_alpha) as [s| | |] eqn:Hsum.
  - apply xsum_Fin in Hsum as (qs & Hqs & Hs).
    destruct (decide (s = 0)) as [->|Hz].
    { left. apply list_elem_of_fmap. exists (Fin 0). split; [|done].
      cbn. by rewrite !decide_True. }
    right. unfold pi_alpha in Hqs. symmetry in Hqs.
    apply fmap_app_inv in Hqs as (ps & last & -> & Hl & ->).
    destruct last as [|z [|? ?]]; try done. injection Hl as <-.
    exists (map (λ p, p / s) ps). split.
    + change (map ?f ?l) with (f <$> l). unfold pi_alpha.
      rewrite !fmap_app, <- !list_fmap_compose. f_equal.
      * apply list_fmap_ext. intros i p _. cbn. by rewrite decide_False.
      * cbn. rewrite decide_False by done. do 2 f_equal. unfold Qcdiv. ring.
    + rewrite qsum_map_div. rewrite qsum_app, qsum_cons, qsum_nil in Hs.
      subst s. field. intros Hps. apply Hz. rewrite Hps. ring.
  - left. apply foldl_xadd_PInf in Hsum as [[=]|Hin].
    apply list_elem_of_fmap. by exists PInf.
  - left. apply foldl_xadd_NInf in Hsum as [[=]|Hin].
    apply list_elem_of_fmap. by exists NInf.
  - left. apply list_elem_of_fmap. by exists (Fin 0).
Qed.

(** The last two steps of the refinement: the last entry is set to zero
    and every entry divided by the sum. *)
Lemma refine_pi_alpha_normalised (n : nat) (flux_matrix : ndarray Qc)
    (pi0 : list Qc) (pi : list xQc) :
  refine_pi_alpha n flux_matrix pi0 = Ok pi →
  length pi = length pi0 ∧
  (NaN ∈ pi ∨ ∃ ps, pi = Fin <$> (ps ++ [0]) ∧ qsum ps = 1).
Proof.
  unfold refine_pi_alpha. intros H.
  apply bind_Ok in H as (slice & _ & H).
  apply bind_Ok in H as (K & _ & H).
  apply bind_Ok in H as (pi1 & Hpi1 & H).
  apply bind_Ok in H as (pi2 & [Hlt ->]%setitem_Ok & [= <-]).
  assert (length pi1 = length pi0) as Hlen.
  { eapply (foldlM_inv _ (λ l : list xQc, length l = length pi0));
      [| |exact Hpi1]; [by rewrite length_map|].
    intros s i s' Hs Hstep. cbv beta in Hstep. inv_ok Hstep.
    apply setitem_Ok in Hstep as [_ ->]. by rewrite length_insert. }
  split; [by rewrite length_map, length_insert|].
  clear Hpi1. destruct pi1 as [|x front _] using rev_ind;
    [simpl in Hlt; lia|].
  rewrite length_app. simpl.
  replace (length front + 1 - 1)%nat with (length front + 0)%nat by lia.
  rewrite insert_app_r. simpl. apply normalised.
Qed.

Section Solver.
Variable solve : ndarray Qc → list Qc → result (list Qc).
(** The solution has the shape of the right-hand side. *)
Hypothesis solve_shape :
  ∀ A b x, length A = length b → solve A b = Ok x → length x = length b.

(** C1, for a model that lists its bulk anchor last.  When
    [calculate_pi_alpha] returns, either [pi_alpha] holds a nan, or all
    its entries are finite, the entry at the bulk anchor is 0 and the
    entries at the other anchors sum to 1. *)
Theorem calculate_pi_alpha_bulk_last (self : MMVT_data_sample)
    (init : list Anchor) (b : Anchor) (pi : list xQc) :
  num_anchors (model self) = length (anchors (model self)) →
  anchors (model self) = init ++ [b] →
  bulkstate b = true →
  Forall (λ a, bulkstate a = false) init →
  calculate_pi_alpha solve self = Ok pi →
  length pi = num_anchors (model self) ∧
  (NaN ∈ pi ∨
   ∃ ps, pi = Fin <$> ps ∧
     (∀ alpha a, anchors (model self) !! alpha = Some a →
                 bulkstate a = true → ps !! alpha = Some 0) ∧
     qsum (non_bulk_entries (model self) ps) = 1).
Proof.
  intros Hn Hanchors Hb Hinit. unfold calculate_pi_alpha.
  destruct (k_alpha_beta self) as [k|]; [|done]. intros H.
  apply bind_Ok in H as ([flux bulk_index] & _ & H).
  apply bind_Ok in H as (prob_equil & [_ ->]%setitem_Ok & H).
  apply bind_Ok in H as (x & Hx%solve_shape & H).
  2:{ unfold transpose. by rewrite length_map, length_seq, length_insert, length_zeros. }
  rewrite length_insert, length_zeros in Hx.
  apply refine_pi_alpha_normalised in H as [Hlen Hpi].
  rewrite length_map, Hx in Hlen. split; [done|].
  destruct Hpi as [Hnan|(ps & -> & Hsum)]; [by left|]. right.
  exists (ps ++ [0]). split; [done|].
  rewrite length_fmap in Hlen.
  assert (length ps = length init) as Hps.
  { rewrite Hn, Hanchors, !length_app in Hlen. simpl in Hlen. lia. }
  split.
  - rewrite Hanchors. intros alpha a Ha Hbulk.
    destruct (decide (alpha < length init)%nat) as [Hlt|Hge].
    + rewrite lookup_app_l in Ha by done.
      rewrite Forall_lookup in Hinit. rewrite (Hinit _ _ Ha) in Hbulk. done.
    + assert (alpha = length init) as ->.
      { apply lookup_lt_Some in Ha. rewrite length_app in Ha. simpl in Ha. lia. }
      rewrite <- Hps. by rewrite list_lookup_middle.
  - by rewrite (non_bulk_entries_bulk_last _ init b).
Qed.

End Solver.

Lemma Scipy_solve_shape (A : ndarray Qc) (b x : list Qc) :
  length A = length b → Scipy.solve A b = Ok x → length x = length b.
Proof.
  intros Hlen. unfold Scipy.solve. intros H.
  apply bind_Ok in H as (rows & Hrows & [= <-]). rewrite length_map.
  eapply (foldlM_inv _ (λ rows : ndarray Qc, length rows = length b));
    [| |exact Hrows].
  - rewrite length_zip_with. lia.
  - intros s c s' Hs Hstep. unfold Scipy.eliminate_column in Hstep.
    destruct (list_find _ _) as [[p prow]|]; [|done].
    apply bind_Ok in Hstep as (crow & _ & [= <-]).
    by rewrite length_imap, !length_insert.
Qed.

Import Examples.

Lemma calculate_pi_alpha_bulk_last_witness :
  length chain_pi = num_anchors (model chain_sample) ∧
  (NaN ∈ chain_pi ∨
   ∃ ps, chain_pi = Fin <$> ps ∧
     (∀ alpha a, anchors (model chain_sample) !! alpha = Some a →
                 bulkstate a = true → ps !! alpha = Some 0) ∧
     qsum (non_bulk_entries (model chain_sample) ps) = 1).
Proof.
  apply (calculate_pi_alpha_bulk_last Scipy.solve Scipy_solve_shape chain_sample
           (take 2 (anchors chain_model))
           {| anchor_index := 2; bulkstate := true;
              milestones := [milestone 1 1 1] |}).
  - reflexivity.
  - reflexivity.
  - reflexivity.
  - repeat constructor.
  - vm_compute. reflexivity.
Defined.

(** On the example every entry is finite: [pi_alpha] is [2/3, 1/3, 0]. *)
Example calculate_pi_alpha_chain :
  chain_pi = [Fin (Q2Qc (Qmake 2 3)); Fin (Q2Qc (Qmake 1 3)); Fin 0].
Proof. by_compute. Qed.

(** One cell next to the bulk: the flux matrix has [-0.0] on the
    diagonal at the cell, the refinement divides 0 by it, and
    [calculate_pi_alpha] returns nan in both entries. *)
Example calculate_pi_alpha_one_cell :
  build_flux_matrix one_cell_model ∅
  = Ok ([[0; 1]; [Qc_of_Z (10 ^ 30); 1]], 1%nat) ∧
  calculate_pi_alpha Scipy.solve (with_k one_cell_model ∅) = Ok [NaN; NaN].
Proof. split; vm_compute; reflexivity. Qed.

(** C1 as stated fails on a model that lists its one bulk anchor first:
    the solver's answer solves the system, [calculate_pi_alpha] returns,
    and [pi_alpha] is 3 at the bulk anchor and sums to -2 over the
    others. *)
Lemma calculate_pi_alpha_bulk_first :
  ∃ flux x pi,
    build_flux_matrix bulk_first_model bulk_first_k = Ok (flux, 0%nat) ∧
    Scipy.solve (transpose 4 flux) [1; 0; 0; 0] = Ok x ∧
    matvec (transpose 4 flux) x = [1; 0; 0; 0] ∧
    calculate_pi_alpha Scipy.solve (with_k bulk_first_model bulk_first_k)
    = Ok (Fin <$> pi) ∧
    pi = [Qc_of_Z 3; Qc_of_Z (-1); Qc_of_Z (-1); 0] ∧
    pi !! 0%nat ≠ Some 0 ∧
    qsum (non_bulk_entries bulk_first_model pi) ≠ 1.
Proof.
  exists (value ([], 0%nat) (build_flux_matrix bulk_first_model bulk_first_k)).1.
  exists (value [] (Scipy.solve
            (transpose 4 (value ([], 0%nat)
               (build_flux_matrix bulk_first_model bulk_first_k)).1)
            [1; 0; 0; 0])).
  exists (value []
            (pi <- calculate_pi_alpha Scipy.solve
                     (with_k bulk_first_model bulk_first_k) ;;
             finite pi)).
  split; [vm_compute; reflexivity|].
  split; [vm_compute; reflexivity|].
  split; [by_compute|].
  split; [vm_compute; reflexivity|].
  split; [by_compute|].
  split; by_compute.
Qed.

End Pi_alpha_facts.

(** ** The global statistics *)

Section Fill_out_facts.
Import Dense Model Sample.
Local Open Scope Qc_scope.

Lemma getitem_default_insert {K} `{Countable K} (d : gmap K Qc) (k k' : K) (v : Qc) :
  getitem_default (<[k := v]> d) k' = if decide (k = k') then v else getitem_default d k'.
Proof. unfold getitem_default. rewrite lookup_insert. by case_decide. Qed.

Lemma getitem_default_empty {K} `{Countable K} (k : K) :
  getitem_default (∅ : gmap K Qc) k = 0.
Proof. unfold getitem_default. by rewrite lookup_empty. Qed.

(** What one anchor adds to a global dictionary. *)
Lemma accumulate_Ok {K} `{Countable K} (time_fraction p : Qc) (msg : string)
    (d acc acc' : gmap K Qc) :
  accumulate time_fraction p msg d acc = Ok acc' →
  ∀ key, getitem_default acc' key
         = getitem_default acc key + time_fraction * p * getitem_default d key.
Proof.
  unfold accumulate. revert acc'.
  apply (map_fold_weak_ind
           (λ r m, ∀ acc', r = Ok acc' →
              ∀ key, getitem_default acc' key
                     = getitem_default acc key
                       + time_fraction * p * getitem_default m key)).
  - intros acc' [= <-] key. rewrite getitem_default_empty. ring.
  - intros i x m r Hi IH acc' Hstep key. unfold accumulate_key in Hstep.
    apply bind_Ok in Hstep as (a & -> & Hstep).
    apply bind_Ok in Hstep as (? & _ & Hstep).
    apply bind_Ok in Hstep as (? & _ & Hstep).
    apply bind_Ok in Hstep as (? & _ & [= <-]).
    rewrite !getitem_default_insert. case_decide as Hk.
    + subst key. rewrite (IH a eq_refl i).
      assert (getitem_default m i = 0) as ->
        by (unfold getitem_default; by rewrite Hi).
      ring.
    + by apply IH.
Qed.

Lemma index_default {A} (l : list A) (i : nat) (a d : A) :
  index l i = Ok a → default d (l !! i) = a.
Proof. intros Hi%index_Ok. by rewrite Hi. Qed.

Lemma qdiv_Ok (x y z : Qc) : qdiv x y = Ok z ↔ y ≠ 0 ∧ z = x / y.
Proof.
  unfold qdiv. case_decide; split; try done.
  - by intros [].
  - by intros [= <-].
  - by intros [_ ->].
Qed.

(** The first loop adds up pi_alpha / T_alpha over the anchors that are
    not the bulk. *)
Lemma sum_pi_alpha_over_T_alpha_Ok (pi Ta : list Qc) (l : list Anchor)
    (a : nat) (acc s : Qc) :
  foldlM (sum_pi_alpha_over_T_alpha_step pi Ta) (enumerate_from a l) acc = Ok s →
  s = acc + qsum (map (λ alpha, default 0 (pi !! alpha) / default 0 (Ta !! alpha))
                      (non_bulk_from a l)).
Proof.
  revert a acc. induction l as [|x l IH]; intros a acc; simpl.
  - intros [= <-]. rewrite qsum_nil. ring.
  - intros (s1 & Hstep & Hrest)%bind_Ok. apply IH in Hrest as ->.
    destruct (bulkstate x); [by injection Hstep as <-|].
    apply bind_Ok in Hstep as (p & Hp & Hstep).
    apply bind_Ok in Hstep as (t & Ht & Hstep).
    apply bind_Ok in Hstep as (q & [_ ->]%qdiv_Ok & [= <-]).
    simpl. rewrite qsum_cons.
    rewrite (index_default _ _ _ 0 Hp), (index_default _ _ _ 0 Ht). ring.
Qed.

(** The second loop adds, for every key, T * pi_alpha / T_alpha times the
    anchor's statistic over the anchors that are not the bulk. *)
Lemma fill_out_loop_Ok (pi Ta : list Qc) (Ns : list (gmap (Z * Z) Qc))
    (Rs : list (gmap Z Qc)) (T : Qc) (l : list Anchor) (a : nat)
    (acc acc' : gmap (Z * Z) Qc * gmap Z Qc) :
  foldlM (fill_out_step pi Ta Ns Rs T) (enumerate_from a l) acc = Ok acc' →
  (∀ key, getitem_default acc'.1 key
          = getitem_default acc.1 key
            + qsum (map (λ alpha, T * default 0 (pi !! alpha)
                                  / default 0 (Ta !! alpha)
                                  * getitem_default (default ∅ (Ns !! alpha)) key)
                        (non_bulk_from a l))) ∧
  (∀ key, getitem_default acc'.2 key
          = getitem_default acc.2 key
            + qsum (map (λ alpha, T * default 0 (pi !! alpha)
                                  / default 0 (Ta !! alpha)
                                  * getitem_default (default ∅ (Rs !! alpha)) key)
                        (non_bulk_from a l))).
Proof.
  revert a acc. induction l as [|x l IH]; intros a acc; simpl.
  - intros [= <-]. rewrite qsum_nil. split; intros; ring.
  - intros (acc1 & Hstep & Hrest)%bind_Ok. apply IH in Hrest as [HN HR].
    destruct (bulkstate x); [by injection Hstep as <-|].
    apply bind_Ok in Hstep as (p & Hp & Hstep).
    apply bind_Ok in Hstep as (t & Ht & Hstep).
    apply bind_Ok in Hstep as (? & _ & Hstep).
    apply bind_Ok in Hstep as (tf & [Htz ->]%qdiv_Ok & Hstep).
    apply bind_Ok in Hstep as (N_a & HNa & Hstep).
    apply bind_Ok in Hstep as (N1 & HN1 & Hstep).
    apply bind_Ok in Hstep as (R_a & HRa & Hstep).
    case_decide; [done|].
    apply bind_Ok in Hstep as (R1 & HR1 & [= <-]).
    pose proof (accumulate_Ok _ _ _ _ _ _ HN1) as HaccN.
    pose proof (accumulate_Ok _ _ _ _ _ _ HR1) as HaccR.
    simpl in *.
    rewrite (index_default _ _ _ 0 Hp), (index_default _ _ _ 0 Ht).
    rewrite (index_default _ _ _ ∅ HNa), (index_default _ _ _ ∅ HRa).
    split; intros key; rewrite qsum_cons.
    + rewrite HN, HaccN. field. done.
    + rewrite HR, HaccR. field. done.
Qed.

(** C3.  When [fill_out_data_quantities] returns, [T] is the inverse of the
    sum over the non-bulk anchors of pi_alpha / T_alpha, and every
    [N_ij[(i,j)]] and [R_i[i]] is the sum over the non-bulk anchors of
    T * pi_alpha / T_alpha times the anchor's [N_i_j_alpha[(i,j)]] and
    [R_i_alpha[i]]; an anchor without the key adds nothing. *)
Theorem fill_out_data_quantities_sums (self self' : MMVT_data_sample)
    (Ns : list (gmap (Z * Z) Qc)) (Rs : list (gmap Z Qc)) (Ta : list Qc) :
  N_i_j_alpha self = Some Ns → R_i_alpha self = Some Rs → T_alpha self = Some Ta →
  fill_out_data_quantities self = Ok self' →
  T self' = / qsum (map (anchor_weight (pi_alpha self) Ta)
                        (non_bulk_indices (model self))) ∧
  (∀ i j, getitem_default (N_ij self') (i, j)
          = qsum (map (λ alpha, T self' * anchor_weight (pi_alpha self) Ta alpha
                                * getitem_default (default ∅ (Ns !! alpha)) (i, j))
                      (non_bulk_indices (model self)))) ∧
  (∀ i, getitem_default (R_i self') i
        = qsum (map (λ alpha, T self' * anchor_weight (pi_alpha self) Ta alpha
                              * getitem_default (default ∅ (Rs !! alpha)) i)
                    (non_bulk_indices (model self)))).
Proof.
  intros HNs HRs HTa. unfold fill_out_data_quantities.
  rewrite HNs, HRs, HTa.
  destruct (N_alpha_beta self), (k_alpha_beta self); try done.
  intros H.
  apply bind_Ok in H as (s & Hs%sum_pi_alpha_over_T_alpha_Ok & H).
  apply bind_Ok in H as (T' & [Hsz ->]%qdiv_Ok & H).
  apply bind_Ok in H as (? & _ & H).
  apply bind_Ok in H as (NR & [HN HR]%fill_out_loop_Ok & [= <-]). simpl.
  rewrite Qcplus_0_l in Hs. subst s. unfold non_bulk_indices, anchor_weight.
  split; [unfold Qcdiv; ring|]. split.
  - intros i j. rewrite HN. cbn [fst].
    rewrite getitem_default_empty, Qcplus_0_l. f_equal. apply map_ext. intros alpha.
    unfold Qcdiv. ring.
  - intros i. rewrite HR. cbn [snd].
    rewrite getitem_default_empty, Qcplus_0_l. f_equal. apply map_ext. intros alpha.
    unfold Qcdiv. ring.
Qed.

Import Examples.

Lemma fill_out_data_quantities_sums_witness :
  T chain_filled
  = / qsum (map (anchor_weight (pi_alpha chain_sample) chain_Ta)
                (non_bulk_indices (model chain_sample))) ∧
  (∀ i j, getitem_default (N_ij chain_filled) (i, j)
          = qsum (map (λ alpha, T chain_filled
                                * anchor_weight (pi_alpha chain_sample) chain_Ta alpha
                                * getitem_default (default ∅ (chain_Ns !! alpha)) (i, j))
                      (non_bulk_indices (model chain_sample)))) ∧
  (∀ i, getitem_default (R_i chain_filled) i
        = qsum (map (λ alpha, T chain_filled
                              * anchor_weight (pi_alpha chain_sample) chain_Ta alpha
                              * getitem_default (default ∅ (chain_Rs !! alpha)) i)
                    (non_bulk_indices (model chain_sample)))).
Proof.
  apply (fill_out_data_quantities_sums chain_sample chain_filled
           chain_Ns chain_Rs chain_Ta); [reflexivity..|].
  vm_compute. reflexivity.
Defined.

(** On the example: T = 10, N_ij[(0,1)] = 4/3, R_i[0] = 25/3. *)
Example fill_out_data_quantities_chain :
  T chain_filled = Qc_of_Z 10 ∧
  N_ij chain_filled !! (0%Z, 1%Z) = Some (Q2Qc (Qmake 4 3)) ∧
  R_i chain_filled !! 0%Z = Some (Q2Qc (Qmake 25 3)).
Proof. repeat split; by_compute. Qed.

End Fill_out_facts.

(** ** Merging the log files *)

Section Merge_facts.
Import Dense Reader.
Local Open Scope Qc_scope.

Lemma map_reverse {A B} (f : A → B) (l : list A) :
  map f (reverse l) = reverse (map f l).
Proof.
  induction l as [|x l IH]; [done|].
  simpl. rewrite !reverse_cons, map_app, IH. done.
Qed.

(** Without swarm files, the reading loop keeps the files that hold a
    record, each with its first time. *)
Lemma read_files_plain (files : list output_file) :
  Forall (λ f, swarm f = None) files →
  read_files files
  = (map (λ f, map Record_line (records f)) (non_empty_files files),
     map start_time_of (non_empty_files files)).
Proof.
  intros Hplain. unfold read_files.
  assert (∀ idx FL ST,
            foldl read_file (idx, FL, ST) files
            = (idx, FL ++ map (λ f, map Record_line (records f)) (non_empty_files files),
               ST ++ map start_time_of (non_empty_files files))) as ->; [|done].
  induction Hplain as [|f files Hf _ IH]; intros idx FL ST.
  - simpl. by rewrite !app_nil_r.
  - simpl. rewrite Hf. simpl. unfold non_empty_files.
    destruct (records f) as [|e evs] eqn:Hrec.
    + rewrite decide_True by done. rewrite filter_cons_False by (rewrite Hrec; auto).
      apply IH.
    + rewrite decide_False by done. rewrite filter_cons_True by (by rewrite Hrec).
      rewrite IH. simpl. rewrite <- !app_assoc. simpl.
      unfold start_time_of. by rewrite Hrec.
Qed.

(** The trimming loop on the records of a file, last record first. *)
Lemma pop_trailing_spec (rl : list event) (next : Qc) (c : Z) (r : list line) :
  pop_trailing (map Record_line rl) next c = Ok r →
  (c + Z.of_nat (length rl) ≤ MAX_ITER + 1)%Z →
  ∃ dropped e k,
    rl = dropped ++ e :: k ∧ r = map Record_line (e :: k) ∧
    Forall (λ d, next < dest_time d) dropped ∧ dest_time e ≤ next.
Proof.
  revert c. induction rl as [|e rest IH]; intros c; [done|].
  cbn [map pop_trailing]. case_decide as Hlate.
  - destruct rest as [|e' rest']; [done|]. cbn [map].
    intros H Hc. simpl in Hc.
    rewrite decide_False in H by lia.
    destruct (IH (c + 1)%Z H) as (dropped & e0 & k & Hrl & Hr & Hd & He);
      [simpl; lia|].
    exists (e :: dropped), e0, k. rewrite Hrl. split; [done|]. split; [done|].
    split; [by constructor|done].
  - intros [= <-] _. exists [], e, rest. split; [done|]. split; [done|].
    split; [constructor|]. by apply Qcnot_lt_le.
Qed.

Lemma trim_file_spec (evs : list event) (next : Qc) (out : list line) :
  evs ≠ [] → (Z.of_nat (length evs) ≤ MAX_ITER)%Z →
  trim_file (map Record_line evs) next = Ok out →
  ∃ kept, out = map Record_line kept ∧ trimmed_at next evs kept.
Proof.
  intros Hne Hlen. unfold trim_file.
  assert (last (map Record_line evs) ≠ Some NEW_SWARM) as Hlast.
  { destruct evs as [|e evs] using rev_ind; [done|].
    rewrite map_app. simpl. by rewrite last_snoc. }
  destruct (decide (last (map Record_line evs) = Some NEW_SWARM)) as [?|_];
    [done|].
  destruct (decide (map Record_line evs = [])) as [?|_]; [by destruct evs|].
  rewrite <- map_reverse. intros (r & Hr & [= <-])%bind_Ok.
  apply pop_trailing_spec in Hr as (dropped & e & k & Hrl & -> & Hd & He).
  2:{ rewrite length_reverse. lia. }
  exists (reverse k ++ [e]). split.
  - rewrite <- map_reverse. by rewrite reverse_cons.
  - exists (reverse k), e, (reverse dropped).
    split; [|split; [done|split; [by apply Forall_reverse|done]]].
    rewrite <- (reverse_involutive evs), Hrl, reverse_app, reverse_cons.
    by rewrite <- app_assoc.
Qed.

Lemma next_start_time_plain (fs : list output_file) (i : nat) :
  Forall (λ f, records f ≠ []) fs →
  next_start_time (map (λ f, map Record_line (records f)) fs)
    (map start_time_of fs) i
  = Ok (next_start_of (drop (S i) fs)).
Proof.
  intros Hne. unfold next_start_time. rewrite length_map.
  case_decide as Hi.
  - destruct (lookup_lt_is_Some_2 fs (S i)) as [f Hf]; [done|].
    rewrite (drop_S _ _ _ Hf). simpl.
    rewrite (index_lookup _ _ (map Record_line (records f)))
      by (by rewrite list_lookup_fmap, Hf).
    cbn [bind].
    rewrite Forall_lookup in Hne. specialize (Hne _ _ Hf).
    destruct (records f) as [|e evs] eqn:Hrec; [done|]. simpl.
    apply index_lookup. rewrite list_lookup_fmap, Hf. simpl.
    done.
  - by rewrite drop_ge by lia.
Qed.

Lemma restart_trimmed_lookup (fs : list output_file) (kepts : list (list event)) :
  length kepts = length fs →
  (∀ i kept, kepts !! i = Some kept →
     ∃ f, fs !! i = Some f ∧
          trimmed_at (next_start_of (drop (S i) fs)) (records f) kept) →
  restart_trimmed fs kepts.
Proof.
  revert kepts. induction fs as [|f fs IH]; intros [|kept kepts] Hlen Hall;
    try done; [constructor|].
  constructor.
  - by destruct (Hall 0%nat kept eq_refl) as (f' & [= <-] & Ht).
  - apply IH; [simpl in Hlen; lia|].
    intros i k Hk. apply (Hall (S i) k Hk).
Qed.

(** The merging loop with the restart check, on files without swarm
    markers. *)
Lemma merge_loop_plain (fs : list output_file) (lines : list line) :
  Forall (λ f, records f ≠ []) fs →
  Forall (λ f, (Z.of_nat (length (records f)) ≤ MAX_ITER)%Z) fs →
  foldlM (merge_step false (map (λ f, map Record_line (records f)) fs)
            (map start_time_of fs))
         (seq 0 (length fs)) [] = Ok lines →
  ∃ kepts, restart_trimmed fs kepts ∧ lines = map Record_line (concat kepts).
Proof.
  intros Hne Hlen Hloop.
  pose (P := λ (k : nat) (lines : list line),
          ∃ kepts, length kepts = k ∧ lines = map Record_line (concat kepts) ∧
            ∀ i kept, kepts !! i = Some kept →
              ∃ f, fs !! i = Some f ∧
                   trimmed_at (next_start_of (drop (S i) fs)) (records f) kept).
  assert (P (0 + length fs)%nat lines) as (kepts & Hk & -> & Hall).
  { eapply (foldlM_seq_inv _ P 0 (length fs) [] lines); [| |exact Hloop].
    - exists []. split; [done|]. split; [done|]. intros i kept. by rewrite lookup_nil.
    - unfold P. intros k s s' [_ Hk] (kepts & Hkl & -> & Hall) Hstep.
      unfold merge_step in Hstep.
      apply bind_Ok in Hstep as (fl & Hfl%index_Ok & Hstep).
      rewrite list_lookup_fmap in Hfl.
      destruct (fs !! k) as [f|] eqn:Hf; [|done]. injection Hfl as <-.
      rewrite Forall_lookup in Hne, Hlen.
      pose proof (Hne _ _ Hf) as Hnef. pose proof (Hlen _ _ Hf) as Hlenf.
      rewrite bool_decide_eq_false_2 in Hstep by (by destruct (records f)).
      cbn [negb andb] in Hstep.
      rewrite next_start_time_plain in Hstep by (by apply Forall_lookup).
      cbn [bind] in Hstep.
      apply bind_Ok in Hstep as (out & Hout & [= <-]).
      apply trim_file_spec in Hout as (kept & -> & Ht); [|done..].
      exists (kepts ++ [kept]). rewrite length_app. simpl. split; [lia|].
      split.
      + rewrite concat_app, !map_app. simpl. by rewrite app_nil_r.
      + intros i kept' Hi.
        destruct (decide (i < length kepts)%nat) as [Hlt|Hge].
        * rewrite lookup_app_l in Hi by done. by apply Hall.
        * assert (i = k) as ->.
          { apply lookup_lt_Some in Hi. rewrite length_app in Hi. simpl in Hi. lia. }
          rewrite <- Hkl, list_lookup_middle in Hi by done.
          injection Hi as <-. eauto. }
  exists kepts. split; [|done]. by apply restart_trimmed_lookup.
Qed.

Lemma nondecreasing_head (l : list event) (h e : event) :
  nondecreasing l → head l = Some h → e ∈ l → dest_time h ≤ dest_time e.
Proof.
  destruct l as [|x l]; [done|]. intros [Hall _]%StronglySorted_cons [= ->].
  intros [->|He]%elem_of_cons; [apply Qcle_refl|].
  rewrite Forall_forall in Hall. by apply Hall.
Qed.

(** Files in time order, trimmed against the first time of the next file,
    concatenate in time order. *)
Lemma restart_trimmed_sorted (fs : list output_file) (kepts : list (list event)) :
  restart_trimmed fs kepts →
  Forall (λ f, nondecreasing (records f)) fs →
  nondecreasing (concat kepts) ∧
  ∀ e, e ∈ concat kepts → next_start_of fs ≤ dest_time e.
Proof.
  induction 1 as [|f later kept kepts (k & e0 & dropped & Hrec & -> & Hd & He0) _ IH].
  - intros _. split; [constructor|]. intros e. simpl. by intros ?%elem_of_nil.
  - intros [Hf Hlater]%Forall_cons. destruct (IH Hlater) as [Hsorted Hlow].
    assert (records f = (k ++ [e0]) ++ dropped) as Hrec'
      by (by rewrite <- app_assoc).
    assert (∀ x, x ∈ k ++ [e0] → dest_time x ≤ dest_time e0) as Hup.
    { intros x [Hx|Hx%list_elem_of_singleton]%elem_of_app;
        [|subst x; apply Qcle_refl].
      unfold nondecreasing in Hf. rewrite Hrec in Hf.
      apply (StronglySorted_app_1_elem_of _ _ _ _ _ Hf Hx). by left. }
    assert (∀ x, x ∈ k ++ [e0] → start_time_of f ≤ dest_time x) as Hstart.
    { intros x Hx. unfold start_time_of.
      destruct (head (records f)) as [h|] eqn:Hh; [|by rewrite Hrec in Hh; destruct k].
      simpl. apply (nondecreasing_head (records f)); [done..|].
      rewrite Hrec'. apply elem_of_app. by left. }
    simpl. split.
    + apply StronglySorted_app_2; [| |done].
      * intros x1 x2 Hx1 Hx2.
        eapply Qcle_trans; [by apply Hup|].
        eapply Qcle_trans; [exact He0|by apply Hlow].
      * unfold nondecreasing in Hf. rewrite Hrec' in Hf.
        by apply StronglySorted_app_1_l in Hf.
    + intros e [Hx|Hx]%elem_of_app; [by apply Hstart|].
      eapply Qcle_trans; [apply (Hstart e0)|].
      * apply elem_of_app. right. by apply list_elem_of_singleton.
      * eapply Qcle_trans; [exact He0|by apply Hlow].
Qed.

(** C4, as the code has it.  With the restart check, for log files that
    carry no swarm marker and hold at most [MAX_ITER] records each: when
    the reader returns a merged sequence, every file that holds a record
    lost exactly its trailing records strictly later than the first time of
    the next such file (later than 1e99 for the last file), the record it
    ends with being not later than that time; a record at exactly the
    restart time is kept.  If time does not decrease within any file, it
    does not decrease in the merged sequence. *)
Theorem merge_files_restart_check (files : list output_file) (lines : list line) :
  Forall (λ f, swarm f = None) files →
  Forall (λ f, (Z.of_nat (length (records f)) ≤ MAX_ITER)%Z) files →
  merge_files false files = Ok lines →
  ∃ kepts,
    restart_trimmed (non_empty_files files) kepts ∧
    lines = map Record_line (concat kepts) ∧
    (Forall (λ f, nondecreasing (records f)) files → nondecreasing (concat kepts)).
Proof.
  intros Hplain Hlen. unfold merge_files. rewrite (read_files_plain _ Hplain).
  rewrite length_map. intros H.
  assert (Forall (λ f, records f ≠ []) (non_empty_files files)) as Hne.
  { apply Forall_forall. intros f Hf. by apply list_elem_of_filter in Hf as [? _]. }
  assert (∀ P : output_file → Prop, Forall P files → Forall P (non_empty_files files))
    as Hsub.
  { intros P HP. rewrite Forall_forall in HP. apply Forall_forall.
    intros f Hf. apply HP. by apply list_elem_of_filter in Hf as [_ ?]. }
  apply merge_loop_plain in H as (kepts & Htrim & ->); [|done|by apply Hsub].
  exists kepts. split; [done|]. split; [done|].
  intros Hsorted. by apply (restart_trimmed_sorted (non_empty_files files)); [|apply Hsub].
Qed.

Import Examples.

Lemma merge_files_restart_check_witness :
  ∃ kepts,
    restart_trimmed (non_empty_files [first_run; restarted_run]) kepts ∧
    map Record_line
      [event_at 1 0 1; event_at 2 1 3; event_at 2 0 3; event_at 1 1 4]
    = map Record_line (concat kepts) ∧
    (Forall (λ f, nondecreasing (records f)) [first_run; restarted_run] →
     nondecreasing (concat kepts)).
Proof.
  apply (merge_files_restart_check [first_run; restarted_run]).
  - by repeat constructor.
  - by repeat constructor.
  - vm_compute. reflexivity.
Defined.

(** C4 as stated fails: the record of the first file at time 3, the time at
    which the second file starts, is not discarded; the merged sequence
    holds two records at time 3. *)
Lemma merge_files_keeps_record_at_restart :
  ∃ e,
    records first_run !! 1%nat = Some e ∧
    start_time_of restarted_run ≤ dest_time e ∧
    (e ∉ records restarted_run) ∧
    merge_files false [first_run; restarted_run]
    = Ok (map Record_line
            [event_at 1 0 1; event_at 2 1 3; event_at 2 0 3; event_at 1 1 4]) ∧
    Record_line e ∈ map Record_line
            [event_at 1 0 1; event_at 2 1 3; event_at 2 0 3; event_at 1 1 4] ∧
    ¬ dest_time (event_at 2 1 3) < dest_time (event_at 2 0 3).
Proof.
  exists (event_at 2 1 3).
  split; [reflexivity|]. split; [by_compute|]. split; [by_compute|].
  split; [vm_compute; reflexivity|]. split; [by_compute|]. by_compute.
Qed.

(** When every record of a file is later than the restart, the trimming
    loop empties the list and looks at its last element. *)
Example merge_files_late_run :
  merge_files false [late_run; restarted_run] = Raise IndexError.
Proof. vm_compute. reflexivity. Qed.

End Merge_facts.

(** ** Scanning the merged lines *)

Section Scan_facts.
Import Dense Reader.
Local Open Scope Qc_scope.

(** Lines scanned without a [break] do not change how the rest is
    scanned. *)
Lemma scan_lines_app (skip : bool) (min_time max_time : option Qc)
    (pre rest : list line) (st0 st : scan) :
  scan_lines skip min_time max_time pre st0 = Ok (st, false) →
  scan_lines skip min_time max_time (pre ++ rest) st0
  = scan_lines skip min_time max_time rest st.
Proof.
  revert st0. induction pre as [|l pre IH]; intros st0; simpl.
  - by intros [= <-].
  - intros ([st1 stop] & Hl & H)%bind_Ok. rewrite Hl. simpl in *.
    destruct stop; [done|]. by apply IH.
Qed.

Lemma scan_line_src_behind (skip : bool) (min_time max_time : option Qc)
    (st st' : scan) (l : line) (stop : bool) :
  src_behind st →
  scan_line skip min_time max_time st l = Ok (st', stop) → src_behind st'.
Proof.
  intros Hinv. destruct l as [|e]; simpl.
  - intros [= <- _]. by intros b t0.
  - destruct (too_early _ _); [by intros [= <- _]|].
    destruct (too_late _ _); [by intros [= <- _]|].
    destruct (src st) as [[b t0]|] eqn:Hsrc.
    + intros (st1 & Ht & (st2 & Hb & [= <- _])%bind_Ok)%bind_Ok.
      unfold bounce in Hb.
      apply bind_Ok in Hb as (? & Hpos%assert_Ok%bool_decide_eq_true & [= <-]).
      intros b' t' Hsrc'. simpl in *.
      assert (last_bounce_time st1 = last_bounce_time st ∧
              (src st1 = src st ∨ src st1 = Some (dest_boundary e, dest_time e)))
        as [Hlast Hcase].
      { unfold transition in Ht. case_decide; [|by injection Ht as <-; auto].
        apply bind_Ok in Ht as (? & _ & [= <-]). simpl. auto. }
      rewrite Hlast in Hpos.
      assert (last_bounce_time st ≤ dest_time e) as Hle.
      { apply Qcle_minus_iff. done. }
      destruct Hcase as [Heq|Heq]; rewrite Heq in Hsrc'.
      * eapply Qcle_trans; [|exact Hle]. by apply (Hinv b').
      * injection Hsrc' as _ <-. apply Qcle_refl.
    + intros [= <- _]. intros b t0. simpl. intros [= _ <-]. apply Qcle_refl.
Qed.

Lemma scan_lines_src_behind (skip : bool) (min_time max_time : option Qc)
    (lines : list line) (st0 st : scan) (stop : bool) :
  src_behind st0 →
  scan_lines skip min_time max_time lines st0 = Ok (st, stop) → src_behind st.
Proof.
  revert st0. induction lines as [|l lines IH]; intros st0 Hinv; simpl.
  - by intros [= <- _].
  - intros ([st1 stop1] & Hl & H)%bind_Ok. simpl in H.
    pose proof (scan_line_src_behind _ _ _ _ _ _ _ Hinv Hl) as Hinv1.
    destruct stop1; [by injection H as <- _|]. by apply (IH st1).
Qed.

(** Without the restart check the first assertion is not evaluated. *)
Lemma scan_lines_no_incubation_assert (min_time max_time : option Qc)
    (lines : list line) (st0 : scan) :
  scan_lines true min_time max_time lines st0
  ≠ Raise (AssertionError incubation_msg).
Proof.
  revert st0. induction lines as [|l lines IH]; intros st0; simpl; [done|].
  destruct (scan_line true min_time max_time st0 l) as [[st1 stop]|err] eqn:Hl;
    simpl.
  - destruct stop; [done|]. apply IH.
  - intros [= ->]. destruct l as [|e]; simpl in Hl; [done|].
    destruct (too_early _ _); [done|]. destruct (too_late _ _); [done|].
    destruct (src st0) as [[b t0]|]; [|done].
    unfold transition in Hl. case_decide.
    + simpl in Hl. unfold bounce in Hl.
      destruct (bool_decide _) in Hl; simpl in Hl; [done|].
      by injection Hl.
    + simpl in Hl. unfold bounce in Hl.
      destruct (bool_decide _) in Hl; simpl in Hl; [done|].
      by injection Hl.
Qed.

Lemma src_behind_scan0 : src_behind scan0.
Proof. by intros b t0. Qed.

(** C5, as the code has it.  Let the reader have scanned the lines [pre]
    without a [break] and come, with a source milestone [b] entered at
    [t0], to a record inside the time window.  With the restart check, a
    negative incubation time is fatal by the first assertion.  A negative
    time since the last bounce is fatal by the second assertion, with or
    without the restart check.  Without the restart check the first
    assertion is never raised, and a negative incubation time is fatal all
    the same, by the second assertion. *)
Theorem negative_intervals_are_fatal (files : list output_file)
    (min_time max_time : option Qc) (existing_lines : option (list line))
    (skip_restart_check : bool) (pre post : list line) (e : event)
    (st : scan) (b : Z) (t0 : Qc) :
  reader_lines files existing_lines skip_restart_check
    = Ok (pre ++ Record_line e :: post) →
  scan_lines skip_restart_check min_time max_time pre scan0 = Ok (st, false) →
  too_early min_time (dest_time e) = false →
  too_late max_time (dest_time e) = false →
  src st = Some (b, t0) →
  let read := openmm_read_output_file_list files min_time max_time
                existing_lines skip_restart_check in
  (skip_restart_check = false → b ≠ dest_boundary e → dest_time e - t0 < 0 →
   read = Raise (AssertionError incubation_msg)) ∧
  (dest_time e - last_bounce_time st < 0 →
   skip_restart_check = true ∨ b = dest_boundary e ∨ 0 ≤ dest_time e - t0 →
   read = Raise (AssertionError bounce_msg)) ∧
  (skip_restart_check = true →
   read ≠ Raise (AssertionError incubation_msg) ∧
   (dest_time e - t0 < 0 → read = Raise (AssertionError bounce_msg))).
Proof.
  intros Hlines Hpre Hearly Hlate Hsrc read.
  assert (read = (r <- scan_line skip_restart_check min_time max_time st
                         (Record_line e) ;;
                  r <- (if r.2 then Ok r
                        else scan_lines skip_restart_check min_time max_time post r.1) ;;
                  Ok (summarize r.1 (pre ++ Record_line e :: post)))) as Hread.
  { unfold read, openmm_read_output_file_list. rewrite Hlines. cbn [bind].
    rewrite (scan_lines_app _ _ _ _ _ _ _ Hpre). cbn [scan_lines].
    by destruct (scan_line _ _ _ _ _). }
  assert (src_behind st) as Hbehind
    by (eapply scan_lines_src_behind; [apply src_behind_scan0|exact Hpre]).
  assert (dest_time e - last_bounce_time st < 0 →
          bool_decide (0 ≤ dest_time e - last_bounce_time st) = false) as Hneg.
  { intros Hlt. apply bool_decide_eq_false_2. by apply Qclt_not_le. }
  assert (dest_time e - t0 < 0 → dest_time e - last_bounce_time st < 0) as Hboth.
  { intros Hlt. specialize (Hbehind _ _ Hsrc).
    apply Qclt_minus_iff. apply Qclt_minus_iff in Hlt.
    eapply Qclt_le_trans; [exact Hlt|].
    replace (0 + - (dest_time e - t0)) with (t0 + - dest_time e) by ring.
    replace (0 + - (dest_time e - last_bounce_time st))
      with (last_bounce_time st + - dest_time e) by ring.
    by apply Qcplus_le_mono_r. }
  assert (skip_restart_check = true →
          read ≠ Raise (AssertionError incubation_msg)) as Hnever.
  { intros ->. unfold read, openmm_read_output_file_list.
    rewrite Hlines. cbn [bind].
    pose proof (scan_lines_no_incubation_assert min_time max_time
                  (pre ++ Record_line e :: post) scan0) as Hno.
    destruct (scan_lines true min_time max_time
                (pre ++ Record_line e :: post) scan0); simpl.
    - discriminate.
    - intros [= ->]. by apply Hno. }
  revert Hnever. rewrite Hread. cbn [scan_line]. rewrite Hearly, Hlate, Hsrc.
  unfold transition, bounce. intros Hnever. split; [|split].
  - intros -> Hb Hlt. rewrite decide_True by done.
    rewrite bool_decide_eq_false_2 by (by apply Qclt_not_le). done.
  - intros Hlt Hcase. specialize (Hneg Hlt).
    destruct (decide (b ≠ dest_boundary e)) as [Hb|Hb]; cbn.
    + destruct skip_restart_check; cbn.
      * by rewrite Hneg.
      * destruct Hcase as [?|[?|Hpos]]; [done..|].
        rewrite bool_decide_eq_true_2 by done. cbn. by rewrite Hneg.
    + by rewrite Hneg.
  - intros Hskip. split; [by apply Hnever|]. subst skip_restart_check.
    + intros Hlt. specialize (Hneg (Hboth Hlt)).
      destruct (decide (b ≠ dest_boundary e)); cbn; by rewrite Hneg.
Qed.

Import Examples.

Lemma negative_intervals_are_fatal_witness :
  let read := openmm_read_output_file_list [backwards_run] None None None true in
  (true = false → 1%Z ≠ dest_boundary (event_at 1 1 3) →
   dest_time (event_at 1 1 3) - Qc_of_Z 5 < 0 →
   read = Raise (AssertionError incubation_msg)) ∧
  (dest_time (event_at 1 1 3) - Qc_of_Z 5 < 0 →
   true = true ∨ 1%Z = dest_boundary (event_at 1 1 3)
   ∨ 0 ≤ dest_time (event_at 1 1 3) - Qc_of_Z 5 →
   read = Raise (AssertionError bounce_msg)) ∧
  (true = true →
   read ≠ Raise (AssertionError incubation_msg) ∧
   (dest_time (event_at 1 1 3) - Qc_of_Z 5 < 0 →
    read = Raise (AssertionError bounce_msg))).
Proof.
  apply (negative_intervals_are_fatal [backwards_run] None None None true
           [Record_line (event_at 1 0 5)] [] (event_at 1 1 3)
           {| N_i_j_alpha := ∅; R_i_alpha_list := ∅; N_alpha_beta := ∅;
              T_alpha_list := []; last_bounce_time := Qc_of_Z 5;
              src := Some (1%Z, Qc_of_Z 5) |} 1%Z (Qc_of_Z 5)).
  - vm_compute. reflexivity.
  - vm_compute. reflexivity.
  - reflexivity.
  - reflexivity.
  - reflexivity.
Defined.

(** C5 as stated fails: with [skip_restart_check=True], two bounces off the
    same milestone, the second at an earlier time, raise the second
    assertion. *)
Lemma skip_restart_check_still_asserts :
  openmm_read_output_file_list [backwards_run] None None None true
  = Raise (AssertionError bounce_msg).
Proof. vm_compute. reflexivity. Qed.

End Scan_facts.

(** ** Reading again *)

Section Reread_facts.
Import Dense Reader Anchor_statistics.
Local Open Scope Qc_scope.

Variable namd_read_output_file_list :
  list output_file → option Qc → option Qc → option (list line) →
  result statistics.

(** With lines at hand the reader does not look at the files. *)
Lemma openmm_read_cached (files files' : list output_file)
    (min_time max_time : option Qc) (lines : list line) (skip : bool) :
  openmm_read_output_file_list files min_time max_time (Some lines) skip
  = openmm_read_output_file_list files' min_time max_time (Some lines) skip.
Proof. reflexivity. Qed.

(** What the reader returns holds the lines it scanned, and scanning them
    again gives the same statistics. *)
Lemma openmm_read_again (files files' : list output_file)
    (min_time max_time : option Qc) (existing : option (list line))
    (skip : bool) (s : statistics) :
  openmm_read_output_file_list files min_time max_time existing skip = Ok s →
  openmm_read_output_file_list files' min_time max_time (Some (st_lines s)) skip
  = Ok s.
Proof.
  unfold openmm_read_output_file_list.
  intros (lines & _ & (r & Hr & [= <-])%bind_Ok)%bind_Ok.
  cbn. by rewrite Hr.
Qed.

(** After a read of the OpenMM logs, a read over any files, with the same
    time window, changes nothing. *)
Lemma read_output_file_list_cached (self self1 : MMVT_anchor_statistics)
    (files files' : list output_file) (min_time max_time : option Qc) :
  read_output_file_list namd_read_output_file_list self openmm files
    min_time max_time = Ok self1 →
  read_output_file_list namd_read_output_file_list self1 openmm files'
    min_time max_time = Ok self1.
Proof.
  unfold read_output_file_list.
  intros (self_a & (s & Hs & [= <-])%bind_Ok & H)%bind_Ok.
  cbn in H.
  apply bind_Ok in H as (? & Hassert & [= <-]). cbn [existing_lines].
  rewrite (openmm_read_again _ files' _ _ _ _ _ Hs). cbn.
  rewrite Hassert. cbn. unfold store. cbn. do 2 f_equal.
  by rewrite (assoc_L (∪)), (idemp_L (∪)).
Qed.

(** C8.  A second read through
    [MMVT_anchor_statistics.read_output_file_list] with the same file list
    and the same [min_time] and [max_time] returns, and leaves every
    accumulated statistic ([N_i_j_alpha], the totals of [R_i_alpha],
    [N_alpha_beta], the total of [T_alpha], [k_alpha_beta]) as the first
    read left it. *)
Theorem read_output_file_list_idempotent (self self1 : MMVT_anchor_statistics)
    (files : list output_file) (min_time max_time : option Qc) :
  read_output_file_list namd_read_output_file_list self openmm files
    min_time max_time = Ok self1 →
  ∃ self2,
    read_output_file_list namd_read_output_file_list self1 openmm files
      min_time max_time = Ok self2 ∧
    N_i_j_alpha self2 = N_i_j_alpha self1 ∧
    R_i_alpha_total self2 = R_i_alpha_total self1 ∧
    N_alpha_beta self2 = N_alpha_beta self1 ∧
    T_alpha_total self2 = T_alpha_total self1 ∧
    k_alpha_beta self2 = k_alpha_beta self1.
Proof.
  intros H. exists self1. split; [|done].
  by apply (read_output_file_list_cached self self1 files files).
Qed.

(** C9, as the code has it.  Once the lines of an anchor are cached, a
    read does not open the files: whatever they hold now, records arrived
    since the first read are not merged, and the statistics are those of
    the cached lines, for the same time window those of the first read. *)
Theorem read_output_file_list_ignores_files (self self1 : MMVT_anchor_statistics)
    (files files' : list output_file) (min_time max_time : option Qc) :
  read_output_file_list namd_read_output_file_list self openmm files
    min_time max_time = Ok self1 →
  read_output_file_list namd_read_output_file_list self1 openmm files'
    min_time max_time = Ok self1 ∧
  ∀ min_time' max_time',
    read_output_file_list namd_read_output_file_list self1 openmm files'
      min_time' max_time'
    = read_output_file_list namd_read_output_file_list self1 openmm files
        min_time' max_time'.
Proof.
  intros H. split.
  - by apply (read_output_file_list_cached self self1 files files').
  - intros min_time' max_time'.
    assert (∃ lines, existing_lines self1 = Some lines) as [lines Hlines].
    { unfold read_output_file_list in H.
      apply bind_Ok in H as (self_a & (s & Hs & [= <-])%bind_Ok & H).
      cbn in H. apply bind_Ok in H as (? & _ & [= <-]). cbn. eauto. }
    unfold read_output_file_list. rewrite Hlines.
    by rewrite (openmm_read_cached files' files).
Qed.

End Reread_facts.

Section Reread_examples.
Import Dense Reader Anchor_statistics Examples.
Local Open Scope Qc_scope.

Lemma read_output_file_list_idempotent_witness :
  ∃ self2,
    read_output_file_list no_namd once_read openmm [first_run; restarted_run]
      None None = Ok self2 ∧
    N_i_j_alpha self2 = N_i_j_alpha once_read ∧
    R_i_alpha_total self2 = R_i_alpha_total once_read ∧
    N_alpha_beta self2 = N_alpha_beta once_read ∧
    T_alpha_total self2 = T_alpha_total once_read ∧
    k_alpha_beta self2 = k_alpha_beta once_read.
Proof.
  apply (read_output_file_list_idempotent no_namd (init 0) once_read
           [first_run; restarted_run] None None).
  vm_compute. reflexivity.
Defined.

Lemma read_output_file_list_ignores_files_witness :
  read_output_file_list no_namd early_read openmm [first_run] None None
  = Ok early_read ∧
  ∀ min_time' max_time',
    read_output_file_list no_namd early_read openmm [first_run]
      min_time' max_time'
    = read_output_file_list no_namd early_read openmm [first_run_early]
        min_time' max_time'.
Proof.
  apply (read_output_file_list_ignores_files no_namd (init 0) early_read
           [first_run_early] [first_run] None None).
  vm_compute. reflexivity.
Defined.

(** C9 as stated fails: the log read when it held two records, and read
    again after a third arrived, gives one bounce off milestone 1; a full
    read of the three records gives two. *)
Lemma reread_misses_new_records :
  ∃ again full,
    read_output_file_list no_namd (init 0) openmm [first_run_early] None None
    = Ok early_read ∧
    read_output_file_list no_namd early_read openmm [first_run] None None
    = Ok again ∧
    read_output_file_list no_namd (init 0) openmm [first_run] None None
    = Ok full ∧
    N_alpha_beta again = Some {[ 2%Z := 1%Z ]} ∧
    N_alpha_beta full = Some {[ 2%Z := 1%Z; 1%Z := 1%Z ]} ∧
    N_alpha_beta again ≠ N_alpha_beta full.
Proof.
  exists early_read,
    (value (init 0) (read_output_file_list no_namd (init 0) openmm [first_run]
                       None None)).
  split; [vm_compute; reflexivity|]. split; [vm_compute; reflexivity|].
  split; [vm_compute; reflexivity|]. split; [by_compute|].
  split; by_compute.
Qed.

End Reread_examples.

(** ** The sampling loop *)

Section Loop_facts.
Import Monte_carlo.
Local Open Scope Z_scope.

Context {C L S : Type}.
Variable move : C → result (C * L).
Variable plain : L → S.
Variable retain : L → result S.

(** The turns themselves return: the sampler, [calculate_pi_alpha] and
    the kinetics raise nothing. *)
Hypothesis move_returns : ∀ c, ∃ r, move c = Ok r.
Hypothesis retain_returns : ∀ l, ∃ s, retain l = Ok s.

(** One turn: it returns, leaves [new_data_sample] set, and appends a
    sample exactly when [counter > skip and counter % stride == 0]. *)
Lemma loop_step_returns (skip stride : Z) (st : loop_state) (counter : nat) :
  stride ≠ 0 →
  ∃ st', loop_step move plain retain skip stride st counter = Ok st' ∧
    is_Some (new_data_sample st') ∧
    length (data_sample_list st') =
      (length (data_sample_list st) +
       if decide (skip < Z.of_nat counter ∧ Z.of_nat counter mod stride = 0)%Z
       then 1 else 0)%nat.
Proof.
  intros Hstride. unfold loop_step, retained.
  destruct (move_returns (chain st)) as [[c l] ->]. cbn.
  destruct (decide (skip < Z.of_nat counter)) as [Hskip|Hskip]; cbn.
  - rewrite decide_False by done. cbn.
    destruct (decide (Z.of_nat counter mod stride = 0)) as [Hmod|Hmod].
    + rewrite bool_decide_eq_true_2 by done.
      destruct (retain_returns l) as [s ->]. cbn.
      eexists. split; [done|]. cbn. split; [by eexists|].
      rewrite length_app, decide_True by done. done.
    + rewrite bool_decide_eq_false_2 by done.
      eexists. split; [done|]. cbn. split; [by eexists|].
      rewrite decide_False by tauto. lia.
  - eexists. split; [done|]. cbn. split; [by eexists|].
    rewrite decide_False by tauto. lia.
Qed.

(** The loop returns and, after at least one turn, [new_data_sample] is
    set. *)
Lemma loop_returns (skip stride : Z) (n : nat) (st : loop_state) :
  stride ≠ 0 →
  ∃ st', foldlM (loop_step move plain retain skip stride) (seq 0 n) st = Ok st' ∧
    (n ≠ 0%nat → is_Some (new_data_sample st')).
Proof.
  intros Hstride.
  apply (foldlM_seq_total (loop_step move plain retain skip stride)
           (λ k s, k ≠ 0%nat → is_Some (new_data_sample s)) 0 n st); [done|].
  intros k s _ _.
  destruct (loop_step_returns skip stride s k Hstride) as (s' & -> & Hs' & _).
  eauto.
Qed.

(** Between two multiples of the stride no counter is one. *)
Lemma between_multiples (s m k : Z) : m * s < k < (m + 1) * s → k mod s ≠ 0.
Proof.
  intros Hk Hmod. assert (0 < s) by nia.
  pose proof (Z.div_mod k s ltac:(lia)) as Hdiv. rewrite Hmod in Hdiv.
  destruct (decide (k / s ≤ m)); nia.
Qed.

(** With the default [skip = 10 * stride], the counters below [k] that
    are retained are the multiples [11 * stride], [12 * stride], ... of the
    stride. *)
Lemma default_loop_length (s : Z) (n : nat) (st : loop_state) :
  0 < s → data_sample_list st = [] →
  ∃ st', foldlM (loop_step move plain retain (10 * s) s) (seq 0 n) st = Ok st' ∧
    (n = 0%nat → st' = st) ∧
    ∀ m, m * s < Z.of_nat n ≤ (m + 1) * s →
         Z.of_nat (length (data_sample_list st')) = Z.max 0 (m - 10).
Proof.
  intros Hs Hnil.
  apply (foldlM_seq_total (loop_step move plain retain (10 * s) s)
           (λ k s', (k = 0%nat → s' = st) ∧
                    ∀ m, m * s < Z.of_nat k ≤ (m + 1) * s →
                         Z.of_nat (length (data_sample_list s')) = Z.max 0 (m - 10))
           0 n st).
  { split; [done|]. intros m Hm. rewrite Hnil. cbn [length]. nia. }
  intros k st1 _ [H0 Hlen].
  destruct (loop_step_returns (10 * s) s st1 k ltac:(lia)) as (st2 & -> & _ & Hst2).
  exists st2. split; [done|]. split; [lia|].
  intros m Hm. rewrite Hst2. clear Hst2.
  destruct (decide (k = 0%nat)) as [->|Hk].
  { rewrite (H0 eq_refl), Hnil. rewrite decide_False by lia. cbn [length].
    assert (m = 0) by nia. lia. }
  destruct (decide (Z.of_nat k = m * s)) as [Hkm|Hkm].
  - assert (Hprev : Z.of_nat (length (data_sample_list st1))
                    = Z.max 0 (m - 1 - 10)) by (apply Hlen; nia).
    assert (Z.of_nat k mod s = 0) by (rewrite Hkm; apply Z.mod_mul; lia).
    destruct (decide (10 < m)).
    + rewrite decide_True by (split; [nia|done]). lia.
    + rewrite decide_False by (intros [? _]; nia). lia.
  - assert (Hprev : Z.of_nat (length (data_sample_list st1))
                    = Z.max 0 (m - 10)) by (apply Hlen; lia).
    rewrite decide_False; [lia|].
    intros [_ Hmod]. apply (between_multiples s m (Z.of_nat k)); [lia|done].
Qed.

(** C6.  With [skip] and [stride] left to their defaults and the turns
    returning, [monte_carlo_milestoning_error] called for [num >= 1]
    samples on a rate matrix of [N >= 1] milestones returns
    [num - 1] retained samples: the loop counts from 0 to
    [num * stride + skip - 1] and retains the counters that are
    multiples of the stride and greater than [skip], which are
    [11 * N^2, ..., (num + 9) * N^2]. *)
Theorem sampling_loop_retains_one_less (n_milestones : nat) (num : Z)
    (init : C) :
  (1 ≤ n_milestones)%nat → 1 ≤ num →
  ∃ data_sample_list,
    sampling_loop move plain retain n_milestones num None None init
    = Ok data_sample_list ∧
    Z.of_nat (length data_sample_list) = num - 1.
Proof.
  intros HN Hnum. unfold sampling_loop. cbn [default].
  set (s := Z.of_nat n_milestones ^ 2).
  assert (Hs : 0 < s) by (unfold s; nia).
  set (st0 := {| chain := init; new_data_sample := None;
                 data_sample_list := [] |}).
  destruct (default_loop_length s (Z.to_nat (num * s + 10 * s)) st0 Hs eq_refl)
    as (st & Hst & _ & Hlen).
  destruct (loop_returns (10 * s) s (Z.to_nat (num * s + 10 * s)) st0
              ltac:(lia)) as (st' & Hst' & Hsome).
  rewrite Hst in Hst'. injection Hst' as <-.
  rewrite Hst. cbn.
  rewrite bool_decide_eq_true_2 by (apply Hsome; nia). cbn.
  eexists. split; [done|].
  rewrite (Hlen (num + 9)) by nia. lia.
Qed.

(** C7.  With the turns returning and a stride other than 0, the
    assertion after the loop fires exactly when the loop makes no turn at
    all, [num * stride + skip <= 0]; it does not look at the retained
    samples. *)
Theorem nothing_sampled_iff_no_turn (n_milestones : nat) (num : Z)
    (skip stride : option Z) (init : C) :
  default (Z.of_nat n_milestones ^ 2) stride ≠ 0 →
  sampling_loop move plain retain n_milestones num skip stride init
  = Raise (AssertionError nothing_sampled_msg)
  ↔ num * default (Z.of_nat n_milestones ^ 2) stride
    + default (10 * Z.of_nat n_milestones ^ 2) skip ≤ 0.
Proof.
  intros Hstride. unfold sampling_loop.
  set (sk := default (10 * Z.of_nat n_milestones ^ 2) skip).
  set (sd := default (Z.of_nat n_milestones ^ 2) stride) in *.
  set (st0 := {| chain := init; new_data_sample := None;
                 data_sample_list := [] |}).
  destruct (loop_returns sk sd (Z.to_nat (num * sd + sk)) st0 Hstride)
    as (st & Hst & Hsome).
  rewrite Hst. cbn. split.
  - intros Hraise. destruct (decide (num * sd + sk ≤ 0)) as [|Hpos]; [done|].
    rewrite bool_decide_eq_true_2 in Hraise by (apply Hsome; lia).
    discriminate.
  - intros Hle. replace (Z.to_nat (num * sd + sk)) with 0%nat in Hst by lia.
    injection Hst as <-. cbn. done.
Qed.

End Loop_facts.

Section Loop_examples.
Import Monte_carlo Examples.
Local Open Scope Z_scope.

Lemma sampling_loop_retains_one_less_witness :
  ∃ data_sample_list,
    sampling_loop count_move id Ok 1 3 None None 0%nat = Ok data_sample_list ∧
    Z.of_nat (length data_sample_list) = 3 - 1.
Proof.
  apply (sampling_loop_retains_one_less count_move id Ok);
    [intros c | intros l | lia | lia]; by eexists.
Defined.

Lemma nothing_sampled_iff_no_turn_witness :
  sampling_loop count_move id Ok 1 1 None None 0%nat
  = Raise (AssertionError nothing_sampled_msg)
  ↔ 1 * default (Z.of_nat 1 ^ 2) None + default (10 * Z.of_nat 1 ^ 2) None ≤ 0.
Proof.
  apply (nothing_sampled_iff_no_turn count_move id Ok);
    [intros c | intros l | ]; [by eexists..|cbn; lia].
Defined.

(** Three samples asked for: the turns retained are those of the counters
    11 and 12. *)
Example sampling_loop_three_asked :
  sampling_loop count_move id Ok 1 3 None None 0%nat = Ok [11%nat; 12%nat].
Proof. vm_compute. reflexivity. Qed.

(** One sample asked for: eleven turns, none retained, and no error. *)
Example sampling_loop_one_asked :
  sampling_loop count_move id Ok 1 1 None None 0%nat = Ok [].
Proof. vm_compute. reflexivity. Qed.

End Loop_examples.

(** ** What the reader counts *)

Section Count_facts.
Import Dense Reader.
Local Open Scope Qc_scope.

Lemma total_empty {K} `{Countable K} : total (∅ : gmap K Z) = 0%Z.
Proof. apply map_fold_empty. Qed.

Lemma total_insert {K} `{Countable K} (d : gmap K Z) (k : K) (v : Z) :
  total (<[k := v]> d) = (total d - default 0 (d !! k) + v)%Z.
Proof.
  unfold total.
  destruct (d !! k) as [old|] eqn:Hk; simpl.
  - rewrite <- (insert_delete_eq d k v).
    rewrite map_fold_insert_L; [|intros; lia|apply lookup_delete_eq].
    rewrite (map_fold_delete_L _ _ k old d); [lia|intros; lia|done].
  - rewrite map_fold_insert_L; [lia|intros; lia|done].
Qed.

(** An invariant of the loop over the lines. *)
Lemma scan_lines_inv (P : scan → Prop) (skip : bool)
    (min_time max_time : option Qc) (lines : list line) (st st' : scan)
    (stop : bool) :
  P st →
  (∀ s l s' b, l ∈ lines → P s →
     scan_line skip min_time max_time s l = Ok (s', b) → P s') →
  scan_lines skip min_time max_time lines st = Ok (st', stop) → P st'.
Proof.
  revert st. induction lines as [|l lines IH]; intros st HP Hstep; simpl.
  - by intros [= <- _].
  - intros ([s1 b1] & Hl & H)%bind_Ok. simpl in H.
    assert (P s1) by (eapply (Hstep st l); [by left|done..]).
    destruct b1; [by injection H as <- _|].
    apply (IH s1); [done| |done].
    intros s l' s' b Hl'. apply Hstep. by right.
Qed.

(** The loop with a time window does what the loop without one does on
    the lines of the window. *)
Lemma scan_lines_in_window (skip : bool) (min_time max_time : option Qc)
    (lines : list line) (st : scan) :
  match scan_lines skip min_time max_time lines st,
        scan_lines skip None None (in_window min_time max_time lines) st with
  | Ok r, Ok r' => r.1 = r'.1 ∧ r'.2 = false
  | Raise e, Raise e' => e = e'
  | _, _ => False
  end.
Proof.
  revert st. induction lines as [|[|e] lines IH]; intros st.
  - done.
  - cbn [in_window scan_lines scan_line bind snd fst]. apply IH.
  - cbn [in_window scan_lines scan_line].
    destruct (too_early min_time (dest_time e)) eqn:Hearly.
    { cbn [bind snd fst]. apply IH. }
    destruct (too_late max_time (dest_time e)) eqn:Hlate.
    { by cbn. }
    cbn [scan_lines scan_line too_early too_late].
    destruct (src st) as [[b t0]|].
    + destruct (transition skip st e b t0) as [st1|err]; [|done]. cbn [bind].
      destruct (bounce st1 e) as [st2|err]; [|done]. cbn [bind snd fst].
      apply IH.
    + cbn [bind snd fst]. apply IH.
Qed.

(** A read with [min_time] and [max_time] gives the statistics of a read,
    without them, of the lines inside the window; it fails where that
    read fails, with the same exception. *)
Theorem windowed_read_is_read_of_window (files : list output_file)
    (min_time max_time : option Qc) (lines : list line) (skip : bool) :
  match openmm_read_output_file_list files min_time max_time (Some lines) skip,
        openmm_read_output_file_list files None None
          (Some (in_window min_time max_time lines)) skip with
  | Ok s, Ok s' => counts s = counts s' ∧ st_lines s = lines
  | Raise e, Raise e' => e = e'
  | _, _ => False
  end.
Proof.
  unfold openmm_read_output_file_list. cbn [reader_lines bind].
  pose proof (scan_lines_in_window skip min_time max_time lines scan0) as H.
  destruct (scan_lines skip min_time max_time lines scan0) as [r|err],
    (scan_lines skip None None (in_window min_time max_time lines) scan0)
      as [r'|err']; try done.
  cbn [bind]. destruct H as [-> _]. done.
Qed.

(** What one turn of the loop does to the running state. *)
Lemma scan_line_cases (skip : bool) (min_time max_time : option Qc)
    (st st' : scan) (l : line) (stop : bool) :
  scan_line skip min_time max_time st l = Ok (st', stop) →
  (l = NEW_SWARM ∧ stop = false ∧
   N_i_j_alpha st' = N_i_j_alpha st ∧ R_i_alpha_list st' = R_i_alpha_list st ∧
   N_alpha_beta st' = N_alpha_beta st ∧ T_alpha_list st' = T_alpha_list st ∧
   src st' = None) ∨
  (∃ e, l = Record_line e ∧ st' = st ∧
        (too_early min_time (dest_time e) = true ∨
         too_late max_time (dest_time e) = true)) ∨
  (∃ e, l = Record_line e ∧ stop = false ∧ src st = None ∧
        too_early min_time (dest_time e) = false ∧
        too_late max_time (dest_time e) = false ∧
        N_i_j_alpha st' = N_i_j_alpha st ∧ R_i_alpha_list st' = R_i_alpha_list st ∧
        N_alpha_beta st' = N_alpha_beta st ∧ T_alpha_list st' = T_alpha_list st ∧
        last_bounce_time st' = dest_time e ∧
        src st' = Some (dest_boundary e, dest_time e)) ∨
  (∃ e b t0, l = Record_line e ∧ stop = false ∧ src st = Some (b, t0) ∧
        too_early min_time (dest_time e) = false ∧
        too_late max_time (dest_time e) = false ∧
        0 ≤ dest_time e - last_bounce_time st ∧
        N_alpha_beta st' =
          <[dest_boundary e :=
              (default 0 (N_alpha_beta st !! dest_boundary e) + 1)%Z]>
            (N_alpha_beta st) ∧
        T_alpha_list st' =
          T_alpha_list st ++ [dest_time e - last_bounce_time st] ∧
        last_bounce_time st' = dest_time e ∧
        ((b = dest_boundary e ∧ N_i_j_alpha st' = N_i_j_alpha st ∧
          R_i_alpha_list st' = R_i_alpha_list st ∧ src st' = src st) ∨
         (b ≠ dest_boundary e ∧
          (skip = false → 0 ≤ dest_time e - t0) ∧
          N_i_j_alpha st' =
            <[(b, dest_boundary e) :=
                (default 0 (N_i_j_alpha st !! (b, dest_boundary e)) + 1)%Z]>
              (N_i_j_alpha st) ∧
          R_i_alpha_list st' =
            <[Some b := default [] (R_i_alpha_list st !! Some b)
                        ++ [dest_time e - t0]]> (R_i_alpha_list st) ∧
          src st' = Some (dest_boundary e, dest_time e)))).
Proof.
  destruct l as [|e]; simpl.
  { intros [= <- <-]. left. done. }
  destruct (too_early min_time (dest_time e)) eqn:Hearly.
  { intros [= <- _]. right. left. exists e. auto. }
  destruct (too_late max_time (dest_time e)) eqn:Hlate.
  { intros [= <- _]. right. left. exists e. auto. }
  destruct (src st) as [[b t0]|] eqn:Hsrc.
  - intros (st1 & Ht & (st2 & Hb & [= <- <-])%bind_Ok)%bind_Ok.
    right. right. right. exists e, b, t0.
    unfold bounce in Hb.
    apply bind_Ok in Hb as (? & Hpos%assert_Ok%bool_decide_eq_true & [= <-]).
    unfold transition in Ht. cbn.
    destruct (decide (b ≠ dest_boundary e)) as [Hne|Heq].
    + apply bind_Ok in Ht as (? & Hinc & [= <-]). cbn in *.
      repeat (split; [done|]). right. split; [done|]. split; [|done].
      intros ->. by apply assert_Ok, bool_decide_eq_true in Hinc.
    + injection Ht as <-. repeat (split; [done|]). left.
      split; [|done]. by destruct (decide (b = dest_boundary e)).
  - intros [= <- <-]. right. right. left. exists e. done.
Qed.

Lemma qsum_nonneg (l : list Qc) : Forall (λ x, 0 ≤ x) l → 0 ≤ qsum l.
Proof.
  induction 1 as [|x l Hx _ IH]; [done|].
  rewrite qsum_cons. replace 0 with (0 + 0) by ring. by apply Qcplus_le_compat.
Qed.

(** Whatever the lines: every time between bounces and every incubation
    time the loop has recorded is non-negative, with or without the
    restart check. *)
Lemma scan_lines_nonneg (skip : bool) (min_time max_time : option Qc)
    (lines : list line) (st : scan) (stop : bool) :
  scan_lines skip min_time max_time lines scan0 = Ok (st, stop) →
  Forall (λ x, 0 ≤ x) (T_alpha_list st) ∧
  ∀ k l, R_i_alpha_list st !! k = Some l → Forall (λ x, 0 ≤ x) l.
Proof.
  intros H.
  cut (src_behind st ∧ Forall (λ x, 0 ≤ x) (T_alpha_list st) ∧
       ∀ k l, R_i_alpha_list st !! k = Some l → Forall (λ x, 0 ≤ x) l); [tauto|].
  eapply (scan_lines_inv
            (λ st, src_behind st ∧ Forall (λ x, 0 ≤ x) (T_alpha_list st) ∧
                   ∀ k l, R_i_alpha_list st !! k = Some l → Forall (λ x, 0 ≤ x) l));
    [| |exact H].
  { split; [apply src_behind_scan0|]. split; [constructor|].
    intros k l. cbn. by rewrite lookup_empty. }
  intros s l s' b _ (Hbehind & HT & HR) Hstep.
  split; [by eapply scan_line_src_behind|].
  apply scan_line_cases in Hstep
    as [(_ & _ & _ & -> & _ & -> & _)
       |[(e & _ & -> & _)
       |[(e & _ & _ & _ & _ & _ & _ & -> & _ & -> & _)
        |(e & sb & t0 & _ & _ & Hsrc & _ & _ & Hpos & _ & -> & _ & Hcase)]]];
    try done.
  split; [apply Forall_app; split; [done|by constructor]|].
  destruct Hcase as [(_ & _ & -> & _)|(_ & _ & _ & -> & _)]; [done|].
  intros k l0 [[<- <-]|[_ Hl]]%lookup_insert_Some; [|by eapply HR].
  apply Forall_app. split.
  - destruct (R_i_alpha_list s !! Some sb) as [l1|] eqn:Hl1; [|constructor].
    by eapply HR.
  - constructor; [|constructor].
    apply (proj1 (Qcle_minus_iff t0 (dest_time e))).
    apply (proj2 (Qcle_minus_iff _ _)) in Hpos.
    eapply Qcle_trans; [apply (Hbehind _ _ Hsrc)|done].
Qed.

Lemma openmm_read_Ok (files : list output_file) (min_time max_time : option Qc)
    (existing : option (list line)) (skip : bool) (s : statistics) :
  openmm_read_output_file_list files min_time max_time existing skip = Ok s →
  ∃ st stop,
    scan_lines skip min_time max_time (st_lines s) scan0 = Ok (st, stop) ∧
    s = summarize st (st_lines s).
Proof.
  unfold openmm_read_output_file_list.
  intros (lines & _ & ([st stop] & Hscan & [= <-])%bind_Ok)%bind_Ok.
  exists st, stop. done.
Qed.

(** The loop never sees a transition without an incubation time, nor an
    incubation time without a transition. *)
Lemma scan_lines_N_R_empty (skip : bool) (min_time max_time : option Qc)
    (lines : list line) (st : scan) (stop : bool) :
  scan_lines skip min_time max_time lines scan0 = Ok (st, stop) →
  N_i_j_alpha st = ∅ ↔ R_i_alpha_list st = ∅.
Proof.
  intros H.
  eapply (scan_lines_inv (λ st, N_i_j_alpha st = ∅ ↔ R_i_alpha_list st = ∅));
    [| |exact H]; [done|].
  intros s l s' b _ HP Hstep.
  apply scan_line_cases in Hstep
    as [(_ & _ & -> & -> & _)
       |[(e & _ & -> & _)
       |[(e & _ & _ & _ & _ & _ & -> & -> & _)
        |(e & sb & t0 & _ & _ & _ & _ & _ & _ & _ & _ & _ & Hcase)]]];
    try done.
  destruct Hcase as [(_ & -> & -> & _)|(_ & _ & -> & -> & _)]; [done|].
  split; intros Hempty; by apply insert_non_empty in Hempty.
Qed.

(** Every time between bounces and every total the reader returns is
    non-negative, with or without the restart check. *)
Theorem reader_times_nonnegative (files : list output_file)
    (min_time max_time : option Qc) (existing : option (list line))
    (skip : bool) (s : statistics) :
  openmm_read_output_file_list files min_time max_time existing skip = Ok s →
  Forall (λ x, 0 ≤ x) (st_T_alpha_list s) ∧
  0 ≤ st_T_alpha_total s ∧
  (∀ k l, st_R_i_alpha_list s !! k = Some l → Forall (λ x, 0 ≤ x) l) ∧
  (∀ k r, st_R_i_alpha_total s !! k = Some r → 0 ≤ r).
Proof.
  intros (st & stop & Hscan & ->)%openmm_read_Ok.
  destruct (scan_lines_nonneg _ _ _ _ _ _ Hscan) as [HT HR].
  cbn. split; [done|]. split; [by apply qsum_nonneg|].
  case_bool_decide; split.
  - intros k l [[_ <-]|[_ Hl]]%lookup_insert_Some; [done|by eapply HR].
  - intros k r [[_ <-]|[_ Hr]]%lookup_insert_Some; [by apply qsum_nonneg|].
    rewrite lookup_fmap in Hr.
    destruct (R_i_alpha_list st !! k) as [l|] eqn:Hl; [|done].
    injection Hr as <-. apply qsum_nonneg. by eapply HR.
  - done.
  - intros k r Hr. rewrite lookup_fmap in Hr.
    destruct (R_i_alpha_list st !! k) as [l|] eqn:Hl; [|done].
    injection Hr as <-. apply qsum_nonneg. by eapply HR.
Qed.

End Count_facts.

Section Wrapper_facts.
Import Dense Reader Anchor_statistics.
Local Open Scope Qc_scope.

Variable namd_read_output_file_list :
  list output_file → option Qc → option Qc → option (list line) →
  result statistics.

(** For the OpenMM engine [MMVT_anchor_statistics.read_output_file_list]
    returns exactly when the reader returns: the total time is a sum of
    non-negative times, so the assertion [self.T_alpha_total >= 0.0] never
    fails. *)
Theorem read_output_file_list_returns (self : MMVT_anchor_statistics)
    (files : list output_file) (min_time max_time : option Qc) :
  is_ok (read_output_file_list namd_read_output_file_list self openmm files
           min_time max_time)
  = is_ok (openmm_read_output_file_list files min_time max_time
             (existing_lines self) false).
Proof.
  unfold read_output_file_list.
  destruct (openmm_read_output_file_list files min_time max_time
              (existing_lines self) false) as [s|err] eqn:Hread; [|done].
  cbn. apply openmm_read_Ok in Hread as (st & stop & Hscan & ->).
  destruct (scan_lines_nonneg _ _ _ _ _ _ Hscan) as [HT _].
  cbn. by rewrite bool_decide_eq_true_2 by (by apply qsum_nonneg).
Qed.

End Wrapper_facts.

(** ** Bounces, transitions and elapsed time *)

Section Tally_facts.
Import Dense Reader.
Local Open Scope Qc_scope.

(** One bounce is counted for every time between bounces. *)
Lemma scan_lines_bounces (skip : bool) (min_time max_time : option Qc)
    (lines : list line) (st : scan) (stop : bool) :
  scan_lines skip min_time max_time lines scan0 = Ok (st, stop) →
  total (N_alpha_beta st) = Z.of_nat (length (T_alpha_list st)) ∧
  ∀ b n, N_alpha_beta st !! b = Some n → (0 < n)%Z.
Proof.
  intros H.
  eapply (scan_lines_inv
            (λ st, total (N_alpha_beta st) = Z.of_nat (length (T_alpha_list st)) ∧
                   ∀ b n, N_alpha_beta st !! b = Some n → (0 < n)%Z));
    [| |exact H].
  { split; [apply total_empty|]. intros b n. cbn. by rewrite lookup_empty. }
  intros s l s' b _ [Htotal Hpos] Hstep. cbn beta.
  apply scan_line_cases in Hstep
    as [(_ & _ & _ & _ & -> & -> & _)
       |[(e & _ & -> & _)
       |[(e & _ & _ & _ & _ & _ & _ & _ & -> & -> & _)
        |(e & sb & t0 & _ & _ & _ & _ & _ & _ & -> & -> & _)]]];
    try done.
  split.
  - rewrite total_insert, length_app, Htotal. simpl. lia.
  - intros b' n [[_ <-]|[_ Hn]]%lookup_insert_Some; [|by eapply Hpos].
    destruct (N_alpha_beta s !! dest_boundary e) as [n0|] eqn:Hn0; simpl; [|lia].
    specialize (Hpos _ _ Hn0). lia.
Qed.

(** The transitions out of a milestone are as many as its incubation
    times; no transition leads from a milestone to itself. *)
Lemma scan_lines_transitions (skip : bool) (min_time max_time : option Qc)
    (lines : list line) (st : scan) (stop : bool) :
  scan_lines skip min_time max_time lines scan0 = Ok (st, stop) →
  (∀ i j n, N_i_j_alpha st !! (i, j) = Some n → i ≠ j ∧ (0 < n)%Z) ∧
  R_i_alpha_list st !! None = None ∧
  ∀ i, total (filter (λ kv, kv.1.1 = i) (N_i_j_alpha st))
       = Z.of_nat (length (default [] (R_i_alpha_list st !! Some i))).
Proof.
  intros H.
  eapply (scan_lines_inv
            (λ st,
               (∀ i j n, N_i_j_alpha st !! (i, j) = Some n → i ≠ j ∧ (0 < n)%Z) ∧
               R_i_alpha_list st !! None = None ∧
               ∀ i, total (filter (λ kv, kv.1.1 = i) (N_i_j_alpha st))
                    = Z.of_nat (length (default [] (R_i_alpha_list st !! Some i)))));
    [| |exact H].
  { split; [intros i j n; cbn; by rewrite lookup_empty|]. split; [done|].
    intros i. cbn. rewrite map_filter_empty, lookup_empty. apply total_empty. }
  intros s l s' b _ (Hkeys & Hnone & Hsum) Hstep. cbn beta.
  apply scan_line_cases in Hstep
    as [(_ & _ & -> & -> & _)
       |[(e & _ & -> & _)
       |[(e & _ & _ & _ & _ & _ & -> & -> & _)
        |(e & sb & t0 & _ & _ & _ & _ & _ & _ & _ & _ & _ & Hcase)]]];
    try done.
  destruct Hcase as [(_ & -> & -> & _)|(Hne & _ & -> & -> & _)]; [done|].
  split; [|split].
  - intros i j n [[[= <- <-] <-]|[_ Hn]]%lookup_insert_Some; [|by eapply Hkeys].
    split; [done|].
    destruct (N_i_j_alpha s !! (sb, dest_boundary e)) as [n0|] eqn:Hn0; simpl;
      [|lia].
    destruct (Hkeys _ _ _ Hn0). lia.
  - by rewrite lookup_insert_ne.
  - intros i. destruct (decide (sb = i)) as [<-|Hi].
    + rewrite map_filter_insert_True by done.
      rewrite total_insert, lookup_insert_eq. cbn [default from_option id].
      rewrite length_app, Hsum. cbn [length].
      replace (filter (λ kv : Z * Z * Z, kv.1.1 = sb) (N_i_j_alpha s)
               !! (sb, dest_boundary e))
        with (N_i_j_alpha s !! (sb, dest_boundary e)); [lia|].
      destruct (N_i_j_alpha s !! (sb, dest_boundary e)) as [n0|] eqn:Hn0.
      * symmetry. by apply map_lookup_filter_Some.
      * symmetry. apply map_lookup_filter_None. by left.
    + rewrite map_filter_insert_not by (intros y; cbn; congruence).
      rewrite lookup_insert_ne by congruence. apply Hsum.
Qed.

Lemma in_window_records (min_time max_time : option Qc) (lines : list line) :
  NEW_SWARM ∉ lines →
  in_window min_time max_time lines
  = map Record_line (events_of (in_window min_time max_time lines)).
Proof.
  induction lines as [|[|e] lines IH]; [done| |].
  - intros []. by left.
  - intros Hno. assert (NEW_SWARM ∉ lines) by (intros ?; apply Hno; by right).
    cbn [in_window]. destruct (too_early _ _); [by apply IH|].
    destruct (too_late _ _); [done|].
    unfold events_of. cbn. f_equal. by apply IH.
Qed.

Lemma scan_lines_window_Ok (skip : bool) (min_time max_time : option Qc)
    (lines : list line) (st st' : scan) (stop : bool) :
  scan_lines skip min_time max_time lines st = Ok (st', stop) →
  scan_lines skip None None (in_window min_time max_time lines) st
  = Ok (st', false).
Proof.
  intros H. pose proof (scan_lines_in_window skip min_time max_time lines st) as Hw.
  rewrite H in Hw.
  destruct (scan_lines skip None None (in_window min_time max_time lines) st)
    as [[st2 b2]|]; [|done].
  cbn in Hw. by destruct Hw as [-> ->].
Qed.

(** The loop without a window on records only, once a source milestone is
    set. *)
Lemma scan_records_from (skip : bool) (evs : list event) (st st' : scan)
    (stop : bool) :
  scan_lines skip None None (map Record_line evs) st = Ok (st', stop) →
  is_Some (src st) →
  is_Some (src st') ∧
  last_bounce_time st'
  = default (last_bounce_time st) (dest_time <$> last evs) ∧
  qsum (T_alpha_list st')
  = qsum (T_alpha_list st) + (last_bounce_time st' - last_bounce_time st) ∧
  length (T_alpha_list st') = (length (T_alpha_list st) + length evs)%nat ∧
  (R_i_alpha_list st' = ∅ →
   R_i_alpha_list st = ∅ ∧ fst <$> src st' = fst <$> src st).
Proof.
  revert st. induction evs as [|e evs IH]; intros st.
  - intros [= <- _] Hsrc. cbn. split; [done|]. split; [done|].
    split; [ring|]. split; [lia|done].
  - cbn [map scan_lines].
    intros ([st1 b1] & Hstep & H)%bind_Ok Hsrc. cbn [fst snd] in H.
    apply scan_line_cases in Hstep
      as [(? & _)
         |[(e' & _ & _ & [?|?])
         |[(e' & _ & _ & Hnone & _)
          |(e' & sb & t0 & [= <-] & -> & Hsb & _ & _ & _ & _ & HT & Hlast & Hcase)]]];
      try done.
    { rewrite Hnone in Hsrc. by destruct Hsrc. }
    assert (is_Some (src st1)) as Hsrc1
      by (destruct Hcase as [(_ & _ & _ & ->)|(_ & _ & _ & _ & ->)]; eauto).
    destruct (IH st1 H Hsrc1) as (Hs' & Hl' & Hq' & Hlen' & Hfb).
    split; [done|]. split; [|split; [|split]].
    + rewrite Hl', Hlast. rewrite last_cons. by destruct (last evs).
    + rewrite Hq', HT, qsum_app, Hlast. cbn. unfold qsum. cbn. ring.
    + rewrite Hlen', HT, length_app. cbn. lia.
    + intros Hempty. destruct (Hfb Hempty) as [HR1 Hsrc'].
      destruct Hcase as [(_ & _ & HR & Hsrc1')|(_ & _ & _ & HR & _)].
      * rewrite <- HR, <- Hsrc1'. done.
      * rewrite HR in HR1. by apply insert_non_empty in HR1.
Qed.

(** The loop on records only, from the start. *)
Lemma scan_records (skip : bool) (evs : list event) (st : scan) (stop : bool) :
  scan_lines skip None None (map Record_line evs) scan0 = Ok (st, stop) →
  match evs with
  | [] => st = scan0
  | e :: rest =>
      qsum (T_alpha_list st) = dest_time (default e (last rest)) - dest_time e ∧
      length (T_alpha_list st) = length rest ∧
      (R_i_alpha_list st = ∅ → fst <$> src st = Some (dest_boundary e))
  end.
Proof.
  destruct evs as [|e rest]; [by intros [= <- _]|].
  cbn [map scan_lines scan_line too_early too_late scan0 src bind fst snd].
  intros H. apply scan_records_from in H as (_ & Hlast & Hq & Hlen & Hfb);
    [|by eexists].
  cbn in *. split; [|split; [done|]].
  - rewrite Hq, Hlast. unfold qsum. cbn. destruct (last rest); cbn; ring.
  - intros Hempty. by destruct (Hfb Hempty) as [_ ->].
Qed.

(** One bounce is counted for every time between bounces; in a log
    without swarm markers that is one for every record inside the time
    window but the first. *)
Theorem bounces_counted (files : list output_file)
    (min_time max_time : option Qc) (existing : option (list line))
    (skip : bool) (s : statistics) :
  openmm_read_output_file_list files min_time max_time existing skip = Ok s →
  total (st_N_alpha_beta s) = Z.of_nat (length (st_T_alpha_list s)) ∧
  (NEW_SWARM ∉ st_lines s →
   length (st_T_alpha_list s)
   = (length (events_of (in_window min_time max_time (st_lines s))) - 1)%nat).
Proof.
  intros (st & stop & Hscan & Hs)%openmm_read_Ok.
  split.
  - rewrite Hs. cbn. by apply (scan_lines_bounces _ _ _ _ _ _ Hscan).
  - intros Hno. apply scan_lines_window_Ok in Hscan.
    rewrite (in_window_records _ _ _ Hno) in Hscan.
    apply scan_records in Hscan. rewrite Hs at 1. cbn.
    destruct (events_of _) as [|e rest]; [by subst st|].
    destruct Hscan as (_ & -> & _). cbn. lia.
Qed.

(** No transition leads from a milestone to itself, and when a transition
    was counted, the transitions out of a milestone are as many as the
    incubation times recorded for it. *)
Theorem transitions_counted (files : list output_file)
    (min_time max_time : option Qc) (existing : option (list line))
    (skip : bool) (s : statistics) :
  openmm_read_output_file_list files min_time max_time existing skip = Ok s →
  (∀ i j n, st_N_i_j_alpha s !! (i, j) = Some n → i ≠ j ∧ (0 < n)%Z) ∧
  (st_N_i_j_alpha s ≠ ∅ →
   ∀ i, total (filter (λ kv, kv.1.1 = i) (st_N_i_j_alpha s))
        = Z.of_nat (length (default [] (st_R_i_alpha_list s !! Some i)))).
Proof.
  intros (st & stop & Hscan & ->)%openmm_read_Ok.
  destruct (scan_lines_transitions _ _ _ _ _ _ Hscan) as (Hkeys & _ & Hsum).
  cbn. split; [done|]. intros Hne.
  rewrite bool_decide_eq_false_2; [done|].
  rewrite map_size_empty_iff.
  by rewrite <- (scan_lines_N_R_empty _ _ _ _ _ _ Hscan).
Qed.

(** When no transition was counted in a log without swarm markers, the
    whole time is booked as incubation time of the one milestone the
    records bounce off, the milestone of the first record inside the time
    window ([None] when there is no record). *)
Theorem no_transition_fallback (files : list output_file)
    (min_time max_time : option Qc) (existing : option (list line))
    (skip : bool) (s : statistics) :
  openmm_read_output_file_list files min_time max_time existing skip = Ok s →
  NEW_SWARM ∉ st_lines s →
  st_N_i_j_alpha s = ∅ →
  let b := dest_boundary <$>
             head (events_of (in_window min_time max_time (st_lines s))) in
  st_R_i_alpha_total s = {[ b := st_T_alpha_total s ]} ∧
  st_R_i_alpha_list s = {[ b := st_T_alpha_list s ]}.
Proof.
  intros (st & stop & Hscan & Hs)%openmm_read_Ok Hno Hempty b.
  assert (R_i_alpha_list st = ∅) as HR.
  { apply (scan_lines_N_R_empty _ _ _ _ _ _ Hscan). by rewrite Hs in Hempty. }
  apply scan_lines_window_Ok in Hscan.
  rewrite (in_window_records _ _ _ Hno) in Hscan.
  apply scan_records in Hscan.
  assert (fst <$> src st = b) as Hb.
  { unfold b. destruct (events_of _) as [|e rest]; [by subst st|].
    by destruct Hscan as (_ & _ & ->). }
  rewrite Hs. cbn. rewrite HR, Hb.
  rewrite bool_decide_eq_true_2 by done. by rewrite fmap_empty.
Qed.

End Tally_facts.

Section Reader_examples.
Import Dense Reader Examples.
Local Open Scope Qc_scope.

Lemma reader_times_nonnegative_witness :
  Forall (λ x, 0 ≤ x) (st_T_alpha_list two_runs_read) ∧
  0 ≤ st_T_alpha_total two_runs_read ∧
  (∀ k l, st_R_i_alpha_list two_runs_read !! k = Some l →
          Forall (λ x, 0 ≤ x) l) ∧
  (∀ k r, st_R_i_alpha_total two_runs_read !! k = Some r → 0 ≤ r).
Proof.
  apply (reader_times_nonnegative [first_run; restarted_run] None None None false).
  vm_compute. reflexivity.
Defined.

Lemma bounces_counted_witness :
  total (st_N_alpha_beta two_runs_read)
  = Z.of_nat (length (st_T_alpha_list two_runs_read)) ∧
  (NEW_SWARM ∉ st_lines two_runs_read →
   length (st_T_alpha_list two_runs_read)
   = (length (events_of (in_window None None (st_lines two_runs_read))) - 1)%nat).
Proof.
  apply (bounces_counted [first_run; restarted_run] None None None false).
  vm_compute. reflexivity.
Defined.

Lemma transitions_counted_witness :
  (∀ i j n, st_N_i_j_alpha two_runs_read !! (i, j) = Some n →
            i ≠ j ∧ (0 < n)%Z) ∧
  (st_N_i_j_alpha two_runs_read ≠ ∅ →
   ∀ i, total (filter (λ kv, kv.1.1 = i) (st_N_i_j_alpha two_runs_read))
        = Z.of_nat (length (default []
                              (st_R_i_alpha_list two_runs_read !! Some i)))).
Proof.
  apply (transitions_counted [first_run; restarted_run] None None None false).
  vm_compute. reflexivity.
Defined.

Lemma no_transition_fallback_witness :
  let b := dest_boundary <$>
             head (events_of (in_window (Some (Qc_of_Z 2)) None
                                (st_lines one_milestone_read))) in
  st_R_i_alpha_total one_milestone_read
  = {[ b := st_T_alpha_total one_milestone_read ]} ∧
  st_R_i_alpha_list one_milestone_read
  = {[ b := st_T_alpha_list one_milestone_read ]}.
Proof.
  apply (no_transition_fallback [one_milestone_run] (Some (Qc_of_Z 2)) None
           None false).
  - vm_compute. reflexivity.
  - by_compute.
  - by_compute.
Defined.

(** The run that bounces off milestone 1 at times 1, 2 and 4, read from
    time 2 on: two records count, one bounce, two units of time, all of it
    booked on milestone 1. *)
Example one_milestone_read_counts :
  st_N_alpha_beta one_milestone_read = {[ 1%Z := 1%Z ]} ∧
  st_T_alpha_total one_milestone_read = Qc_of_Z 2 ∧
  st_R_i_alpha_total one_milestone_read = {[ Some 1%Z := Qc_of_Z 2 ]}.
Proof. split; [by_compute|]. split; by_compute. Qed.

End Reader_examples.

(** ** Merging without trimming *)

Section Concat_facts.
Import Dense Reader.
Local Open Scope Qc_scope.

Lemma concat_records_non_empty (files : list output_file) :
  concat (map records (non_empty_files files)) = concat (map records files).
Proof.
  induction files as [|f files IH]; [done|].
  unfold non_empty_files in *. destruct (records f) as [|e evs] eqn:Hrec.
  - rewrite filter_cons_False by (rewrite Hrec; auto). cbn. by rewrite Hrec.
  - rewrite filter_cons_True by (by rewrite Hrec). cbn. by rewrite IH.
Qed.

(** Without the restart check every turn of the merging loop appends the
    lines of a file as they are. *)
Lemma merge_loop_skip (files_lines : list (list line)) (start_times : list Qc)
    (k : nat) (lines : list line) :
  (k ≤ length files_lines)%nat →
  foldlM (merge_step true files_lines start_times)
         (seq (length files_lines - k) k) lines
  = Ok (lines ++ concat (drop (length files_lines - k) files_lines)).
Proof.
  revert lines. induction k as [|k IH]; intros lines Hk.
  - cbn. rewrite Nat.sub_0_r, drop_all. cbn. by rewrite app_nil_r.
  - cbn [seq foldlM]. unfold merge_step at 1.
    destruct (lookup_lt_is_Some_2 files_lines (length files_lines - S k))
      as [fl Hfl]; [lia|].
    rewrite (index_lookup _ _ _ Hfl). cbn [bind negb andb].
    replace (S (length files_lines - S k)) with (length files_lines - k)%nat
      by lia.
    rewrite IH by lia. rewrite (drop_S _ _ _ Hfl).
    replace (S (length files_lines - S k)) with (length files_lines - k)%nat
      by lia.
    cbn. by rewrite app_assoc.
Qed.

(** With [skip_restart_check=True] the merge never raises and drops
    nothing: the merged lines are the lines of the files one after the
    other, for files without swarm markers the records of the files. *)
Theorem merge_files_skip_is_concat (files : list output_file) :
  merge_files true files = Ok (concat (read_files files).1) ∧
  (Forall (λ f, swarm f = None) files →
   merge_files true files = Ok (map Record_line (concat (map records files)))).
Proof.
  assert (merge_files true files = Ok (concat (read_files files).1)) as Hgen.
  { unfold merge_files. destruct (read_files files) as [files_lines start_times].
    pose proof (merge_loop_skip files_lines start_times (length files_lines) []
                  ltac:(lia)) as H.
    rewrite Nat.sub_diag in H. by rewrite H. }
  split; [done|]. intros Hplain. rewrite Hgen.
  rewrite (read_files_plain _ Hplain). cbn [fst].
  rewrite <- concat_records_non_empty. f_equal.
  induction (non_empty_files files) as [|f fs IH]; [done|].
  cbn. by rewrite map_app, IH.
Qed.

(** A file whose last record is not later than the restart keeps its
    records. *)
Lemma trim_file_in_order (evs : list event) (e : event) (next : Qc) :
  last evs = Some e → dest_time e ≤ next →
  trim_file (map Record_line evs) next = Ok (map Record_line evs).
Proof.
  intros Hlast Hle.
  destruct evs as [|x evs _] using rev_ind; [done|].
  rewrite last_snoc in Hlast. injection Hlast as ->.
  unfold trim_file. rewrite map_app. cbn [map]. rewrite last_snoc.
  destruct (decide (Some (Record_line e) = Some NEW_SWARM)) as [[=]|_].
  rewrite decide_False by (by destruct (map Record_line evs)).
  rewrite reverse_snoc. cbn [pop_trailing].
  rewrite decide_False by (by apply Qcle_not_lt).
  cbn [bind]. by rewrite reverse_cons, reverse_involutive.
Qed.

Lemma in_order_lookup (files : list output_file) (i : nat) (f : output_file)
    (e : event) :
  in_order files →
  non_empty_files files !! i = Some f → last (records f) = Some e →
  dest_time e ≤ next_start_of (drop (S i) (non_empty_files files)).
Proof.
  revert i. induction files as [|f0 later IH]; intros i; [done|].
  intros [Hf0 Hlater]. unfold non_empty_files in *.
  destruct (decide (records f0 = [])) as [Hempty|Hne].
  - rewrite filter_cons_False by auto. by apply IH.
  - rewrite filter_cons_True by done. destruct i as [|i]; cbn.
    + intros [= <-] Hlast. rewrite drop_0. by apply Hf0.
    + by apply IH.
Qed.

(** With the restart check, files without swarm markers of which each ends
    before the next one starts are merged without loss: the merge returns
    the records of the files one after the other. *)
Theorem merge_files_in_order (files : list output_file) :
  Forall (λ f, swarm f = None) files →
  in_order files →
  merge_files false files = Ok (map Record_line (concat (map records files))).
Proof.
  intros Hplain Horder. unfold merge_files.
  rewrite (read_files_plain _ Hplain). rewrite length_map.
  rewrite <- concat_records_non_empty.
  pose proof (in_order_lookup files) as Hlook.
  assert (Forall (λ f, records f ≠ []) (non_empty_files files)) as Hne.
  { apply Forall_forall. intros f Hf. by apply list_elem_of_filter in Hf as [? _]. }
  set (fs := non_empty_files files) in *.
  destruct (foldlM_seq_total
              (merge_step false (map (λ f, map Record_line (records f)) fs)
                 (map start_time_of fs))
              (λ k lines, lines = map Record_line (concat (map records (take k fs))))
              0 (length fs) []) as (lines & -> & ->); [done| |].
  - intros k lines [_ Hk] ->. cbn in Hk.
    destruct (lookup_lt_is_Some_2 fs k Hk) as [f Hf].
    unfold merge_step.
    rewrite (index_lookup _ _ (map Record_line (records f)))
      by (by rewrite list_lookup_fmap, Hf).
    cbn [bind]. rewrite Forall_lookup in Hne. pose proof (Hne _ _ Hf) as Hnef.
    rewrite bool_decide_eq_false_2 by (by destruct (records f)).
    cbn [negb andb].
    rewrite next_start_time_plain by (by apply Forall_lookup). cbn [bind].
    destruct (last (records f)) as [e|] eqn:Hlast.
    2:{ apply last_None in Hlast. done. }
    rewrite (trim_file_in_order _ e) by eauto. cbn [bind].
    eexists. split; [done|].
    rewrite (take_S_r _ _ _ Hf), map_app, concat_app, map_app. cbn.
    by rewrite app_nil_r.
  - cbn. by rewrite firstn_all.
Qed.

Import Examples.

Lemma merge_files_skip_is_concat_witness :
  merge_files true [first_run; restarted_run]
  = Ok (concat (read_files [first_run; restarted_run]).1) ∧
  (Forall (λ f, swarm f = None) [first_run; restarted_run] →
   merge_files true [first_run; restarted_run]
   = Ok (map Record_line (concat (map records [first_run; restarted_run])))).
Proof. apply (merge_files_skip_is_concat [first_run; restarted_run]). Defined.

Lemma merge_files_in_order_witness :
  merge_files false [first_run_early; restarted_run]
  = Ok (map Record_line (concat (map records [first_run_early; restarted_run]))).
Proof.
  apply (merge_files_in_order [first_run_early; restarted_run]).
  - repeat constructor.
  - cbn. split; [intros e [= <-]; by_compute|].
    split; [intros e [= <-]; by_compute|done].
Defined.

End Concat_facts.

(** ** The sampling loop with [skip] and [stride] given *)

Section Stride_facts.
Import Monte_carlo.
Local Open Scope Z_scope.

Context {C L S : Type}.
Variable move : C → result (C * L).
Variable plain : L → S.
Variable retain : L → result S.

Hypothesis move_returns : ∀ c, ∃ r, move c = Ok r.
Hypothesis retain_returns : ∀ l, ∃ s, retain l = Ok s.

(** The counters below [k] that are retained are the multiples of the
    stride above [skip]. *)
Lemma stride_loop_length (skip s : Z) (n : nat) (st : loop_state) :
  0 < s → 0 ≤ skip → data_sample_list st = [] →
  ∃ st', foldlM (loop_step move plain retain skip s) (seq 0 n) st = Ok st' ∧
    (n = 0%nat → st' = st) ∧
    ∀ m, m * s < Z.of_nat n ≤ (m + 1) * s →
         Z.of_nat (length (data_sample_list st')) = Z.max 0 (m - skip / s).
Proof.
  intros Hs Hskip Hnil.
  pose proof (Z.div_mod skip s ltac:(lia)) as Hdiv.
  pose proof (Z.mod_pos_bound skip s Hs) as Hmod.
  set (q := skip / s) in *. set (r := skip mod s) in *.
  apply (foldlM_seq_total (loop_step move plain retain skip s)
           (λ k s', (k = 0%nat → s' = st) ∧
                    ∀ m, m * s < Z.of_nat k ≤ (m + 1) * s →
                         Z.of_nat (length (data_sample_list s')) = Z.max 0 (m - q))
           0 n st).
  { split; [done|]. intros m Hm. rewrite Hnil. cbn [length].
    assert (0 ≤ q) by nia. nia. }
  intros k st1 _ [H0 Hlen].
  destruct (loop_step_returns move plain retain move_returns retain_returns
              skip s st1 k ltac:(lia)) as (st2 & -> & _ & Hst2).
  exists st2. split; [done|]. split; [lia|].
  intros m Hm. rewrite Hst2. clear Hst2.
  assert (0 ≤ q) by nia.
  destruct (decide (k = 0%nat)) as [->|Hk].
  { rewrite (H0 eq_refl), Hnil. rewrite decide_False by lia. cbn [length].
    assert (m = 0) by nia. lia. }
  destruct (decide (Z.of_nat k = m * s)) as [Hkm|Hkm].
  - assert (Hprev : Z.of_nat (length (data_sample_list st1))
                    = Z.max 0 (m - 1 - q)) by (apply Hlen; nia).
    assert (Z.of_nat k mod s = 0) by (rewrite Hkm; apply Z.mod_mul; lia).
    destruct (decide (q < m)).
    + rewrite decide_True by (split; [nia|done]). lia.
    + rewrite decide_False by (intros [? _]; nia). lia.
  - assert (Hprev : Z.of_nat (length (data_sample_list st1))
                    = Z.max 0 (m - q)) by (apply Hlen; lia).
    rewrite decide_False; [lia|].
    intros [_ Hmod']. apply (between_multiples s m (Z.of_nat k)); [lia|done].
Qed.

(** With a positive [stride], a [skip] that is not negative and the turns
    returning, [monte_carlo_milestoning_error] called for [num >= 1]
    samples retains [num] of them when [skip] is not a multiple of
    [stride], and [num - 1] when it is. *)
Theorem sampling_loop_count (n_milestones : nat) (num skip stride : Z)
    (init : C) :
  0 < stride → 0 ≤ skip → 1 ≤ num →
  ∃ data_sample_list,
    sampling_loop move plain retain n_milestones num (Some skip) (Some stride)
      init = Ok data_sample_list ∧
    Z.of_nat (length data_sample_list)
    = if decide (skip mod stride = 0) then num - 1 else num.
Proof.
  intros Hs Hskip Hnum. unfold sampling_loop. cbn [from_option id].
  set (st0 := {| chain := init; new_data_sample := None;
                 data_sample_list := [] |}).
  destruct (stride_loop_length skip stride (Z.to_nat (num * stride + skip)) st0
              Hs Hskip eq_refl) as (st & Hst & _ & Hlen).
  destruct (loop_returns move plain retain move_returns retain_returns
              skip stride (Z.to_nat (num * stride + skip)) st0 ltac:(lia))
    as (st' & Hst' & Hsome).
  rewrite Hst in Hst'. injection Hst' as <-.
  rewrite Hst. cbn.
  rewrite bool_decide_eq_true_2 by (apply Hsome; nia). cbn.
  eexists. split; [done|].
  pose proof (Z.div_mod skip stride ltac:(lia)) as Hdiv.
  pose proof (Z.mod_pos_bound skip stride Hs) as Hmod.
  case_decide as Hr.
  - rewrite (Hlen (num + skip / stride - 1)) by nia. lia.
  - rewrite (Hlen (num + skip / stride)) by nia. lia.
Qed.

(** A stride of 0 divides nothing: the loop makes [skip] turns, none of
    which passes the test [counter > skip], so [counter % stride] is never
    evaluated; no sample is retained. *)
Lemma zero_stride_loop (skip : Z) (n : nat) (st : loop_state) :
  Z.of_nat n ≤ Z.max 0 skip →
  ∃ st', foldlM (loop_step move plain retain skip 0) (seq 0 n) st = Ok st' ∧
         data_sample_list st' = data_sample_list st ∧
         (n ≠ 0%nat → is_Some (new_data_sample st')).
Proof.
  intros Hn.
  apply (foldlM_seq_total (loop_step move plain retain skip 0)
           (λ k s', data_sample_list s' = data_sample_list st ∧
                    (k ≠ 0%nat → is_Some (new_data_sample s')))
           0 n st); [done|].
  intros k st1 [_ Hk] [Hlist _]. cbn in Hk.
  unfold loop_step, retained.
  destruct (move_returns (chain st1)) as [[c l] ->]. cbn.
  rewrite decide_False by lia. cbn.
  eexists. split; [done|]. cbn. split; [done|]. by eexists.
Qed.

(** With [stride=0] and the turns returning,
    [monte_carlo_milestoning_error] raises no [ZeroDivisionError]: it
    returns an empty list of samples when [skip >= 1], and fails on the
    assertion after the loop otherwise. *)
Theorem sampling_loop_zero_stride (n_milestones : nat) (num : Z)
    (skip : option Z) (init : C) :
  sampling_loop move plain retain n_milestones num skip (Some 0) init
  = if decide (0 < default (10 * Z.of_nat n_milestones ^ 2) skip)
    then Ok []
    else Raise (AssertionError nothing_sampled_msg).
Proof.
  unfold sampling_loop. cbn [from_option id].
  set (sk := default (10 * Z.of_nat n_milestones ^ 2) skip).
  set (st0 := {| chain := init; new_data_sample := None;
                 data_sample_list := [] |}).
  destruct (zero_stride_loop sk (Z.to_nat (num * 0 + sk)) st0 ltac:(lia))
    as (st & Hst & Hlist & Hsome).
  rewrite Hst. cbn. case_decide as Hsk.
  - rewrite bool_decide_eq_true_2 by (apply Hsome; lia). cbn. by rewrite Hlist.
  - replace (Z.to_nat (num * 0 + sk)) with 0%nat in Hst by lia.
    injection Hst as <-. done.
Qed.

End Stride_facts.

Section Stride_examples.
Import Monte_carlo Examples.
Local Open Scope Z_scope.

Lemma sampling_loop_count_witness :
  ∃ data_sample_list,
    sampling_loop count_move id Ok 1 3 (Some 5) (Some 2) 0%nat
    = Ok data_sample_list ∧
    Z.of_nat (length data_sample_list) = if decide (5 mod 2 = 0) then 3 - 1 else 3.
Proof.
  apply (sampling_loop_count count_move id Ok);
    [intros c | intros l | lia | lia | lia]; by eexists.
Defined.

Lemma sampling_loop_zero_stride_witness :
  sampling_loop count_move id Ok 1 3 (Some 4) (Some 0) 0%nat
  = if decide (0 < default (10 * Z.of_nat 1 ^ 2) (Some 4))
    then Ok []
    else Raise (AssertionError nothing_sampled_msg).
Proof.
  apply (sampling_loop_zero_stride count_move id Ok).
  intros c. by eexists.
Defined.

(** Three samples, a skip of 5 and a stride of 2: eleven turns, of which
    those of the counters 6, 8 and 10 are retained. *)
Example sampling_loop_skip_5_stride_2 :
  sampling_loop count_move id Ok 1 3 (Some 5) (Some 2) 0%nat
  = Ok [6%nat; 8%nat; 10%nat].
Proof. vm_compute. reflexivity. Qed.

End Stride_examples.

(** ** The anchor rate matrix of [make_mcmc_quantities] *)

Section K_matrix_facts.
Import Dense Model Sample Monte_carlo.
Local Open Scope Qc_scope.

(** Row [alpha] of [k_alpha_beta_matrix] for an anchor that is not the
    bulk. *)
Lemma mcmc_k_step_row (k N : gmap (nat * nat) Qc) (n alpha : nat)
    (rows : list Qc * list Qc) :
  (alpha < n)%nat →
  foldlM (mcmc_k_step k N alpha) (seq 0 n) (zeros n, zeros n) = Ok rows →
  length rows.1 = n ∧ qsum rows.1 = 0 ∧
  ∀ beta, (beta < n)%nat → beta ≠ alpha →
          rows.1 !! beta = Some (getitem_default k (alpha, beta)).
Proof.
  intros Halpha Hloop.
  pose (P := λ (j : nat) (rows : list Qc * list Qc),
          length rows.1 = n ∧ length rows.2 = n ∧ qsum rows.1 = 0 ∧
          ∀ beta, (beta < n)%nat → beta ≠ alpha →
                  rows.1 !! beta
                  = Some (if decide (beta < j)%nat
                          then getitem_default k (alpha, beta) else 0)).
  assert (P (0 + n)%nat rows) as (Hlen & _ & Hsum & Hent).
  { eapply (foldlM_seq_inv _ P 0 n); [| |exact Hloop].
    - unfold P. cbn. rewrite !length_zeros, qsum_zeros.
      split; [done|]. split; [done|]. split; [done|].
      intros beta Hbeta _. by rewrite lookup_zeros.
    - unfold P. intros j s s' [_ Hj] (Hl1 & Hl2 & Hs & He) Hstep. cbn in Hj.
      unfold mcmc_k_step in Hstep.
      destruct (decide (alpha = j)) as [<-|Hne].
      { injection Hstep as <-. split; [done|]. split; [done|]. split; [done|].
        intros beta Hbeta Hba. rewrite (He beta Hbeta Hba).
        f_equal. repeat case_decide; try done; lia. }
      destruct (k !! (alpha, j)) as [kab|] eqn:Hk.
      2:{ injection Hstep as <-. split; [done|]. split; [done|]. split; [done|].
          intros beta Hbeta Hba. rewrite (He beta Hbeta Hba). f_equal.
          destruct (decide (beta = j)) as [->|].
          - rewrite decide_False, decide_True by lia.
            unfold getitem_default. by rewrite Hk.
          - repeat case_decide; try done; lia. }
      apply bind_Ok in Hstep as (krow & [_ ->]%setitem_Ok & Hstep).
      apply bind_Ok in Hstep as (d & Hd%index_Ok & Hstep).
      apply bind_Ok in Hstep as (krow' & [_ ->]%setitem_Ok & Hstep).
      apply bind_Ok in Hstep as (nab & _ & Hstep).
      apply bind_Ok in Hstep as (nrow & [_ ->]%setitem_Ok & [= <-]).
      cbn [fst snd].
      rewrite !length_insert. split; [done|]. split; [done|].
      rewrite list_lookup_insert_ne in Hd by done.
      assert (s.1 !! j = Some 0) as Hj0.
      { rewrite (He j) by (done || lia). by rewrite decide_False by lia. }
      split.
      + rewrite (qsum_insert _ _ d) by (by rewrite list_lookup_insert_ne).
        rewrite (qsum_insert _ _ 0) by done. rewrite Hs. ring.
      + intros beta Hbeta Hba.
        rewrite list_lookup_insert_ne by done.
        destruct (decide (beta = j)) as [->|Hbj].
        * rewrite list_lookup_insert_eq by lia.
          rewrite decide_True by lia. unfold getitem_default. by rewrite Hk.
        * rewrite list_lookup_insert_ne by done. rewrite (He beta Hbeta Hba).
          f_equal. repeat case_decide; try done; lia. }
  split; [done|]. split; [done|].
  intros beta Hbeta Hba. rewrite (Hent beta Hbeta Hba).
  by rewrite decide_True by lia.
Qed.

(** The rows of [k_alpha_beta_matrix]. *)
Lemma make_mcmc_quantities_k_rows (self : MMVT_data_sample)
    (q : mcmc_quantities) (k : gmap (nat * nat) Qc) :
  make_mcmc_quantities self = Ok q → k_alpha_beta self = Some k →
  let n := num_anchors (model self) in
  length (k_alpha_beta_matrix q) = n ∧
  ∀ alpha row, k_alpha_beta_matrix q !! alpha = Some row →
    ∃ a, anchors (model self) !! alpha = Some a ∧
         length row = n ∧ qsum row = 0 ∧
         (bulkstate a = true → row = zeros n) ∧
         (bulkstate a = false →
          ∀ beta, (beta < n)%nat → beta ≠ alpha →
                  row !! beta = Some (getitem_default k (alpha, beta))).
Proof.
  intros H Hk n. unfold make_mcmc_quantities in H. rewrite Hk in H.
  destruct (N_alpha_beta self) as [N|]; [|done].
  destruct (N_i_j_alpha self) as [Ns|]; [|done].
  destruct (R_i_alpha self) as [Rs|]; [|done].
  destruct (T_alpha self) as [Ta|]; [|done].
  apply bind_Ok in H as (rows & Hrows & H).
  apply bind_Ok in H as ([[[invT Nl] Rl] Ql] & _ & H).
  apply bind_Ok in H as (T' & _ & [= <-]). cbn.
  apply mapM_seq_inv in Hrows as [Hlen Hrow].
  rewrite length_map. split; [done|].
  intros alpha row Hlook. rewrite list_lookup_fmap in Hlook.
  destruct (rows !! alpha) as [r|] eqn:Hr; [|done]. injection Hlook as <-.
  assert (alpha < n)%nat as Halpha
    by (apply lookup_lt_Some in Hr; by rewrite Hlen in Hr).
  specialize (Hrow _ _ Hr). cbn in Hrow. unfold mcmc_k_row in Hrow.
  apply bind_Ok in Hrow as (a & Ha%index_Ok & Hrow).
  exists a. split; [done|].
  destruct (bulkstate a).
  - injection Hrow as <-. cbn. rewrite length_zeros, qsum_zeros. done.
  - apply bind_Ok in Hrow as (kr & Hkr & Hrow).
    apply bind_Ok in Hrow as (T_a & _ & [= <-]). cbn.
    destruct (mcmc_k_step_row _ _ _ _ _ Halpha Hkr) as (? & ? & ?). done.
Qed.

(** Every row of [k_alpha_beta_matrix] sums to zero: the diagonal entry of
    an anchor is minus the sum of its rates, the row of the bulk anchor is
    zero; off the diagonal the matrix holds [k_alpha_beta]. *)
Theorem k_alpha_beta_matrix_rows (self : MMVT_data_sample)
    (q : mcmc_quantities) (k : gmap (nat * nat) Qc) :
  make_mcmc_quantities self = Ok q → k_alpha_beta self = Some k →
  length (k_alpha_beta_matrix q) = num_anchors (model self) ∧
  ∀ alpha row a,
    k_alpha_beta_matrix q !! alpha = Some row →
    anchors (model self) !! alpha = Some a →
    length row = num_anchors (model self) ∧ qsum row = 0 ∧
    ∀ beta x, row !! beta = Some x → beta ≠ alpha →
      x = if bulkstate a then 0 else getitem_default k (alpha, beta).
Proof.
  intros H Hk. destruct (make_mcmc_quantities_k_rows _ _ _ H Hk) as [Hlen Hrows].
  split; [done|]. intros alpha row a Hrow Ha.
  destruct (Hrows _ _ Hrow) as (a' & Ha' & Hl & Hs & Hbulk & Hnon).
  rewrite Ha in Ha'. injection Ha' as <-.
  split; [done|]. split; [done|].
  intros beta x Hx Hba.
  assert (beta < num_anchors (model self))%nat as Hbeta
    by (apply lookup_lt_Some in Hx; by rewrite Hl in Hx).
  destruct (bulkstate a).
  - rewrite Hbulk in Hx by done. rewrite lookup_zeros in Hx by done. congruence.
  - rewrite Hnon in Hx by done. congruence.
Qed.

End K_matrix_facts.

(** ** From the rate matrix back to [k_alpha_beta] *)

Section Fill_k_facts.
Import Dense Model Sample Monte_carlo.
Local Open Scope Qc_scope.

(** The loop over [beta] of [fill_k_from_matrices] on row [alpha]. *)
Lemma fill_k_row (M : ndarray Qc) (row : list Qc) (n alpha : nat)
    (k0 : gmap (nat * nat) Qc) :
  M !! alpha = Some row → length row = n →
  ∃ k1, foldlM (fill_k_step M alpha) (seq 0 n) k0 = Ok k1 ∧
    ∀ a b, k1 !! (a, b)
           = if decide (a = alpha ∧ (b < n)%nat ∧ b ≠ alpha ∧
                        0 < default 0 (row !! b))
             then row !! b else k0 !! (a, b).
Proof.
  intros Hrow Hlen.
  pose (P := λ (j : nat) (k1 : gmap (nat * nat) Qc),
          ∀ a b, k1 !! (a, b)
                 = if decide (a = alpha ∧ (b < j)%nat ∧ b ≠ alpha ∧
                              0 < default 0 (row !! b))
                   then row !! b else k0 !! (a, b)).
  apply (foldlM_seq_total (fill_k_step M alpha) P 0 n k0); unfold P.
  { intros a b. rewrite decide_False; [done|]. intros (_ & ? & _). lia. }
  intros j k1 [_ Hj] Hk1. cbn in Hj. unfold fill_k_step.
  destruct (decide (alpha = j)) as [<-|Hne].
  { exists k1. split; [done|]. intros a b. rewrite Hk1.
    apply decide_ext. split; intros (? & ? & ? & ?); repeat split; (done || lia). }
  destruct (lookup_lt_is_Some_2 row j) as [v Hv]; [lia|].
  unfold at2. rewrite (index_lookup _ _ _ Hrow). cbn [bind].
  rewrite (index_lookup _ _ _ Hv). cbn [bind].
  destruct (decide (0 < v)) as [Hpos|Hnpos].
  - eexists. split; [done|]. intros a b.
    destruct (decide ((a, b) = (alpha, j))) as [[= -> ->]|Hab].
    + rewrite lookup_insert_eq, Hv. cbn.
      rewrite decide_True; [done|]. repeat split; (done || lia).
    + rewrite lookup_insert_ne by done. rewrite Hk1.
      apply decide_ext. split; intros (-> & ? & ? & ?); repeat split;
        try (done || lia).
      destruct (decide (b = j)) as [->|]; [done|lia].
  - exists k1. split; [done|]. intros a b. rewrite Hk1.
    apply decide_ext. split; intros (-> & ? & ? & Hp); repeat split;
      try (done || lia).
    destruct (decide (b = j)) as [->|]; [|lia].
    rewrite Hv in Hp. done.
Qed.

(** [fill_k_from_matrices] on a square matrix: the dictionary holds the
    positive entries off the diagonal of the rows of the anchors that are
    not the bulk, and nothing else. *)
Lemma fill_k_from_matrices_lookup (m : Model.t) (M : ndarray Qc) :
  (∀ alpha, (alpha < num_anchors m)%nat → is_Some (anchors m !! alpha)) →
  (∀ alpha, (alpha < num_anchors m)%nat →
            ∃ row, M !! alpha = Some row ∧ length row = num_anchors m) →
  ∃ k, fill_k_from_matrices m M = Ok k ∧
    ∀ a b, k !! (a, b)
           = if decide ((a < num_anchors m)%nat ∧ (b < num_anchors m)%nat ∧
                        b ≠ a ∧ bulkstate <$> anchors m !! a = Some false ∧
                        0 < default 0 (M !! a ≫= (.!! b)))
             then M !! a ≫= (.!! b) else None.
Proof.
  intros Hanchors Hrows. unfold fill_k_from_matrices.
  set (n := num_anchors m) in *.
  pose (P := λ (j : nat) (k : gmap (nat * nat) Qc),
          ∀ a b, k !! (a, b)
                 = if decide ((a < j)%nat ∧ (b < n)%nat ∧ b ≠ a ∧
                              bulkstate <$> anchors m !! a = Some false ∧
                              0 < default 0 (M !! a ≫= (.!! b)))
                   then M !! a ≫= (.!! b) else None).
  apply (foldlM_seq_total _ P 0 n ∅); unfold P.
  { intros a b. rewrite lookup_empty, decide_False; [done|].
    intros (? & _). lia. }
  intros j k [_ Hj] Hk. cbn in Hj.
  destruct (Hanchors j Hj) as [anchor Ha].
  rewrite (index_lookup _ _ _ Ha). cbn [bind].
  destruct (bulkstate anchor) eqn:Hbulk.
  - exists k. split; [done|]. intros a b. rewrite Hk.
    apply decide_ext. split; intros (? & ? & ? & Hb & ?); repeat split;
      try (done || lia).
    destruct (decide (a = j)) as [->|]; [|lia].
    rewrite Ha in Hb. cbn in Hb. congruence.
  - destruct (Hrows j Hj) as (row & Hrow & Hlen).
    destruct (fill_k_row M row n j k Hrow Hlen) as (k1 & -> & Hk1).
    exists k1. split; [done|]. intros a b. rewrite Hk1, Hk.
    destruct (decide (a = j)) as [->|Haj].
    + rewrite (decide_False (P := (j < j)%nat ∧ _)) by (intros (? & _); lia).
      rewrite Hrow, Ha. cbn. rewrite Hbulk.
      apply decide_ext. split.
      * intros (_ & ? & ? & ?). repeat split; (done || lia).
      * intros (_ & ? & ? & _ & ?). done.
    + rewrite (decide_False (P := a = j ∧ _)) by (by intros (? & _)).
      apply decide_ext. split; intros (? & ? & ? & ? & ?); repeat split;
        (done || lia).
Qed.

(** Round trip.  When every rate of [k_alpha_beta] is positive and leads
    from an anchor that is not the bulk to another anchor of the model,
    [fill_k_from_matrices] on the [k_alpha_beta_matrix] of
    [make_mcmc_quantities] gives [k_alpha_beta] back. *)
Theorem fill_k_from_matrices_round_trip (self : MMVT_data_sample)
    (q : mcmc_quantities) (k : gmap (nat * nat) Qc) :
  make_mcmc_quantities self = Ok q → k_alpha_beta self = Some k →
  (∀ a b v, k !! (a, b) = Some v →
     0 < v ∧ a ≠ b ∧
     (a < num_anchors (model self))%nat ∧ (b < num_anchors (model self))%nat ∧
     bulkstate <$> anchors (model self) !! a = Some false) →
  fill_k_from_matrices (model self) (k_alpha_beta_matrix q) = Ok k.
Proof.
  intros H Hk Hkeys.
  destruct (make_mcmc_quantities_k_rows _ _ _ H Hk) as [Hlen Hrows].
  destruct (fill_k_from_matrices_lookup (model self) (k_alpha_beta_matrix q))
    as (k' & -> & Hk').
  { intros alpha Halpha.
    destruct (lookup_lt_is_Some_2 (k_alpha_beta_matrix q) alpha) as [row Hrow];
      [by rewrite Hlen|].
    destruct (Hrows _ _ Hrow) as (a & -> & _). by eexists. }
  { intros alpha Halpha.
    destruct (lookup_lt_is_Some_2 (k_alpha_beta_matrix q) alpha) as [row Hrow];
      [by rewrite Hlen|].
    destruct (Hrows _ _ Hrow) as (a & _ & ? & _). by exists row. }
  f_equal. apply map_eq. intros [a b]. rewrite Hk'.
  case_decide as Hc.
  - destruct Hc as (Ha & Hb & Hba & Hbulk & Hpos).
    destruct (lookup_lt_is_Some_2 (k_alpha_beta_matrix q) a) as [row Hrow];
      [by rewrite Hlen|].
    destruct (Hrows _ _ Hrow) as (an & Han & _ & _ & _ & Hnon).
    rewrite Han in Hbulk. cbn in Hbulk. injection Hbulk as Hbulk.
    rewrite Hrow in *. cbn in *. rewrite (Hnon Hbulk b Hb Hba) in *. cbn in Hpos.
    unfold getitem_default in *. destruct (k !! (a, b)); [done|].
    cbn in Hpos. by apply Qclt_not_eq in Hpos.
  - destruct (k !! (a, b)) as [v|] eqn:Hv; [|done].
    destruct (Hkeys _ _ _ Hv) as (Hpos & Hab & Ha & Hb & Hbulk).
    exfalso. apply Hc. repeat split; try done; try congruence.
    destruct (lookup_lt_is_Some_2 (k_alpha_beta_matrix q) a) as [row Hrow];
      [by rewrite Hlen|].
    destruct (Hrows _ _ Hrow) as (an & Han & _ & _ & _ & Hnon).
    rewrite Han in Hbulk. cbn in Hbulk. injection Hbulk as Hbulk.
    rewrite Hrow. cbn. rewrite (Hnon Hbulk b Hb) by congruence. cbn.
    unfold getitem_default. by rewrite Hv.
Qed.

End Fill_k_facts.

Section K_matrix_examples.
Import Dense Model Sample Monte_carlo Examples.
Local Open Scope Qc_scope.

Lemma k_alpha_beta_matrix_rows_witness :
  length (k_alpha_beta_matrix chain_quantities) = num_anchors (model chain_sample) ∧
  ∀ alpha row a,
    k_alpha_beta_matrix chain_quantities !! alpha = Some row →
    anchors (model chain_sample) !! alpha = Some a →
    length row = num_anchors (model chain_sample) ∧ qsum row = 0 ∧
    ∀ beta x, row !! beta = Some x → beta ≠ alpha →
      x = if bulkstate a then 0 else getitem_default chain_k (alpha, beta).
Proof.
  apply (k_alpha_beta_matrix_rows chain_sample chain_quantities chain_k).
  - vm_compute. reflexivity.
  - reflexivity.
Defined.

Lemma fill_k_from_matrices_round_trip_witness :
  fill_k_from_matrices (model chain_sample) (k_alpha_beta_matrix chain_quantities)
  = Ok chain_k.
Proof.
  apply (fill_k_from_matrices_round_trip chain_sample chain_quantities chain_k).
  - vm_compute. reflexivity.
  - reflexivity.
  - intros a b v Hv.
    apply (map_Forall_lookup_1
             (λ (ab : nat * nat) (v : Qc),
                0 < v ∧ ab.1 ≠ ab.2 ∧
                (ab.1 < num_anchors (model chain_sample))%nat ∧
                (ab.2 < num_anchors (model chain_sample))%nat ∧
                bulkstate <$> anchors (model chain_sample) !! ab.1 = Some false)
             chain_k (a, b) v); [by_compute|done].
Defined.

(** The anchor rate matrix of the chain of two cells and the bulk. *)
Example chain_k_alpha_beta_matrix :
  k_alpha_beta_matrix chain_quantities
  = [[Qc_of_Z (-1); 1; 0]; [Qc_of_Z 2; Qc_of_Z (-5); Qc_of_Z 3]; [0; 0; 0]].
Proof. by_compute. Qed.

End K_matrix_examples.

(** ** When the global statistics exist *)

Section Global_facts.
Import Dense Model Sample.
Local Open Scope Qc_scope.

Lemma Qcinv_pos (s : Qc) : 0 < s → 0 < / s.
Proof.
  intros Hs. destruct (Qclt_le_dec 0 (/ s)) as [|Hle]; [done|]. exfalso.
  assert (/ s * s ≤ 0 * s) as H
    by (apply Qcmult_le_compat_r; [done|by apply Qclt_le_weak]).
  rewrite Qcmult_inv_l, Qcmult_0_l in H by (by apply not_eq_sym, Qclt_not_eq).
  by apply (Qcle_not_lt _ _ H).
Qed.

Lemma Qcdiv_pos (a b : Qc) : 0 < a → 0 < b → 0 < a / b.
Proof.
  intros Ha Hb. unfold Qcdiv. rewrite <- (Qcmult_0_l (/ b)).
  apply Qcmult_lt_compat_r; [by apply Qcinv_pos|done].
Qed.

(** A loop no turn of which raises, whatever it has accumulated. *)
Lemma foldlM_Forall_total {A B} (f : B → A → result B) (l : list A) (b : B) :
  Forall (λ a, ∀ b, ∃ b', f b a = Ok b') l → ∃ b', foldlM f l b = Ok b'.
Proof.
  intros Hl. revert b. induction Hl as [|a l Ha _ IH]; intros b; cbn.
  - by eexists.
  - destruct (Ha b) as [b1 ->]. cbn. apply IH.
Qed.

Lemma accumulate_total {K} `{Countable K} (time_fraction p : Qc) (msg : string)
    (d acc : gmap K Qc) :
  0 < time_fraction → 0 ≤ p → map_Forall (λ _ v, 0 < v) d →
  ∃ acc', accumulate time_fraction p msg d acc = Ok acc'.
Proof.
  intros Htf Hp. unfold accumulate.
  apply (map_fold_weak_ind
           (λ r m, map_Forall (λ _ v, 0 < v) m → ∃ acc', r = Ok acc')).
  - intros _. by eexists.
  - intros i x m r Hi IH Hall.
    apply map_Forall_insert in Hall as [Hx Hm]; [|done].
    destruct (IH Hm) as [a ->]. unfold accumulate_key. cbn.
    rewrite !bool_decide_eq_true_2 by done. cbn. by eexists.
Qed.

Lemma enumerate_from_non_bulk (a : nat) (l : list Anchor) (alpha : nat)
    (anchor : Anchor) :
  (alpha, anchor) ∈ enumerate_from a l → bulkstate anchor = false →
  alpha ∈ non_bulk_from a l.
Proof.
  revert a. induction l as [|x l IH]; intros a; cbn.
  - by intros ?%elem_of_nil.
  - intros [[= -> ->]|Hin]%elem_of_cons Hbulk.
    + rewrite Hbulk. by left.
    + destruct (bulkstate x); [by apply IH|]. right. by apply IH.
Qed.

(** When [fill_out_data_quantities] does not raise: every anchor that is
    not the bulk has its entries, a positive total time [T_alpha], a
    [pi_alpha] that is not negative, positive counts and positive
    incubation times of which there is at least one, and the sum of
    pi_alpha / T_alpha over these anchors is positive.  The [T] it sets is
    positive then. *)
Theorem fill_out_data_quantities_returns (self : MMVT_data_sample)
    (N k : gmap (nat * nat) Qc) (Ns : list (gmap (Z * Z) Qc))
    (Rs : list (gmap Z Qc)) (Ta : list Qc) :
  N_alpha_beta self = Some N → k_alpha_beta self = Some k →
  N_i_j_alpha self = Some Ns → R_i_alpha self = Some Rs →
  T_alpha self = Some Ta →
  (∀ alpha, alpha ∈ non_bulk_indices (model self) →
     ∃ p t N_a R_a,
       pi_alpha self !! alpha = Some p ∧ Ta !! alpha = Some t ∧
       Ns !! alpha = Some N_a ∧ Rs !! alpha = Some R_a ∧
       0 ≤ p ∧ 0 < t ∧
       map_Forall (λ _ v, 0 < v) N_a ∧
       map_Forall (λ _ v, 0 < v) R_a ∧ R_a ≠ ∅) →
  0 < qsum (map (anchor_weight (pi_alpha self) Ta)
                (non_bulk_indices (model self))) →
  ∃ self', fill_out_data_quantities self = Ok self' ∧ 0 < T self'.
Proof.
  intros HN Hk HNs HRs HTa Hanchors Hsum.
  unfold fill_out_data_quantities. rewrite HN, Hk, HNs, HRs, HTa.
  unfold non_bulk_indices in *. unfold enumerate.
  destruct (foldlM_Forall_total
              (sum_pi_alpha_over_T_alpha_step (pi_alpha self) Ta)
              (enumerate_from 0 (anchors (model self))) 0) as [s Hs].
  { apply Forall_forall. intros [alpha anchor] Hin acc. cbn.
    destruct (bulkstate anchor) eqn:Hbulk; [by eexists|].
    destruct (Hanchors alpha (enumerate_from_non_bulk _ _ _ _ Hin Hbulk))
      as (p & t & N_a & R_a & Hp & Ht & _ & _ & _ & Hpos & _).
    rewrite (index_lookup _ _ _ Hp), (index_lookup _ _ _ Ht). cbn.
    unfold qdiv. rewrite decide_False by (by apply not_eq_sym, Qclt_not_eq).
    cbn. by eexists. }
  rewrite Hs. cbn [bind].
  apply sum_pi_alpha_over_T_alpha_Ok in Hs. rewrite Qcplus_0_l in Hs.
  fold (anchor_weight (pi_alpha self) Ta) in Hs. rewrite <- Hs in Hsum.
  unfold qdiv at 1. rewrite decide_False by (by apply not_eq_sym, Qclt_not_eq).
  cbn [bind].
  assert (0 < 1 / s) as HT by (by apply Qcdiv_pos).
  rewrite bool_decide_eq_true_2 by (by apply Qclt_le_weak). cbn [assert bind].
  destruct (foldlM_Forall_total
              (fill_out_step (pi_alpha self) Ta Ns Rs (1 / s))
              (enumerate_from 0 (anchors (model self))) (∅, ∅)) as [NR HNR].
  { apply Forall_forall. intros [alpha anchor] Hin acc. cbn.
    destruct (bulkstate anchor) eqn:Hbulk; [by eexists|].
    destruct (Hanchors alpha (enumerate_from_non_bulk _ _ _ _ Hin Hbulk))
      as (p & t & N_a & R_a & Hp & Ht & HNa & HRa & Hp0 & Hpos & HNpos & HRpos & HRne).
    rewrite (index_lookup _ _ _ Hp), (index_lookup _ _ _ Ht). cbn [bind].
    rewrite bool_decide_eq_true_2 by (by apply Qclt_le_weak). cbn [assert bind].
    unfold qdiv. rewrite decide_False by (by apply not_eq_sym, Qclt_not_eq).
    cbn [bind].
    rewrite (index_lookup _ _ _ HNa). cbn [bind].
    destruct (accumulate_total (1 / s / t) p
                "N_i_j_alpha[key] should be positive" N_a acc.1)
      as [N1 ->]; [by apply Qcdiv_pos|done..|].
    cbn [bind]. rewrite (index_lookup _ _ _ HRa). cbn [bind].
    rewrite decide_False by (by rewrite map_size_empty_iff).
    destruct (accumulate_total (1 / s / t) p
                "R_i_alpha[key] should be positive" R_a acc.2)
      as [R1 ->]; [by apply Qcdiv_pos|done..|].
    cbn. by eexists. }
  rewrite HNR. cbn. eexists. split; [done|]. done.
Qed.

End Global_facts.

Section Global_examples.
Import Dense Model Sample Examples.
Local Open Scope Qc_scope.

Lemma fill_out_data_quantities_returns_witness :
  ∃ self', fill_out_data_quantities chain_sample = Ok self' ∧ 0 < T self'.
Proof.
  apply (fill_out_data_quantities_returns chain_sample chain_N chain_k
           chain_Ns chain_Rs chain_Ta); [reflexivity..| |by_compute].
  - intros alpha Hin. change (alpha ∈ [0%nat; 1%nat]) in Hin.
    apply elem_of_cons in Hin as [->|[->|[]%elem_of_nil]%elem_of_cons].
    + eexists _, _, _, _. repeat (split; [reflexivity|]).
      split; [by_compute|]. split; [by_compute|]. split; [by_compute|].
      split; by_compute.
    + eexists _, _, _, _. repeat (split; [reflexivity|]).
      split; [by_compute|]. split; [by_compute|]. split; [by_compute|].
      split; by_compute.
Defined.

End Global_examples.

(** ** One bulk anchor *)

Section One_bulk_facts.
Import Dense Model Sample.
Local Open Scope Qc_scope.

Variable solve : ndarray Qc → list Qc → result (list Qc).

(** What a turn of the loop over [alpha] does to [bulk_index]. *)
Lemma flux_alpha_step_bulk_index (k : gmap (nat * nat) Qc)
    (anchors : list Anchor) (n alpha : nat)
    (st st' : ndarray Qc * list Qc * option nat) :
  flux_alpha_step k anchors n st alpha = Ok st' →
  ∃ a, anchors !! alpha = Some a ∧
       if bulkstate a then st.2 = None ∧ st'.2 = Some alpha else st'.2 = st.2.
Proof.
  destruct st as [[fm cs] bi]. unfold flux_alpha_step.
  intros (a & Ha%index_Ok & H)%bind_Ok. exists a. split; [done|].
  destruct (bulkstate a).
  - apply bind_Ok in H as (? & Hb%assert_Ok%bool_decide_eq_true & H).
    apply bind_Ok in H as (fm1 & _ & [= <-]). done.
  - apply bind_Ok in H as ([fm1 cs1] & _ & H).
    apply bind_Ok in H as (c & _ & H).
    apply bind_Ok in H as (fm2 & _ & [= <-]). done.
Qed.

Lemma build_flux_matrix_one_bulk (m : Model.t) (k : gmap (nat * nat) Qc)
    (flux_matrix : ndarray Qc) (b : nat) :
  build_flux_matrix m k = Ok (flux_matrix, b) →
  (b < num_anchors m)%nat ∧
  (∃ a, anchors m !! b = Some a ∧ bulkstate a = true) ∧
  ∀ i a, (i < num_anchors m)%nat → anchors m !! i = Some a →
         bulkstate a = true → i = b.
Proof.
  unfold build_flux_matrix. intros (st & Hloop & H)%bind_Ok.
  pose (P := λ (j : nat) (st : ndarray Qc * list Qc * option nat),
          match st.2 with
          | None => ∀ i a, (i < j)%nat → anchors m !! i = Some a →
                           bulkstate a = false
          | Some b => (b < j)%nat ∧
                      (∃ a, anchors m !! b = Some a ∧ bulkstate a = true) ∧
                      ∀ i a, (i < j)%nat → anchors m !! i = Some a →
                             bulkstate a = true → i = b
          end).
  assert (P (0 + num_anchors m)%nat st) as HP.
  { eapply (foldlM_seq_inv _ P 0 (num_anchors m)); [| |exact Hloop]; unfold P.
    - cbn. intros i a Hi. lia.
    - intros j s s' _ Hs Hstep.
      apply flux_alpha_step_bulk_index in Hstep as (a & Ha & Hcase).
      destruct (bulkstate a) eqn:Hbulk.
      + destruct Hcase as [Hnone ->]. rewrite Hnone in Hs.
        split; [lia|]. split; [by exists a|].
        intros i a' Hi Ha' Hb'. destruct (decide (i = j)) as [|Hij]; [done|].
        rewrite (Hs i a') in Hb' by (done || lia). done.
      + rewrite Hcase. destruct (s.2) as [b0|].
        * destruct Hs as (Hb0 & Hex & Huniq). split; [lia|]. split; [done|].
          intros i a' Hi Ha' Hb'. destruct (decide (i = j)) as [->|Hij].
          -- rewrite Ha in Ha'. injection Ha' as <-. congruence.
          -- apply (Huniq i a'); (done || lia).
        * intros i a' Hi Ha'. destruct (decide (i = j)) as [->|Hij].
          -- rewrite Ha in Ha'. by injection Ha' as <-.
          -- apply (Hs i a'); (done || lia). }
  unfold P in HP. destruct st as [[fm cs] [b0|]]; [|done].
  injection H as <- <-. done.
Qed.

(** [calculate_pi_alpha] returns only for a model with exactly one bulk
    anchor among its [num_anchors] anchors, and with [k_alpha_beta]
    set. *)
Theorem calculate_pi_alpha_one_bulk (self : MMVT_data_sample) (pi : list xQc) :
  calculate_pi_alpha solve self = Ok pi →
  is_Some (k_alpha_beta self) ∧
  ∃ b a, (b < num_anchors (model self))%nat ∧
    anchors (model self) !! b = Some a ∧ bulkstate a = true ∧
    ∀ i a', (i < num_anchors (model self))%nat →
            anchors (model self) !! i = Some a' → bulkstate a' = true → i = b.
Proof.
  unfold calculate_pi_alpha.
  destruct (k_alpha_beta self) as [k|]; [|done].
  intros ([fm b] & Hflux & _)%bind_Ok. split; [by eexists|].
  apply build_flux_matrix_one_bulk in Hflux as (Hb & (a & Ha & Hbulk) & Huniq).
  exists b, a. done.
Qed.

End One_bulk_facts.

Section One_bulk_examples.
Import Dense Model Sample Examples.
Local Open Scope Qc_scope.

Lemma calculate_pi_alpha_one_bulk_witness :
  is_Some (k_alpha_beta chain_sample) ∧
  ∃ b a, (b < num_anchors (model chain_sample))%nat ∧
    anchors (model chain_sample) !! b = Some a ∧ bulkstate a = true ∧
    ∀ i a', (i < num_anchors (model chain_sample))%nat →
            anchors (model chain_sample) !! i = Some a' →
            bulkstate a' = true → i = b.
Proof.
  apply (calculate_pi_alpha_one_bulk Scipy.solve chain_sample chain_pi).
  vm_compute. reflexivity.
Defined.

End One_bulk_examples.

(** ** Looking milestones up *)

Section Lookup_facts.
Import Model Elber_anchor.

(** A dictionary filled from a list holds, under a key, what the last
    element with that key put there. *)
Lemma fold_insert_lookup {A K V} `{Countable K} (kf : A → K) (vf : A → V)
    (l : list A) (x : K) :
  foldl (λ d a, <[kf a := vf a]> d) (∅ : gmap K V) l !! x
  = vf <$> last (filter (λ a, kf a = x) l).
Proof.
  induction l as [|a l IH] using rev_ind; [done|].
  rewrite foldl_app, filter_app. cbn [foldl].
  destruct (decide (kf a = x)) as [<-|Hne].
  - rewrite lookup_insert_eq, filter_cons_True, filter_nil by done.
    by rewrite last_snoc.
  - rewrite lookup_insert_ne, filter_cons_False, filter_nil, app_nil_r by done.
    done.
Qed.

Lemma collection_components (l : list Milestone)
    (d : gmap Z Z * gmap Z Z * gmap nat Z) :
  foldl (λ d milestone,
           (<[milestone_index milestone := alias_index milestone]> d.1.1,
            <[alias_index milestone := milestone_index milestone]> d.1.2,
            <[neighbor_anchor_index milestone := alias_index milestone]> d.2))
        d l
  = (foldl (λ d m, <[milestone_index m := alias_index m]> d) d.1.1 l,
     foldl (λ d m, <[alias_index m := milestone_index m]> d) d.1.2 l,
     foldl (λ d m, <[neighbor_anchor_index m := alias_index m]> d) d.2 l).
Proof.
  revert d. induction l as [|m l IH]; intros [[d1 d2] d3]; [done|].
  cbn [foldl]. by rewrite IH.
Qed.

Lemma alias_from_id_last (self : Anchor) (my_id : Z) :
  alias_from_id self my_id
  = alias_index <$> last (filter (λ m, milestone_index m = my_id) (milestones self)).
Proof.
  unfold alias_from_id, _make_milestone_collection.
  rewrite collection_components. cbn [fst snd]. apply fold_insert_lookup.
Qed.

Lemma id_from_alias_last (self : Anchor) (alias_id : Z) :
  id_from_alias self alias_id
  = milestone_index <$> last (filter (λ m, alias_index m = alias_id) (milestones self)).
Proof.
  unfold id_from_alias, _make_milestone_collection.
  rewrite collection_components. cbn [fst snd]. apply fold_insert_lookup.
Qed.

Lemma alias_from_neighbor_id_last (self : Anchor) (neighbor_id : nat) :
  alias_from_neighbor_id self neighbor_id
  = alias_index <$> last (filter (λ m, neighbor_anchor_index m = neighbor_id)
                            (milestones self)).
Proof.
  unfold alias_from_neighbor_id, _make_milestone_collection.
  rewrite collection_components. cbn [fst snd]. apply fold_insert_lookup.
Qed.

Lemma filter_nil_Forall {A} (P : A → Prop) `{∀ x, Decision (P x)} (l : list A) :
  filter P l = [] ↔ Forall (λ x, ¬ P x) l.
Proof.
  induction l as [|x l IH]; [by split; [constructor|]|].
  destruct (decide (P x)) as [HP|HP].
  - rewrite filter_cons_True by done. split; [done|].
    intros [Hx _]%Forall_cons. done.
  - rewrite filter_cons_False by done. rewrite IH. split.
    + by constructor.
    + by intros [_ ?]%Forall_cons.
Qed.

(** In a list without two elements of the same key, the elements of a key
    are one at most. *)
Lemma filter_NoDup_key {A K} `{EqDecision K} (f : A → K) (l : list A) (a : A) :
  NoDup (f <$> l) → a ∈ l → filter (λ x, f x = f a) l = [a].
Proof.
  induction l as [|x l IH]; [by intros _ ?%elem_of_nil|].
  cbn [fmap list_fmap]. intros [Hx Hl]%NoDup_cons [->|Hin]%elem_of_cons.
  - rewrite filter_cons_True by done. f_equal.
    apply filter_nil_Forall. apply Forall_forall. intros y Hy Heq. apply Hx.
    rewrite <- Heq. by apply list_elem_of_fmap_2.
  - rewrite filter_cons_False; [by apply IH|].
    intros Heq. apply Hx. rewrite Heq. by apply list_elem_of_fmap_2.
Qed.

Lemma last_filter_elem {A} (P : A → Prop) `{∀ x, Decision (P x)} (l : list A)
    (a : A) :
  last (filter P l) = Some a → a ∈ l ∧ P a.
Proof.
  intros Hlast. apply last_Some in Hlast as [l' Hl'].
  assert (a ∈ filter P l) as Hin
    by (rewrite Hl'; apply elem_of_app; right; by left).
  by apply list_elem_of_filter in Hin as [? ?].
Qed.

(** Round trip between the index and the alias of a milestone.  When no
    two milestones of the anchor have the same alias, [id_from_alias] undoes
    [alias_from_id]; when no two have the same index, [alias_from_id]
    undoes [id_from_alias]. *)
Theorem alias_and_id_round_trip (self : Anchor) (my_id alias_id : Z) :
  (NoDup (alias_index <$> milestones self) →
   alias_from_id self my_id = Some alias_id →
   id_from_alias self alias_id = Some my_id) ∧
  (NoDup (milestone_index <$> milestones self) →
   id_from_alias self alias_id = Some my_id →
   alias_from_id self my_id = Some alias_id).
Proof.
  split; intros Hnodup H.
  - rewrite alias_from_id_last in H. rewrite id_from_alias_last.
    destruct (last (filter _ (milestones self))) as [m|] eqn:Hlast; [|done].
    injection H as <-.
    apply last_filter_elem in Hlast as [Hin <-].
    by rewrite (filter_NoDup_key alias_index _ m Hnodup Hin).
  - rewrite id_from_alias_last in H. rewrite alias_from_id_last.
    destruct (last (filter _ (milestones self))) as [m|] eqn:Hlast; [|done].
    injection H as <-.
    apply last_filter_elem in Hlast as [Hin <-].
    by rewrite (filter_NoDup_key milestone_index _ m Hnodup Hin).
Qed.

(** A lookup answers [None] exactly when no milestone of the anchor has the
    key; otherwise it answers with the last milestone that has it.
    [get_ids] holds the indices of the milestones and nothing else. *)
Theorem lookups_answer_from_milestones (self : Anchor) :
  (∀ neighbor_id,
     alias_from_neighbor_id self neighbor_id = None ↔
     ∀ m, m ∈ milestones self → neighbor_anchor_index m ≠ neighbor_id) ∧
  (∀ my_id,
     alias_from_id self my_id = None ↔
     ∀ m, m ∈ milestones self → milestone_index m ≠ my_id) ∧
  (∀ alias_id,
     id_from_alias self alias_id = None ↔
     ∀ m, m ∈ milestones self → alias_index m ≠ alias_id) ∧
  (∀ earlier m,
     milestones self = earlier ++ [m] →
     alias_from_neighbor_id self (neighbor_anchor_index m) = Some (alias_index m) ∧
     alias_from_id self (milestone_index m) = Some (alias_index m) ∧
     id_from_alias self (alias_index m) = Some (milestone_index m)) ∧
  (∀ my_id,
     my_id ∈ get_ids self ↔
     ∃ m, m ∈ milestones self ∧ milestone_index m = my_id).
Proof.
  assert (∀ (P : Milestone → Prop) `{∀ x, Decision (P x)} (l : list Milestone),
            last (filter P l) = None ↔ ∀ m, m ∈ l → ¬ P m) as Hnone.
  { intros P ? l. rewrite last_None. rewrite filter_nil_Forall, Forall_forall.
    done. }
  split; [|split; [|split; [|split]]].
  - intros n. rewrite alias_from_neighbor_id_last, fmap_None. apply Hnone.
  - intros i. rewrite alias_from_id_last, fmap_None. apply Hnone.
  - intros a. rewrite id_from_alias_last, fmap_None. apply Hnone.
  - intros earlier m Hm.
    rewrite alias_from_neighbor_id_last, alias_from_id_last, id_from_alias_last.
    rewrite Hm, !filter_app, !filter_cons_True, !filter_nil, !last_snoc by done.
    done.
  - intros i. unfold get_ids. rewrite elem_of_dom.
    fold (alias_from_id self i). rewrite alias_from_id_last. split.
    + intros [al Hal].
      destruct (last (filter _ (milestones self))) as [m|] eqn:Hlast; [|done].
      apply last_filter_elem in Hlast as [? ?]. by exists m.
    + intros (m & Hin & Heq).
      destruct (last (filter (λ m, milestone_index m = i) (milestones self)))
        as [m'|] eqn:Hlast; [by eexists|].
      exfalso.
      pose proof (proj1 (Hnone (λ m, milestone_index m = i) _ _) Hlast) as Hall.
      by apply (Hall m).
Qed.

End Lookup_facts.

Section Lookup_examples.
Import Model Elber_anchor Examples.

Lemma alias_and_id_round_trip_witness :
  id_from_alias two_milestone_anchor 2 = Some 7%Z ∧
  alias_from_id two_milestone_anchor 7 = Some 2%Z.
Proof.
  destruct (alias_and_id_round_trip two_milestone_anchor 7 2) as [Hid Halias].
  split.
  - apply Hid; [by_compute|vm_compute; reflexivity].
  - apply Halias; [by_compute|vm_compute; reflexivity].
Defined.

(** Two milestones with the alias 1: [id_from_alias] answers with the
    later one, and the round trip from the index 6 ends at the index 8. *)
Example id_from_alias_later_wins :
  alias_from_id shared_alias_anchor 6 = Some 1%Z ∧
  id_from_alias shared_alias_anchor 1 = Some 8%Z.
Proof. split; by_compute. Qed.

End Lookup_examples.

(** ** The milestones between neighbouring anchors *)

Section Milestoning_facts.
Import Milestoning.
Local Open Scope Qc_scope.

(** What [make_mmvt_milestoning_objects_spherical] returns for an input
    anchor of the list. *)
Lemma spherical_milestones (cv a m c : Z) (i : nat)
    (input_anchors : list Spherical_cv_anchor) (me : Spherical_cv_anchor) :
  input_anchors !! i = Some me →
  let prev := default me (input_anchors !! (i - 1)%nat) in
  let next := default me (input_anchors !! (i + 1)%nat) in
  let lower :=
    {| milestone_index := m; neighbor_anchor_index := (c - 1)%Z;
       alias_index := a; cv_index := cv;
       variables :=
         {[ "k"%string := - 1;
            "radius"%string :=
              default (half * (radius me + radius prev))
                      (lower_milestone_radius me) ]} |} in
  let a' := if decide (0 < i)%nat then (a + 1)%Z else a in
  let m' := if decide (0 < i)%nat then (m + 1)%Z else m in
  let upper :=
    {| milestone_index := m'; neighbor_anchor_index := (c + 1)%Z;
       alias_index := a'; cv_index := cv;
       variables :=
         {[ "k"%string := 1;
            "radius"%string :=
              default (half * (radius me + radius next))
                      (upper_milestone_radius me) ]} |} in
  make_mmvt_milestoning_objects_spherical cv a m i c input_anchors
  = Ok ((if decide (0 < i)%nat then [lower] else [])
        ++ (if decide (i + 1 < length input_anchors)%nat then [upper] else []),
        a', m').
Proof.
  intros Hme. cbn zeta. unfold make_mmvt_milestoning_objects_spherical.
  pose proof (lookup_lt_Some _ _ _ Hme) as Hi.
  rewrite !(index_lookup _ _ _ Hme).
  destruct (decide (0 < i)%nat) as [Hpos|Hpos].
  - destruct (lookup_lt_is_Some_2 input_anchors (i - 1)) as [prev Hprev]; [lia|].
    rewrite (index_lookup _ _ _ Hprev), Hprev. cbn [bind default from_option id].
    destruct (decide (Z.of_nat i < Z.of_nat (length input_anchors) - 1)%Z),
      (decide (i + 1 < length input_anchors)%nat); try lia.
    + destruct (lookup_lt_is_Some_2 input_anchors (i + 1)) as [next Hnext]; [lia|].
      rewrite (index_lookup _ _ _ Hnext), Hnext. cbn [bind].
      by destruct (lower_milestone_radius me), (upper_milestone_radius me).
    + by destruct (lower_milestone_radius me).
  - cbn [bind app].
    destruct (decide (Z.of_nat i < Z.of_nat (length input_anchors) - 1)%Z),
      (decide (i + 1 < length input_anchors)%nat); try lia; [|done].
    destruct (lookup_lt_is_Some_2 input_anchors (i + 1)) as [next Hnext]; [lia|].
    rewrite (index_lookup _ _ _ Hnext), Hnext. cbn [bind].
    by destruct (upper_milestone_radius me).
Qed.

(** The same for [make_mmvt_milestoning_objects_planar]. *)
Lemma planar_milestones (cv a m c : Z) (i : nat)
    (input_anchors : list Planar_cv_anchor) (me : Planar_cv_anchor) :
  input_anchors !! i = Some me →
  let prev := default me (input_anchors !! (i - 1)%nat) in
  let next := default me (input_anchors !! (i + 1)%nat) in
  let lower :=
    {| milestone_index := m; neighbor_anchor_index := (c - 1)%Z;
       alias_index := a; cv_index := cv;
       variables :=
         {[ "k"%string := - 1;
            "value"%string :=
              default (half * (value me + value prev))
                      (lower_milestone_value me) ]} |} in
  let a' := if decide (0 < i)%nat then (a + 1)%Z else a in
  let m' := if decide (0 < i)%nat then (m + 1)%Z else m in
  let upper :=
    {| milestone_index := m'; neighbor_anchor_index := (c + 1)%Z;
       alias_index := a'; cv_index := cv;
       variables :=
         {[ "k"%string := 1;
            "value"%string :=
              default (half * (value me + value next))
                      (upper_milestone_value me) ]} |} in
  make_mmvt_milestoning_objects_planar cv a m i c input_anchors
  = Ok ((if decide (0 < i)%nat then [lower] else [])
        ++ (if decide (i + 1 < length input_anchors)%nat then [upper] else []),
        a', m').
Proof.
  intros Hme. cbn zeta. unfold make_mmvt_milestoning_objects_planar.
  pose proof (lookup_lt_Some _ _ _ Hme) as Hi.
  rewrite !(index_lookup _ _ _ Hme).
  destruct (decide (0 < i)%nat) as [Hpos|Hpos].
  - destruct (lookup_lt_is_Some_2 input_anchors (i - 1)) as [prev Hprev]; [lia|].
    rewrite (index_lookup _ _ _ Hprev), Hprev. cbn [bind default from_option id].
    destruct (decide (Z.of_nat i < Z.of_nat (length input_anchors) - 1)%Z),
      (decide (i + 1 < length input_anchors)%nat); try lia.
    + destruct (lookup_lt_is_Some_2 input_anchors (i + 1)) as [next Hnext]; [lia|].
      rewrite (index_lookup _ _ _ Hnext), Hnext. cbn [bind].
      by destruct (lower_milestone_value me), (upper_milestone_value me).
    + by destruct (lower_milestone_value me).
  - cbn [bind app].
    destruct (decide (Z.of_nat i < Z.of_nat (length input_anchors) - 1)%Z),
      (decide (i + 1 < length input_anchors)%nat); try lia; [|done].
    destruct (lookup_lt_is_Some_2 input_anchors (i + 1)) as [next Hnext]; [lia|].
    rewrite (index_lookup _ _ _ Hnext), Hnext. cbn [bind].
    by destruct (upper_milestone_value me).
Qed.

(** Two neighbouring input anchors of a spherical collective variable,
    the second made with the [milestone_index] the first call returned and
    with the next [anchor_index]: the upper milestone of the first anchor
    and the lower milestone of the second have the same index, point at
    each other's anchor, have [k] of 1 and -1, and, where neither radius is
    given explicitly, the same radius. *)
Theorem neighbours_share_a_milestone (cv a a2 m c : Z) (i : nat)
    (input_anchors : list Spherical_cv_anchor)
    (me next : Spherical_cv_anchor) :
  input_anchors !! i = Some me → input_anchors !! S i = Some next →
  ∃ ms1 a1 m1 ms2 a3 m3 upper lower,
    make_mmvt_milestoning_objects_spherical cv a m i c input_anchors
    = Ok (ms1, a1, m1) ∧
    make_mmvt_milestoning_objects_spherical cv a2 m1 (S i) (c + 1) input_anchors
    = Ok (ms2, a3, m3) ∧
    last ms1 = Some upper ∧ head ms2 = Some lower ∧
    milestone_index upper = milestone_index lower ∧
    neighbor_anchor_index upper = (c + 1)%Z ∧
    neighbor_anchor_index lower = c ∧
    variables upper !! "k"%string = Some 1 ∧
    variables lower !! "k"%string = Some (- 1) ∧
    (upper_milestone_radius me = None → lower_milestone_radius next = None →
     variables upper !! "radius"%string = variables lower !! "radius"%string).
Proof.
  intros Hme Hnext.
  pose proof (lookup_lt_Some _ _ _ Hnext) as Hlen.
  pose proof (spherical_milestones cv a m c i input_anchors me Hme) as H1.
  cbn zeta in H1. rewrite (decide_True (P := (i + 1 < length input_anchors)%nat)) in H1 by lia.
  replace (i + 1)%nat with (S i) in H1 by lia. rewrite Hnext in H1.
  do 8 eexists. split; [exact H1|].
  pose proof (spherical_milestones cv a2
                (if decide (0 < i)%nat then m + 1 else m)%Z (c + 1) (S i)
                input_anchors next Hnext) as H2.
  cbn zeta in H2. rewrite (decide_True (P := (0 < S i)%nat)) in H2 by lia.
  replace (S i - 1)%nat with i in H2 by lia. rewrite Hme in H2.
  split; [exact H2|].
  split; [apply last_snoc|]. split; [done|]. cbn.
  split; [done|]. split; [done|]. split; [lia|]. split; [done|]. split; [done|].
  intros -> ->. cbn [default from_option id].
  rewrite !lookup_insert_ne by done. rewrite !lookup_singleton_eq.
  f_equal. ring.
Qed.

(** The milestones of an input anchor of a planar collective variable: a
    lower one unless the anchor is the first, an upper one unless it is the
    last, in this order; their aliases and indices count up from
    [milestone_alias] and [milestone_index], their neighbours are the
    anchors before and after, and the alias and the index returned are
    advanced by the lower milestone only. *)
Theorem planar_milestones_of_an_anchor (cv a m c : Z) (i : nat)
    (input_anchors : list Planar_cv_anchor) :
  (i < length input_anchors)%nat →
  ∃ ms a' m',
    make_mmvt_milestoning_objects_planar cv a m i c input_anchors
    = Ok (ms, a', m') ∧
    a' = (if decide (0 < i)%nat then a + 1 else a)%Z ∧
    m' = (if decide (0 < i)%nat then m + 1 else m)%Z ∧
    alias_index <$> ms
    = (if decide (0 < i)%nat then [a] else [])
      ++ (if decide (i + 1 < length input_anchors)%nat then [a'] else []) ∧
    milestone_index <$> ms
    = (if decide (0 < i)%nat then [m] else [])
      ++ (if decide (i + 1 < length input_anchors)%nat then [m'] else []) ∧
    neighbor_anchor_index <$> ms
    = (if decide (0 < i)%nat then [(c - 1)%Z] else [])
      ++ (if decide (i + 1 < length input_anchors)%nat then [(c + 1)%Z] else []) ∧
    NoDup (alias_index <$> ms).
Proof.
  intros Hi. destruct (lookup_lt_is_Some_2 input_anchors i Hi) as [me Hme].
  rewrite (planar_milestones cv a m c i input_anchors me Hme).
  do 3 eexists. split; [done|]. split; [done|]. split; [done|].
  destruct (decide (0 < i)%nat), (decide (i + 1 < length input_anchors)%nat);
    cbn; repeat split; try done; repeat constructor;
    try (by intros ?%elem_of_nil).
  intros [Heq|[]%elem_of_nil]%elem_of_cons. lia.
Qed.

(** Past the end of the list the function raises [IndexError], except
    for the index 0 of an empty list, for which it returns no
    milestone. *)
Theorem planar_milestones_past_the_end (cv a m c : Z) (i : nat)
    (input_anchors : list Planar_cv_anchor) :
  (length input_anchors ≤ i)%nat →
  make_mmvt_milestoning_objects_planar cv a m i c input_anchors
  = if decide (0 < i)%nat then Raise IndexError else Ok ([], a, m).
Proof.
  intros Hi. unfold make_mmvt_milestoning_objects_planar.
  destruct (decide (0 < i)%nat).
  - unfold index at 1. by rewrite lookup_ge_None_2 by lia.
  - cbn [bind]. by rewrite decide_False by lia.
Qed.

Lemma half_le_mid (v w : Qc) : w ≤ v → half * (v + w) ≤ v.
Proof.
  intros Hle. assert (half + half = 1) as Hhalf by by_compute.
  replace v with (half * (v + v)) at 2
    by (transitivity ((half + half) * v); [ring|rewrite Hhalf; ring]).
  rewrite !(Qcmult_comm half). apply Qcmult_le_compat_r; [|by_compute].
  apply Qcplus_le_compat; [apply Qcle_refl|done].
Qed.

Lemma mid_le_half (v w : Qc) : v ≤ w → v ≤ half * (v + w).
Proof.
  intros Hle. assert (half + half = 1) as Hhalf by by_compute.
  replace v with (half * (v + v)) at 1
    by (transitivity ((half + half) * v); [ring|rewrite Hhalf; ring]).
  rewrite !(Qcmult_comm half). apply Qcmult_le_compat_r; [|by_compute].
  apply Qcplus_le_compat; [apply Qcle_refl|done].
Qed.

Lemma check_lower (v bound tolerance : Qc) :
  bound ≤ v → 0 ≤ tolerance →
  check_value_within_boundary v
    {[ "k"%string := - 1; "value"%string := bound ]} tolerance = Ok true.
Proof.
  intros Hb Htol. unfold check_value_within_boundary, getitem.
  rewrite lookup_insert_eq. cbn [bind].
  rewrite lookup_insert_ne, lookup_singleton_eq by done. cbn [bind].
  rewrite decide_False; [done|]. apply Qcle_not_lt.
  eapply Qcle_trans; [|exact Htol].
  replace (- 1 * (v - bound)) with (bound + - v) by ring.
  rewrite <- (Qcplus_opp_r v). apply Qcplus_le_compat; [done|apply Qcle_refl].
Qed.

Lemma check_upper (v bound tolerance : Qc) :
  v ≤ bound → 0 ≤ tolerance →
  check_value_within_boundary v
    {[ "k"%string := 1; "value"%string := bound ]} tolerance = Ok true.
Proof.
  intros Hb Htol. unfold check_value_within_boundary, getitem.
  rewrite lookup_insert_eq. cbn [bind].
  rewrite lookup_insert_ne, lookup_singleton_eq by done. cbn [bind].
  rewrite decide_False; [done|]. apply Qcle_not_lt.
  eapply Qcle_trans; [|exact Htol].
  replace (1 * (v - bound)) with (v + - bound) by ring.
  rewrite <- (Qcplus_opp_r bound). apply Qcplus_le_compat; [done|apply Qcle_refl].
Qed.

(** An input anchor of a planar collective variable lies within the
    milestones made for it: when its value is not below the value of the
    anchor before it nor above the value of the anchor after it, and not
    outside the milestone values given explicitly, its value passes
    [check_value_within_boundary] for each of its milestones, with any
    tolerance that is not negative. *)
Theorem anchor_within_its_milestones (cv a m c : Z) (i : nat)
    (input_anchors : list Planar_cv_anchor) (me : Planar_cv_anchor)
    (tolerance : Qc) :
  input_anchors !! i = Some me →
  (∀ prev, (0 < i)%nat → input_anchors !! (i - 1)%nat = Some prev →
           value prev ≤ value me) →
  (∀ next, input_anchors !! (i + 1)%nat = Some next → value me ≤ value next) →
  (∀ v, lower_milestone_value me = Some v → v ≤ value me) →
  (∀ v, upper_milestone_value me = Some v → value me ≤ v) →
  0 ≤ tolerance →
  ∃ ms a' m',
    make_mmvt_milestoning_objects_planar cv a m i c input_anchors
    = Ok (ms, a', m') ∧
    ∀ milestone, milestone ∈ ms →
      check_value_within_boundary (value me) (variables milestone) tolerance
      = Ok true.
Proof.
  intros Hme Hprev Hnext Hlower Hupper Htol.
  rewrite (planar_milestones cv a m c i input_anchors me Hme).
  do 3 eexists. split; [done|].
  intros milestone [Hin|Hin]%elem_of_app.
  - destruct (decide (0 < i)%nat) as [Hpos|]; [|by apply elem_of_nil in Hin].
    apply list_elem_of_singleton in Hin as ->. cbn [variables].
    apply check_lower; [|done].
    destruct (lower_milestone_value me) as [v|] eqn:Hv; cbn; [by apply Hlower|].
    apply half_le_mid.
    destruct (input_anchors !! (i - 1)%nat) as [prev|] eqn:Hp; cbn;
      [by apply Hprev|apply Qcle_refl].
  - destruct (decide (i + 1 < length input_anchors)%nat);
      [|by apply elem_of_nil in Hin].
    apply list_elem_of_singleton in Hin as ->. cbn [variables].
    apply check_upper; [|done].
    destruct (upper_milestone_value me) as [v|] eqn:Hv; cbn; [by apply Hupper|].
    apply mid_le_half.
    destruct (input_anchors !! (i + 1)%nat) as [next|] eqn:Hn; cbn;
      [by apply Hnext|apply Qcle_refl].
Qed.

End Milestoning_facts.

(** ** The counts a data sample is created with *)

Section Init_facts.
Import Model Sample Data_sample_init.
Local Open Scope Qc_scope.

Lemma foldlM_app {A B} (f : B → A → result B) (l k : list A) (b : B) :
  foldlM f (l ++ k) b = bind (foldlM f l b) (foldlM f k).
Proof.
  revert b. induction l as [|x l IH]; intros b; cbn; [done|].
  destruct (f b x); cbn; [apply IH|done].
Qed.

Lemma enumerate_from_app {A} (a : nat) (l k : list A) :
  enumerate_from a (l ++ k)
  = enumerate_from a l ++ enumerate_from (a + length l) k.
Proof.
  revert a. induction l as [|x l IH]; intros a; cbn.
  - by rewrite Nat.add_0_r.
  - rewrite IH. do 3 f_equal. lia.
Qed.

Lemma values_sum_insert {K} `{Countable K} (d : gmap K Qc) (k : K) (v : Qc) :
  d !! k = None → values_sum (<[k := v]> d) = values_sum d + v.
Proof.
  intros Hk. unfold values_sum.
  rewrite map_fold_insert_L; [done| |done]. intros. ring.
Qed.

(** The loop over the keys of [N_i_j_alpha[alpha]], on a list whose last
    place is [alpha]. *)
Lemma N_alpha_loop (N_alpha : list Qc) (d : gmap (Z * Z) Qc) :
  map_fold (N_alpha_step (length N_alpha)) (Ok (N_alpha ++ [0])) d
  = Ok (N_alpha ++ [values_sum d]).
Proof.
  apply (map_fold_weak_ind
           (λ r m, r = Ok (N_alpha ++ [values_sum m]))).
  - done.
  - intros key v m r Hkey ->. unfold N_alpha_step. cbn [bind].
    unfold index. rewrite lookup_app_r, Nat.sub_diag by done. cbn [lookup bind].
    cbn. rewrite setitem_lt by (rewrite length_app; cbn; lia).
    rewrite values_sum_insert by done.
    replace (length N_alpha) with (length N_alpha + 0)%nat at 1 by lia.
    by rewrite insert_app_r.
Qed.

(** The same loop on a list that has no place [alpha]. *)
Lemma N_alpha_loop_short (alpha : nat) (N_alpha : list Qc) (d : gmap (Z * Z) Qc) :
  (length N_alpha ≤ alpha)%nat → d ≠ ∅ →
  map_fold (N_alpha_step alpha) (Ok N_alpha) d = Raise IndexError.
Proof.
  intros Hlen.
  apply (map_fold_weak_ind
           (λ r m, (m = ∅ → r = Ok N_alpha) ∧ (m ≠ ∅ → r = Raise IndexError))).
  - done.
  - intros key v m r Hkey [Hempty Hnon]. split.
    { intros Hm. by apply insert_non_empty in Hm. }
    intros _. destruct (decide (m = ∅)) as [Hm|Hm].
    + rewrite (Hempty Hm). unfold N_alpha_step. cbn [bind]. unfold index.
      by rewrite lookup_ge_None_2.
    + by rewrite (Hnon Hm).
Qed.

Lemma init_loop_bulk (Ns : list (gmap (Z * Z) Qc)) (k : gmap (nat * nat) Qc)
    (anchors l : list Anchor) (a : nat) (st : list Qc * list Qc) :
  Forall (λ anchor, bulkstate anchor = true) l →
  foldlM (init_step Ns k anchors) (enumerate_from a l) st = Ok st.
Proof.
  intros Hl. revert a. induction Hl as [|x l Hx _ IH]; intros a; cbn; [done|].
  rewrite Hx. cbn [bind]. apply IH.
Qed.

Lemma init_loop_non_bulk (Ns : list (gmap (Z * Z) Qc)) (k : gmap (nat * nat) Qc)
    (anchors l : list Anchor) (N_alpha k_alpha : list Qc) :
  Forall (λ anchor, bulkstate anchor = false) l →
  (length N_alpha + length l ≤ length Ns)%nat →
  foldlM (init_step Ns k anchors) (enumerate_from (length N_alpha) l)
         (N_alpha, k_alpha)
  = Ok (N_alpha
          ++ ((λ alpha, values_sum (default ∅ (Ns !! alpha)))
                <$> seq (length N_alpha) (length l)),
        k_alpha
          ++ (k_alpha_of k anchors <$> seq (length N_alpha) (length l))).
Proof.
  intros Hl. revert N_alpha k_alpha.
  induction Hl as [|x l Hx _ IH]; intros N_alpha k_alpha Hlen; cbn.
  { by rewrite !app_nil_r. }
  cbn in Hlen. rewrite Hx. cbn [fst snd].
  destruct (lookup_lt_is_Some_2 Ns (length N_alpha)) as [d Hd]; [lia|].
  rewrite (index_lookup _ _ _ Hd). cbn [bind].
  rewrite N_alpha_loop. cbn [bind].
  pose proof (IH (N_alpha ++ [values_sum d])
                 (k_alpha ++ [k_alpha_of k anchors (length N_alpha)])) as IH'.
  rewrite length_app in IH'. cbn [length] in IH'.
  rewrite Nat.add_1_r in IH'. rewrite IH' by lia.
  rewrite Hd. cbn. by rewrite <- !app_assoc.
Qed.

(** The constructor on a model whose bulk anchors come after all others:
    [N_alpha] holds, for every anchor that is not the bulk, the sum of the
    anchor's [N_i_j_alpha], and [k_alpha] the sum of the rates of
    [k_alpha_beta] that leave the anchor. *)
Theorem init_counts_per_anchor (model : Model.t)
    (N_alpha_beta k_alpha_beta : gmap (nat * nat) Qc)
    (N_i_j_alpha : list (gmap (Z * Z) Qc)) (R_i_alpha : list (gmap Z Qc))
    (T_alpha : list Qc) (inner bulk : list Anchor) :
  anchors model = inner ++ bulk →
  Forall (λ anchor, bulkstate anchor = false) inner →
  Forall (λ anchor, bulkstate anchor = true) bulk →
  (length inner ≤ length N_i_j_alpha)%nat →
  init model (Some N_alpha_beta) (Some k_alpha_beta) (Some N_i_j_alpha)
       (Some R_i_alpha) (Some T_alpha)
  = Ok ((λ alpha, values_sum (default ∅ (N_i_j_alpha !! alpha)))
          <$> seq 0 (length inner),
        k_alpha_of k_alpha_beta (anchors model) <$> seq 0 (length inner)).
Proof.
  intros Hanchors Hinner Hbulk Hlen. unfold init, enumerate.
  set (step := init_step _ _ (anchors model)).
  set (k_alpha := k_alpha_of _ (anchors model)).
  rewrite Hanchors, enumerate_from_app, foldlM_app. subst step k_alpha.
  rewrite (init_loop_non_bulk _ _ _ inner [] [] Hinner) by (cbn; lia).
  cbn [bind app length]. by apply init_loop_bulk.
Qed.

(** The constructor on a model with a bulk anchor before an anchor that is
    not the bulk: at the first such anchor whose [N_i_j_alpha] is not
    empty, [N_alpha] is too short for the anchor's index and the
    constructor raises [IndexError]. *)
Theorem init_bulk_in_the_middle (model : Model.t)
    (N_alpha_beta k_alpha_beta : gmap (nat * nat) Qc)
    (N_i_j_alpha : list (gmap (Z * Z) Qc)) (R_i_alpha : list (gmap Z Qc))
    (T_alpha : list Qc) (inner bulk later : list Anchor) (anchor : Anchor) :
  anchors model = inner ++ bulk ++ anchor :: later →
  Forall (λ anchor, bulkstate anchor = false) inner →
  Forall (λ anchor, bulkstate anchor = true) bulk → bulk ≠ [] →
  bulkstate anchor = false →
  (length inner ≤ length N_i_j_alpha)%nat →
  N_i_j_alpha !! (length inner + length bulk)%nat ≠ Some ∅ →
  init model (Some N_alpha_beta) (Some k_alpha_beta) (Some N_i_j_alpha)
       (Some R_i_alpha) (Some T_alpha)
  = Raise IndexError.
Proof.
  intros Hanchors Hinner Hbulk Hne Hanchor Hlen Hd. unfold init, enumerate.
  set (step := init_step _ _ (anchors model)).
  rewrite Hanchors, enumerate_from_app, foldlM_app. subst step.
  rewrite (init_loop_non_bulk _ _ _ inner [] [] Hinner) by (cbn; lia).
  cbn [bind app length]. rewrite enumerate_from_app, foldlM_app.
  rewrite init_loop_bulk by done. cbn [bind enumerate_from foldlM].
  unfold init_step. rewrite Hanchor, Nat.add_0_l. cbn [fst snd].
  destruct (N_i_j_alpha !! (length inner + length bulk)%nat) as [d|] eqn:Hlook.
  - rewrite (index_lookup _ _ _ Hlook). cbn [bind].
    rewrite N_alpha_loop_short; [done| |congruence].
    rewrite length_app, length_fmap, length_seq. cbn.
    destruct bulk; [done|cbn; lia].
  - unfold index. by rewrite Hlook.
Qed.

End Init_facts.

(** ** The global statistics as arrays *)

Section N_R_facts.
Import Dense Model Sample.
Local Open Scope Qc_scope.

Lemma set2_entries (n : nat) (M : ndarray Qc) (i j : nat) (v : Qc) :
  length M = n → Forall (λ row, length row = n) M →
  (i < n)%nat → (j < n)%nat →
  ∃ M', set2 M i j v = Ok M' ∧
    length M' = n ∧ Forall (λ row, length row = n) M' ∧
    ∀ a b, M' !! a ≫= (.!! b)
           = if decide (a = i ∧ b = j) then Some v else M !! a ≫= (.!! b).
Proof.
  intros Hlen Hrows Hi Hj.
  destruct (lookup_lt_is_Some_2 M i) as [row Hrow]; [lia|].
  pose proof (Forall_lookup_1 _ _ _ _ Hrows Hrow) as Hl. cbn beta in Hl.
  unfold set2. rewrite (index_lookup _ _ _ Hrow). cbn [bind].
  rewrite setitem_lt by lia. cbn [bind]. rewrite setitem_lt by lia.
  eexists. split; [done|]. split; [by rewrite length_insert|].
  split.
  { apply Forall_insert; [done|]. by rewrite length_insert. }
  intros a b. destruct (decide (a = i)) as [->|Ha].
  - rewrite list_lookup_insert_eq by lia. cbn.
    destruct (decide (b = j)) as [->|Hb].
    + rewrite decide_True by done. apply list_lookup_insert_eq. lia.
    + rewrite decide_False by (by intros [_ ?]).
      rewrite list_lookup_insert_ne by done. by rewrite Hrow.
  - rewrite list_lookup_insert_ne by done.
    rewrite decide_False; [done|]. by intros [? _].
Qed.

Lemma entry_Some (n : nat) (M : ndarray Qc) (i j : nat) :
  length M = n → Forall (λ row, length row = n) M →
  (i < n)%nat → (j < n)%nat →
  ∃ x, M !! i ≫= (.!! j) = Some x ∧ at2 M i j = Ok x.
Proof.
  intros Hlen Hrows Hi Hj.
  destruct (lookup_lt_is_Some_2 M i) as [row Hrow]; [lia|].
  pose proof (Forall_lookup_1 _ _ _ _ Hrows Hrow) as Hl. cbn beta in Hl.
  destruct (lookup_lt_is_Some_2 row j) as [x Hx]; [lia|].
  exists x. rewrite Hrow. split; [done|]. apply at2_Ok. eauto.
Qed.

Variables (n : nat) (N_i_j_alpha : list (ndarray Qc))
  (R_i_alpha_total : list (list Qc)) (T_alpha_total pi_alpha : list Qc) (T : Qc).

(** The loop over [j] adds the anchor's term to the entries of row [i]. *)
Lemma mmvt_N_R_cell_loop (alpha i : nat) (p T_a : Qc) (N_a M : ndarray Qc)
    (s : nat → nat → Qc) :
  pi_alpha !! alpha = Some p → N_i_j_alpha !! alpha = Some N_a →
  T_alpha_total !! alpha = Some T_a → T_a ≠ 0 →
  length N_a = n → Forall (λ row, length row = n) N_a →
  (i < n)%nat →
  length M = n → Forall (λ row, length row = n) M →
  (∀ a b, (a < n)%nat → (b < n)%nat → M !! a ≫= (.!! b) = Some (s a b)) →
  ∃ M', foldlM (mmvt_N_R_cell N_i_j_alpha T_alpha_total T pi_alpha alpha i)
               (seq 0 n) M = Ok M' ∧
    length M' = n ∧ Forall (λ row, length row = n) M' ∧
    ∀ a b, (a < n)%nat → (b < n)%nat →
      M' !! a ≫= (.!! b)
      = Some (s a b + if decide (a = i)
                      then T * p * default 0 (N_a !! a ≫= (.!! b)) / T_a
                      else 0).
Proof.
  intros Hp HN HT HTz HlN HrN Hi HlM HrM HM.
  pose (P := λ (j : nat) (M' : ndarray Qc),
          length M' = n ∧ Forall (λ row, length row = n) M' ∧
          ∀ a b, (a < n)%nat → (b < n)%nat →
            M' !! a ≫= (.!! b)
            = Some (s a b + if decide (a = i ∧ (b < j)%nat)
                            then T * p * default 0 (N_a !! a ≫= (.!! b)) / T_a
                            else 0)).
  destruct (foldlM_seq_total
              (mmvt_N_R_cell N_i_j_alpha T_alpha_total T pi_alpha alpha i)
              P 0 n M) as (M' & HM' & Hl & Hr & Hent); unfold P.
  { split; [done|]. split; [done|]. intros a b Ha Hb.
    rewrite decide_False by (intros [_ ?]; lia). rewrite HM by done.
    f_equal. ring. }
  { intros j M1 [_ Hj] (Hl1 & Hr1 & He1). cbn in Hj. unfold mmvt_N_R_cell.
    rewrite (index_lookup _ _ _ Hp), (index_lookup _ _ _ HN). cbn [bind].
    destruct (entry_Some n N_a i j) as (x & Hx & ->); [done..|]. cbn [bind].
    rewrite (index_lookup _ _ _ HT). cbn [bind].
    unfold qdiv. rewrite decide_False by done. cbn [bind].
    pose proof (He1 i j Hi Hj) as Hold.
    rewrite decide_False in Hold by (intros [_ ?]; lia).
    destruct (entry_Some n M1 i j) as (old & Hold' & ->); [done..|]. cbn [bind].
    rewrite Hold in Hold'. injection Hold' as <-.
    destruct (set2_entries n M1 i j (s i j + 0 + T * p * x / T_a))
      as (M2 & -> & Hl2 & Hr2 & He2); [done..|].
    exists M2. split; [done|]. split; [done|]. split; [done|].
    intros a b Ha Hb. rewrite He2.
    destruct (decide (a = i ∧ b = j)) as [[-> ->]|Hab].
    - rewrite decide_True by (split; [done|lia]). rewrite Hx. cbn.
      f_equal. ring.
    - rewrite He1 by done. do 2 f_equal. apply decide_ext.
      split; intros [-> ?]; (split; [done|]); [lia|].
      destruct (decide (b = j)) as [->|]; [by destruct Hab|lia]. }
  exists M'. split; [done|]. split; [done|]. split; [done|].
  intros a b Ha Hb. rewrite Hent by done. do 2 f_equal.
  apply decide_ext. split; [by intros [? _]|]. intros ->. split; [done|lia].
Qed.

(** The loop over [i] adds the anchor's terms to every entry. *)
Lemma mmvt_N_R_row_loop (alpha : nat) (p T_a : Qc) (N_a : ndarray Qc)
    (R_a : list Qc) (st : ndarray Qc * list Qc) (s : nat → nat → Qc)
    (r : nat → Qc) :
  pi_alpha !! alpha = Some p → N_i_j_alpha !! alpha = Some N_a →
  R_i_alpha_total !! alpha = Some R_a →
  T_alpha_total !! alpha = Some T_a → T_a ≠ 0 →
  length N_a = n → Forall (λ row, length row = n) N_a → length R_a = n →
  length st.1 = n → Forall (λ row, length row = n) st.1 → length st.2 = n →
  (∀ a b, (a < n)%nat → (b < n)%nat → st.1 !! a ≫= (.!! b) = Some (s a b)) →
  (∀ a, (a < n)%nat → st.2 !! a = Some (r a)) →
  ∃ st', foldlM (mmvt_N_R_row n N_i_j_alpha R_i_alpha_total T_alpha_total T
                   pi_alpha alpha) (seq 0 n) st = Ok st' ∧
    length st'.1 = n ∧ Forall (λ row, length row = n) st'.1 ∧
    length st'.2 = n ∧
    (∀ a b, (a < n)%nat → (b < n)%nat →
       st'.1 !! a ≫= (.!! b)
       = Some (s a b + T * p * default 0 (N_a !! a ≫= (.!! b)) / T_a)) ∧
    (∀ a, (a < n)%nat →
       st'.2 !! a = Some (r a + T * p * default 0 (R_a !! a) / T_a)).
Proof.
  intros Hp HN HR HT HTz HlN HrN HlR HlM HrM HlRi HM HRi.
  pose (P := λ (i : nat) (st' : ndarray Qc * list Qc),
          length st'.1 = n ∧ Forall (λ row, length row = n) st'.1 ∧
          length st'.2 = n ∧
          (∀ a b, (a < n)%nat → (b < n)%nat →
             st'.1 !! a ≫= (.!! b)
             = Some (s a b + if decide (a < i)%nat
                             then T * p * default 0 (N_a !! a ≫= (.!! b)) / T_a
                             else 0)) ∧
          (∀ a, (a < n)%nat →
             st'.2 !! a
             = Some (r a + if decide (a < i)%nat
                           then T * p * default 0 (R_a !! a) / T_a else 0))).
  destruct (foldlM_seq_total
              (mmvt_N_R_row n N_i_j_alpha R_i_alpha_total T_alpha_total T
                 pi_alpha alpha) P 0 n st)
    as (st' & Hst' & Hl & Hr & Hl2 & HeM & HeR); unfold P.
  { repeat split; try done.
    - intros a b Ha Hb. rewrite decide_False by lia. rewrite HM by done.
      f_equal. ring.
    - intros a Ha. rewrite decide_False by lia. rewrite HRi by done.
      f_equal. ring. }
  { intros i [M1 R1] [_ Hi] (Hl1 & Hr1 & HlR1 & HeM1 & HeR1). cbn in Hi.
    cbn [fst snd] in *. unfold mmvt_N_R_row. cbn [fst snd].
    destruct (mmvt_N_R_cell_loop alpha i p T_a N_a M1 _ Hp HN HT HTz HlN HrN
                Hi Hl1 Hr1 HeM1) as (M2 & -> & Hl2 & Hr2 & HeM2).
    cbn [bind].
    rewrite (index_lookup _ _ _ Hp), (index_lookup _ _ _ HR). cbn [bind].
    destruct (lookup_lt_is_Some_2 R_a i) as [ri Hri]; [lia|].
    rewrite (index_lookup _ _ _ Hri). cbn [bind].
    rewrite (index_lookup _ _ _ HT). cbn [bind].
    unfold qdiv. rewrite decide_False by done. cbn [bind].
    pose proof (HeR1 i Hi) as Hold. rewrite decide_False in Hold by lia.
    rewrite (index_lookup _ _ _ Hold). cbn [bind].
    rewrite setitem_lt by lia. cbn [bind].
    eexists. split; [done|]. cbn [fst snd].
    split; [done|]. split; [done|]. split; [by rewrite length_insert|]. split.
    - intros a b Ha Hb. rewrite HeM2 by done. f_equal.
      destruct (decide (a = i)) as [->|Hne].
      + rewrite decide_False, decide_True by lia. ring.
      + destruct (decide (a < i)%nat).
        * rewrite decide_True by lia. ring.
        * rewrite decide_False by lia. ring.
    - intros a Ha. destruct (decide (a = i)) as [->|Hne].
      + rewrite list_lookup_insert_eq by lia. rewrite decide_True by lia.
        rewrite Hri. cbn. f_equal. ring.
      + rewrite list_lookup_insert_ne by done. rewrite HeR1 by done.
        do 2 f_equal. apply decide_ext. lia. }
  exists st'. split; [done|]. split; [done|]. split; [done|]. split; [done|].
  split.
  - intros a b Ha Hb. rewrite HeM by done. by rewrite decide_True by lia.
  - intros a Ha. rewrite HeR by done. by rewrite decide_True by lia.
Qed.

(** [mmvt_Q_of] returns on arrays of the right shape. *)
Lemma mmvt_Q_of_returns (mmvt_Nij : ndarray Qc) (mmvt_Ri : list Qc) :
  length mmvt_Nij = n → Forall (λ row, length row = n) mmvt_Nij →
  length mmvt_Ri = n →
  ∃ Q, mmvt_Q_of n mmvt_Nij mmvt_Ri = Ok Q.
Proof.
  intros HlN HrN HlR. apply mapM_seq_total. intros i [_ Hi]. cbn in Hi.
  unfold mmvt_Q_row.
  destruct (foldlM_seq_total (mmvt_Q_step mmvt_Nij mmvt_Ri i)
              (λ _ row, length row = n) 0 n (zeros n))
    as (row & -> & Hrow).
  { apply length_zeros. }
  { intros j row [_ Hj] Hrow. cbn in Hj. unfold mmvt_Q_step.
    case_decide; [by eexists|].
    destruct (lookup_lt_is_Some_2 mmvt_Ri i) as [ri Hri]; [lia|].
    rewrite (index_lookup _ _ _ Hri). cbn [bind].
    destruct (fgt0 ri); [|by eexists].
    destruct (entry_Some n mmvt_Nij i j) as (x & _ & ->); [done..|].
    cbn [bind]. rewrite setitem_lt by lia. eexists. split; [done|].
    by rewrite length_insert. }
  cbn [bind]. rewrite setitem_lt by lia. by eexists.
Qed.

(** On statistics given for every anchor as arrays over the milestones,
    with no [T_alpha_total] of zero, [mmvt_Q_N_R] returns, and its
    [mmvt_Nij] and [mmvt_Ri] hold at every place the sum over all the
    anchors, the bulk included, of [T * pi_alpha[alpha]] times the anchor's
    entry over [T_alpha_total[alpha]]. *)
Theorem mmvt_Q_N_R_sums (n_anchors : nat) :
  (∀ alpha, (alpha < n_anchors)%nat →
     ∃ p N_a R_a T_a,
       pi_alpha !! alpha = Some p ∧ N_i_j_alpha !! alpha = Some N_a ∧
       R_i_alpha_total !! alpha = Some R_a ∧
       T_alpha_total !! alpha = Some T_a ∧ T_a ≠ 0 ∧
       length N_a = n ∧ Forall (λ row, length row = n) N_a ∧
       length R_a = n) →
  ∃ mmvt_Nij mmvt_Ri mmvt_Q,
    mmvt_Q_N_R n n_anchors N_i_j_alpha R_i_alpha_total T_alpha_total T pi_alpha
    = Ok (mmvt_Nij, mmvt_Ri, mmvt_Q) ∧
    (∀ i j, (i < n)%nat → (j < n)%nat →
       mmvt_Nij !! i ≫= (.!! j)
       = Some (qsum (map (λ alpha,
                 T * default 0 (pi_alpha !! alpha)
                 * default 0 (default [] (N_i_j_alpha !! alpha) !! i ≫= (.!! j))
                 / default 0 (T_alpha_total !! alpha)) (seq 0 n_anchors)))) ∧
    (∀ i, (i < n)%nat →
       mmvt_Ri !! i
       = Some (qsum (map (λ alpha,
                 T * default 0 (pi_alpha !! alpha)
                 * default 0 (default [] (R_i_alpha_total !! alpha) !! i)
                 / default 0 (T_alpha_total !! alpha)) (seq 0 n_anchors)))).
Proof.
  intros Hin. unfold mmvt_Q_N_R.
  set (tN := λ (i j alpha : nat),
         T * default 0 (pi_alpha !! alpha)
         * default 0 (default [] (N_i_j_alpha !! alpha) !! i ≫= (.!! j))
         / default 0 (T_alpha_total !! alpha)).
  set (tR := λ (i alpha : nat),
         T * default 0 (pi_alpha !! alpha)
         * default 0 (default [] (R_i_alpha_total !! alpha) !! i)
         / default 0 (T_alpha_total !! alpha)).
  pose (P := λ (k : nat) (st : ndarray Qc * list Qc),
          length st.1 = n ∧ Forall (λ row, length row = n) st.1 ∧
          length st.2 = n ∧
          (∀ i j, (i < n)%nat → (j < n)%nat →
             st.1 !! i ≫= (.!! j) = Some (qsum (map (tN i j) (seq 0 k)))) ∧
          (∀ i, (i < n)%nat →
             st.2 !! i = Some (qsum (map (tR i) (seq 0 k))))).
  destruct (foldlM_seq_total
              (λ st alpha,
                 foldlM (mmvt_N_R_row n N_i_j_alpha R_i_alpha_total
                           T_alpha_total T pi_alpha alpha) (seq 0 n) st)
              P 0 n_anchors (zeros2 n n, zeros n))
    as ([M Ri] & -> & Hl & Hr & HlR & HeM & HeR); unfold P.
  { cbn [fst snd]. unfold zeros2.
    split; [apply length_replicate|]. split.
    { apply Forall_replicate, length_zeros. }
    split; [apply length_zeros|]. split.
    - intros i j Hi Hj. rewrite lookup_replicate_2 by done. cbn.
      by rewrite lookup_zeros.
    - intros i Hi. by rewrite lookup_zeros. }
  { intros alpha st [_ Halpha] (Hl & Hr & HlR & HeM & HeR). cbn in Halpha.
    destruct (Hin alpha Halpha)
      as (p & N_a & R_a & T_a & Hp & HN & HR & HT & HTz & HlN & HrN & HlRa).
    destruct (mmvt_N_R_row_loop alpha p T_a N_a R_a st _ _ Hp HN HR HT HTz
                HlN HrN HlRa Hl Hr HlR HeM HeR)
      as (st' & -> & Hl' & Hr' & HlR' & HeM' & HeR').
    exists st'. split; [done|]. split; [done|]. split; [done|].
    split; [done|]. split.
    - intros i j Hi Hj. rewrite HeM' by done.
      rewrite seq_S, map_app, qsum_app. cbn [map Nat.add].
      rewrite qsum_cons, qsum_nil. unfold tN. rewrite Hp, HN, HT. cbn.
      f_equal. ring.
    - intros i Hi. rewrite HeR' by done.
      rewrite seq_S, map_app, qsum_app. cbn [map Nat.add].
      rewrite qsum_cons, qsum_nil. unfold tR. rewrite Hp, HR, HT. cbn.
      f_equal. ring. }
  cbn [bind fst snd] in *.
  destruct (mmvt_Q_of_returns M Ri Hl Hr HlR) as [Q ->]. cbn [bind].
  exists M, Ri, Q. split; [done|]. split; [exact HeM|exact HeR].
Qed.

End N_R_facts.

(** ** The added facts on concrete inputs *)

Section More_witnesses.
Import Dense Model Sample Examples.
Local Open Scope Qc_scope.

Lemma neighbours_share_a_milestone_witness :
  ∃ ms1 a1 m1 ms2 a3 m3 upper lower,
    Milestoning.make_mmvt_milestoning_objects_spherical 0 1 0 0 0
      spherical_anchors = Ok (ms1, a1, m1) ∧
    Milestoning.make_mmvt_milestoning_objects_spherical 0 1 m1 1 (0 + 1)
      spherical_anchors = Ok (ms2, a3, m3) ∧
    last ms1 = Some upper ∧ head ms2 = Some lower ∧
    Milestoning.milestone_index upper = Milestoning.milestone_index lower ∧
    Milestoning.variables upper !! "radius"%string
    = Milestoning.variables lower !! "radius"%string.
Proof.
  destruct (neighbours_share_a_milestone 0 1 1 0 0 0 spherical_anchors _ _
              eq_refl eq_refl)
    as (ms1 & a1 & m1 & ms2 & a3 & m3 & upper & lower
        & H1 & H2 & H3 & H4 & H5 & _ & _ & _ & _ & H6).
  exists ms1, a1, m1, ms2, a3, m3, upper, lower.
  repeat split; try done. apply H6; reflexivity.
Defined.

Lemma planar_milestones_of_an_anchor_witness :
  ∃ ms a' m',
    Milestoning.make_mmvt_milestoning_objects_planar 0 1 0 1 1 planar_anchors
    = Ok (ms, a', m') ∧
    a' = 2%Z ∧ m' = 1%Z ∧
    Milestoning.alias_index <$> ms = [1%Z; 2%Z] ∧
    Milestoning.milestone_index <$> ms = [0%Z; 1%Z] ∧
    Milestoning.neighbor_anchor_index <$> ms = [0%Z; 2%Z].
Proof.
  destruct (planar_milestones_of_an_anchor 0 1 0 1 1 planar_anchors)
    as (ms & a' & m' & H1 & H2 & H3 & H4 & H5 & H6 & _); [cbn; lia|].
  exists ms, a', m'. subst a' m'.
  repeat split; first [reflexivity|assumption].
Defined.

Lemma planar_milestones_past_the_end_witness :
  Milestoning.make_mmvt_milestoning_objects_planar 0 1 0 3 3 planar_anchors
  = Raise IndexError.
Proof.
  apply (planar_milestones_past_the_end 0 1 0 3 3 planar_anchors). cbn. lia.
Defined.

Lemma anchor_within_its_milestones_witness :
  ∃ ms a' m',
    Milestoning.make_mmvt_milestoning_objects_planar 0 1 0 1 1 planar_anchors
    = Ok (ms, a', m') ∧
    ∀ milestone, milestone ∈ ms →
      Milestoning.check_value_within_boundary (Qc_of_Z 2)
        (Milestoning.variables milestone) 0 = Ok true.
Proof.
  apply (anchor_within_its_milestones 0 1 0 1 1 planar_anchors
           {| Milestoning.value := Qc_of_Z 2;
              Milestoning.lower_milestone_value := None;
              Milestoning.upper_milestone_value := None |} 0).
  - reflexivity.
  - intros prev _ [= <-]. by_compute.
  - intros next [= <-]. by_compute.
  - intros v [=].
  - intros v [=].
  - by_compute.
Defined.

Lemma init_counts_per_anchor_witness :
  Data_sample_init.init chain_model (Some chain_N) (Some chain_k)
    (Some chain_Ns) (Some chain_Rs) (Some chain_Ta)
  = Ok ((λ alpha, Data_sample_init.values_sum (default ∅ (chain_Ns !! alpha)))
          <$> seq 0 2,
        Data_sample_init.k_alpha_of chain_k (anchors chain_model) <$> seq 0 2).
Proof.
  apply (init_counts_per_anchor chain_model chain_N chain_k chain_Ns chain_Rs
           chain_Ta (take 2 (anchors chain_model))
           (drop 2 (anchors chain_model))).
  - reflexivity.
  - repeat constructor.
  - repeat constructor.
  - cbn. lia.
Defined.

(** On the example, [N_alpha] is [0, 8] and [k_alpha] is [1, 5]. *)
Example init_chain :
  value ([], [])
    (Data_sample_init.init chain_model (Some chain_N) (Some chain_k)
       (Some chain_Ns) (Some chain_Rs) (Some chain_Ta))
  = ([0; Qc_of_Z 8], [1; Qc_of_Z 5]).
Proof. by_compute. Qed.

Lemma init_bulk_in_the_middle_witness :
  Data_sample_init.init bulk_first_model (Some ∅) (Some bulk_first_k)
    (Some bulk_first_Ns) (Some []) (Some [])
  = Raise IndexError.
Proof.
  apply (init_bulk_in_the_middle bulk_first_model ∅ bulk_first_k bulk_first_Ns
           [] [] [] (take 1 (anchors bulk_first_model))
           (drop 2 (anchors bulk_first_model))
           {| anchor_index := 1; bulkstate := false;
              milestones := [milestone 0 2 1] |}).
  - reflexivity.
  - constructor.
  - repeat constructor.
  - discriminate.
  - reflexivity.
  - cbn. lia.
  - by_compute.
Defined.

Lemma mmvt_Q_N_R_sums_witness :
  ∃ mmvt_Nij mmvt_Ri mmvt_Q,
    mmvt_Q_N_R 2 2 dense_Ns dense_Rs chain_Ta (Qc_of_Z 10)
      (pi_alpha chain_sample)
    = Ok (mmvt_Nij, mmvt_Ri, mmvt_Q) ∧
    mmvt_Nij !! 0%nat ≫= (.!! 1%nat) = Some (Q2Qc (Qmake 5 3)) ∧
    mmvt_Ri !! 0%nat = Some (Q2Qc (Qmake 20 3)).
Proof.
  destruct (mmvt_Q_N_R_sums 2 dense_Ns dense_Rs chain_Ta
              (pi_alpha chain_sample) (Qc_of_Z 10) 2)
    as (Nij & Ri & Q & H & HN & HR).
  { intros [|[|alpha]] Halpha; [| |lia].
    - exists (Q2Qc (Qmake 2 3)), [[0; 1]; [Qc_of_Z 2; 0]],
        [Qc_of_Z 5; Qc_of_Z 5], (Qc_of_Z 10).
      repeat split; try reflexivity; [by intros [=]|repeat constructor].
    - exists (Q2Qc (Qmake 1 3)), [[0; Qc_of_Z 3]; [0; 0]],
        [Qc_of_Z 10; 0], (Qc_of_Z 10).
      repeat split; try reflexivity; [by intros [=]|repeat constructor]. }
  exists Nij, Ri, Q. split; [exact H|]. split.
  - rewrite (HN 0%nat 1%nat) by lia. f_equal; by_compute.
  - rewrite (HR 0%nat) by lia. f_equal; by_compute.
Defined.

End More_witnesses.
